(** * typedgql runtime: selection tree, schema metadata and serializer

    A shallow embedding of the runtime of [typedgql]
    ([runtime/schema.ts], [runtime/selection.ts], [runtime/proxy.ts],
    [runtime/text-builder.ts], [runtime/field-options.ts],
    [runtime/enum-metadata.ts]) and the properties of its selection
    fold, field merging and serialization.

    Conventions of the embedding.
    - A JavaScript [Map] is an insertion-ordered table: [JsMap.t].
      [set] on a present key replaces the value in place, [set] on an absent
      key appends, [delete] removes the key.
    - A JavaScript object used as a record of arguments is the list of its
      own enumerable properties in [for ... in] order (argument names are
      protocol names, never array indices).
    - Selection nodes live in a heap, addressed by location; a node holds
      its immutable constructor payload and its three memo cells.
    - Code that can throw runs in a state-and-exception monad; the state
      survives a throw, as the JavaScript heap does. *)

From Stdlib Require Import String Ascii List ZArith Lia Bool Arith DecimalString.
Import ListNotations.
Open Scope string_scope.
Open Scope list_scope.

Set Implicit Arguments.
Set Warnings "-register-all".

(* ------------------------------------------------------------------ *)
(** ** Strings the way the source uses them *)

Module Str.

Definition LF : string := String (ascii_of_nat 10) EmptyString.
Definition TAB : string := String (ascii_of_nat 9) EmptyString.
Definition DQUOTE : string := String (ascii_of_nat 34) EmptyString.
Definition BACKSLASH : string := String (ascii_of_nat 92) EmptyString.

(** [s.startsWith(p)] *)
Definition startsWith (s p : string) : bool := String.prefix p s.

(** [s.endsWith(p)] *)
Definition endsWith (s p : string) : bool :=
  (String.length p <=? String.length s)%nat &&
  String.eqb (String.substring (String.length s - String.length p) (String.length p) s) p.

(** [s.substring(n)] *)
Definition substringFrom (n : nat) (s : string) : string :=
  String.substring n (String.length s - n) s.

(** [s.indexOf("\n")] *)
Definition indexOfLF (s : string) : option nat := String.index 0 LF s.

(** [s.repeat(n)] *)
Fixpoint repeat (s : string) (n : nat) : string :=
  match n with
  | O => EmptyString
  | S n' => s ++ repeat s n'
  end.

Definition isWhite (c : ascii) : bool :=
  let n := nat_of_ascii c in
  ((9 <=? n) && (n <=? 13))%nat || (n =? 32)%nat.

Fixpoint trimStart (s : string) : string :=
  match s with
  | EmptyString => EmptyString
  | String c r => if isWhite c then trimStart r else s
  end.

Fixpoint rev (s : string) : string :=
  match s with
  | EmptyString => EmptyString
  | String c r => rev r ++ String c EmptyString
  end.

(** [s.trim()] on the ASCII white space characters. *)
Definition trim (s : string) : string := rev (trimStart (rev (trimStart s))).

(** Truthiness of a string: non-empty. *)
Definition truthy (s : string) : bool :=
  match s with EmptyString => false | _ => true end.

Definition hexDigit (n : nat) : ascii :=
  if (n <? 10)%nat then ascii_of_nat (48 + n) else ascii_of_nat (87 + n).

(** The escape of one character inside [JSON.stringify] of a string. *)
Definition jsonEscape (c : ascii) : string :=
  let n := nat_of_ascii c in
  if (n =? 34)%nat then BACKSLASH ++ DQUOTE
  else if (n =? 92)%nat then BACKSLASH ++ BACKSLASH
  else if (n =? 8)%nat then BACKSLASH ++ "b"
  else if (n =? 12)%nat then BACKSLASH ++ "f"
  else if (n =? 10)%nat then BACKSLASH ++ "n"
  else if (n =? 13)%nat then BACKSLASH ++ "r"
  else if (n =? 9)%nat then BACKSLASH ++ "t"
  else if (n <? 32)%nat then
    BACKSLASH ++ "u00" ++ String (hexDigit (n / 16)) (String (hexDigit (n mod 16)) EmptyString)
  else String c EmptyString.

Fixpoint jsonEscapeAll (s : string) : string :=
  match s with
  | EmptyString => EmptyString
  | String c r => jsonEscape c ++ jsonEscapeAll r
  end.

(** [JSON.stringify(s)] for a string [s]. *)
Definition JSON_stringify (s : string) : string :=
  DQUOTE ++ jsonEscapeAll s ++ DQUOTE.

(** [n.toString()] for an integer-valued number. *)
Definition numberToString (n : Z) : string :=
  NilZero.string_of_int (Z.to_int n).

(** [typeName.split(/\[|\]|!/).join("")]: the type name without list
    brackets and non-null marks. *)
Fixpoint stripTypeMarks (s : string) : string :=
  match s with
  | EmptyString => EmptyString
  | String c r =>
      let n := nat_of_ascii c in
      if ((n =? 91) || (n =? 93) || (n =? 33))%nat then stripTypeMarks r
      else String c (stripTypeMarks r)
  end.

(** [hay.includes(needle)] *)
Definition includes (hay needle : string) : bool :=
  match String.index 0 needle hay with Some _ => true | None => false end.

(** The number of positions of [hay] at which [needle] starts. *)
Fixpoint count (needle hay : string) : nat :=
  match hay with
  | EmptyString => 0
  | String _ r => (if String.prefix needle hay then 1 else 0) + count needle r
  end.

End Str.

(* ------------------------------------------------------------------ *)
(** ** JavaScript [Map]: an insertion-ordered table keyed by strings *)

Module JsMap.

Section Table.
Variable V : Type.

Definition t : Type := list (string * V).

Definition empty : t := [].

Fixpoint get (k : string) (m : t) : option V :=
  match m with
  | [] => None
  | (k', v) :: r => if String.eqb k' k then Some v else get k r
  end.

Definition has (k : string) (m : t) : bool :=
  match get k m with Some _ => true | None => false end.

(** [m.set(k, v)]: a present key keeps its position. *)
Fixpoint set (k : string) (v : V) (m : t) : t :=
  match m with
  | [] => [(k, v)]
  | (k', v') :: r =>
      if String.eqb k' k then (k, v) :: r else (k', v') :: set k v r
  end.

(** [m.delete(k)] *)
Fixpoint delete (k : string) (m : t) : t :=
  match m with
  | [] => []
  | (k', v') :: r =>
      if String.eqb k' k then delete k r else (k', v') :: delete k r
  end.

Definition keys (m : t) : list string := List.map fst m.
Definition values (m : t) : list V := List.map snd m.
Definition size (m : t) : nat := List.length m.

End Table.

Arguments empty {V}.
Arguments get {V} k m.
Arguments has {V} k m.
Arguments set {V} k v m.
Arguments delete {V} k m.
Arguments keys {V} m.
Arguments values {V} m.
Arguments size {V} m.

End JsMap.

(* ------------------------------------------------------------------ *)
(** ** Exceptions and the state-and-exception monad *)

Inductive Exn : Type :=
| TypeError (msg : string)   (* a property read off [null] or [undefined] *)
| Error (msg : string).      (* [throw new Error(msg)] *)

Inductive Outcome (A : Type) : Type :=
| Ok (a : A)
| Throw (e : Exn)
| Diverge.                   (* the model's fuel ran out *)

Arguments Ok {A} a.
Arguments Throw {A} e.
Arguments Diverge {A}.

Definition M (S A : Type) : Type := S -> Outcome A * S.

Definition ret {S A : Type} (a : A) : M S A := fun s => (Ok a, s).

Definition bind {S A B : Type} (m : M S A) (f : A -> M S B) : M S B :=
  fun s =>
    match m s with
    | (Ok a, s') => f a s'
    | (Throw e, s') => (Throw e, s')
    | (Diverge, s') => (Diverge, s')
    end.

Definition throw {S A : Type} (e : Exn) : M S A := fun s => (Throw e, s).
Definition diverge {S A : Type} : M S A := fun s => (Diverge, s).
Definition getState {S : Type} : M S S := fun s => (Ok s, s).
Definition putState {S : Type} (s : S) : M S unit := fun _ => (Ok tt, s).
Definition modify {S : Type} (f : S -> S) : M S unit := fun s => (Ok tt, f s).

(** [try m finally f]: the state change [f] runs on every exit of [m]. *)
Definition finally {S A : Type} (m : M S A) (f : S -> S) : M S A :=
  fun s => let (o, s') := m s in (o, f s').

Declare Scope monad_scope.
Delimit Scope monad_scope with monad.
Notation "x <- m ;; k" := (bind m (fun x => k))
  (at level 61, m at next level, right associativity) : monad_scope.
Notation "m ;;; k" := (bind m (fun _ => k))
  (at level 61, right associativity) : monad_scope.
Open Scope monad_scope.

(** [for (const x of xs) body(x)] *)
Fixpoint forEach {S A : Type} (xs : list A) (body : A -> M S unit) : M S unit :=
  match xs with
  | [] => ret tt
  | x :: r => body x ;;; forEach r body
  end.

Definition isOk {A : Type} (o : Outcome A) : bool :=
  match o with Ok _ => true | _ => false end.

Definition isThrow {A : Type} (o : Outcome A) : bool :=
  match o with Throw _ => true | _ => false end.

(* ------------------------------------------------------------------ *)
(** ** [runtime/text-builder.ts] *)

Module TextBuilder.

Inductive ScopeType : Type := block | arguments | array.

Record ScopeOptions : Type := mkScopeOptions {
  so_type : ScopeType;
  so_multiLines : option bool;
  so_separator : option string;
  so_prefix : option string;
  so_suffix : option string
}.

(** [{ type }], [{ type, multiLines }] and [{ type, multiLines, suffix }]. *)
Definition opts (ty : ScopeType) : ScopeOptions :=
  mkScopeOptions ty None None None None.
Definition optsML (ty : ScopeType) (ml : bool) : ScopeOptions :=
  mkScopeOptions ty (Some ml) None None None.
Definition optsMLSuffix (ty : ScopeType) (ml : bool) (suffix : string) : ScopeOptions :=
  mkScopeOptions ty (Some ml) None None (Some suffix).

Definition SCOPE_BRACKETS (ty : ScopeType) : string * string :=
  match ty with
  | block => ("{", "}")
  | arguments => ("(", ")")
  | array => ("[", "]")
  end.

Definition DEFAULT_SEPARATORS (ty : ScopeType) : option string :=
  match ty with
  | block => None
  | arguments => Some ", "
  | array => Some ", "
  end.

Record ScopeState : Type := mkScopeState {
  type : ScopeType;
  multiLines : bool;
  separator_ : option string;
  dirty : bool
}.

(** The builder object. [scopes] is the stack of open scopes, innermost
    first (the source pushes and pops at the end of an array). *)
Record t : Type := mkTextBuilder {
  result : string;
  atNewLine : bool;
  scopes : list ScopeState;
  indent : string
}.

(** [new TextBuilder()] *)
Definition new : t := mkTextBuilder "" false [] Str.TAB.

Definition append (s : string) (tb : t) : t :=
  mkTextBuilder (result tb ++ s) (atNewLine tb) (scopes tb) (indent tb).

Definition flushIndent (tb : t) : t :=
  if atNewLine tb
  then mkTextBuilder (result tb ++ Str.repeat (indent tb) (List.length (scopes tb)))
                     false (scopes tb) (indent tb)
  else tb.

Definition lineBreak (tb : t) : t :=
  mkTextBuilder (result tb ++ Str.LF) true (scopes tb) (indent tb).

Definition markDirty (tb : t) : t :=
  match scopes tb with
  | [] => tb
  | sc :: rest =>
      mkTextBuilder (result tb) (atNewLine tb)
        (mkScopeState (type sc) (multiLines sc) (separator_ sc) true :: rest)
        (indent tb)
  end.

(** The [while (remaining)] loop of [text]; every turn consumes at least
    one character, so [String.length value] turns are enough. *)
Fixpoint textLoop (fuel : nat) (remaining : string) (tb : t) : t :=
  match fuel with
  | O => tb
  | S fuel' =>
      if Str.truthy remaining then
        let tb1 := flushIndent tb in
        match Str.indexOfLF remaining with
        | Some newlineIdx =>
            let tb2 := append (String.substring 0 newlineIdx remaining) tb1 in
            let tb3 := lineBreak tb2 in
            textLoop fuel' (Str.substringFrom (newlineIdx + 1) remaining) tb3
        | None => append remaining tb1
        end
      else tb
  end.

Definition text (value : string) (tb : t) : t :=
  let tb1 :=
    match scopes tb with
    | sc :: _ =>
        if Str.truthy value && negb (dirty sc)
        then markDirty (if multiLines sc then lineBreak tb else tb)
        else tb
    | [] => tb
    end in
  textLoop (String.length value) value tb1.

Definition textOpt (value : option string) (tb : t) : t :=
  match value with
  | Some v => if Str.truthy v then text v tb else tb
  | None => tb
  end.

Definition pushScope (sc : ScopeState) (tb : t) : t :=
  mkTextBuilder (result tb) (atNewLine tb) (sc :: scopes tb) (indent tb).

Definition popScope (tb : t) : t :=
  mkTextBuilder (result tb) (atNewLine tb) (List.tl (scopes tb)) (indent tb).

Definition orElse {A : Type} (a : option A) (b : option A) : option A :=
  match a with Some _ => a | None => b end.

(** The part of [scope] before [action()]. *)
Definition scopeEnter (options : ScopeOptions) (tb : t) : t :=
  let ml := match so_multiLines options with Some b => b | None => false end in
  let tb1 := textOpt (so_prefix options) tb in
  let tb2 := text (fst (SCOPE_BRACKETS (so_type options))) tb1 in
  pushScope (mkScopeState (so_type options) ml
               (orElse (so_separator options) (DEFAULT_SEPARATORS (so_type options)))
               false) tb2.

(** The [finally] block of [scope]. *)
Definition scopeLeave (options : ScopeOptions) (tb : t) : t :=
  let ml := match so_multiLines options with Some b => b | None => false end in
  let tb1 := popScope tb in
  let tb2 := if ml && negb (atNewLine tb1) then lineBreak tb1 else tb1 in
  let tb3 := text (snd (SCOPE_BRACKETS (so_type options))) tb2 in
  textOpt (so_suffix options) tb3.

(** [separator(value?)]: [None] is the call without argument. The result is
    [None] when there is no open scope (the source throws). *)
Definition separator (value : option string) (tb : t) : option t :=
  match scopes tb with
  | [] => None
  | sc :: _ =>
      if dirty sc then
        let sep :=
          match value with
          | Some v => if Str.truthy v then Some v else separator_ sc
          | None => separator_ sc
          end in
        let tb1 := textOpt sep tb in
        Some (if multiLines sc then lineBreak tb1 else tb1)
      else Some tb
  end.

Definition toString (tb : t) : string := result tb.

End TextBuilder.

(* ------------------------------------------------------------------ *)
(** ** Argument values *)

(** The JavaScript values an argument bundle can hold.

    An object that answers truthy to the marker property
    [" $__instanceOfParameterRef"] is a [JParameterRef]; a [JObject] is a
    plain object, which does not carry that property. Numbers are the
    integer-valued ones. *)
Inductive JsValue : Type :=
| JUndefined
| JNull
| JBool (b : bool)
| JNumber (n : Z)
| JString (s : string)
| JStringValue (value : string) (quotationMarks : bool)
| JParameterRef (name : string) (graphqlTypeName : option string)
| JArray (elems : list JsValue)
| JSet (elems : list JsValue)
| JMap (entries : list (string * JsValue))
| JObject (props : list (string * JsValue)).

(** An argument bundle [{ [key: string]: any }]. *)
Definition Args : Type := list (string * JsValue).

(** [DirectiveArgs]: an object or [undefined]. *)
Definition DirectiveArgs : Type := option Args.

Module ParameterRef.

(** Modelled from the spec: [runtime/parameter.ts] is missing from the
    sources. [ParameterRef.of(name)] builds the deferred-variable reference
    named [name]; it carries no protocol type of its own (the serializer
    reads [ref.graphqlTypeName] as an optional property). *)
Definition of_ (name : string) : JsValue := JParameterRef name None.

(** Modelled from the spec: the own enumerable properties of a reference,
    as [for ... in] lists them. *)
Definition props (name : string) (graphqlTypeName : option string) : list (string * JsValue) :=
  [("name", JString name);
   ("graphqlTypeName", match graphqlTypeName with Some ty => JString ty | None => JUndefined end);
   (" $__instanceOfParameterRef", JBool true)].

End ParameterRef.

(** [typeof v === "object"] *)
Definition typeofObject (v : JsValue) : bool :=
  match v with
  | JUndefined | JBool _ | JNumber _ | JString _ => false
  | _ => true
  end.

(** [v[" $__instanceOfParameterRef"]] as a condition: a [TypeError] on
    [null] and [undefined], otherwise whether the marker is truthy. *)
Definition instanceOfParameterRef (v : JsValue) : Exn + bool :=
  match v with
  | JNull => inl (TypeError "Cannot read properties of null (reading ' $__instanceOfParameterRef')")
  | JUndefined => inl (TypeError "Cannot read properties of undefined (reading ' $__instanceOfParameterRef')")
  | JParameterRef _ _ => inr true
  | _ => inr false
  end.

(** The loop body shared by the two branches of [isMultiLineJSON]:
    [None] is "keep going", [Some b] is [return b]. *)
Fixpoint isMultiLineLoop (vs : list JsValue) (size : nat) : Exn + bool :=
  match vs with
  | [] => inr false
  | v :: r =>
      if typeofObject v then
        match instanceOfParameterRef v with
        | inl e => inl e
        | inr true => if (2 <? S size)%nat then inr true else isMultiLineLoop r (S size)
        | inr false => inr true
        end
      else if (2 <? S size)%nat then inr true else isMultiLineLoop r (S size)
  end.

(** [isMultiLineJSON(obj)] *)
Definition isMultiLineJSON (obj : JsValue) : Exn + bool :=
  match obj with
  | JArray vs => isMultiLineLoop vs 0
  | JUndefined | JBool _ | JNumber _ | JString _ => inr false
  | JNull => inr false
  | JObject props => isMultiLineLoop (List.map snd props) 0
  | JParameterRef n ty => isMultiLineLoop (List.map snd (ParameterRef.props n ty)) 0
  | JStringValue v q => isMultiLineLoop [JString v; JBool q] 0
  | JSet _ | JMap _ => inr false
  end.

(** Induction on values through their element lists. *)
Section JsValueInduction.
Variable P : JsValue -> Prop.
Hypothesis HUndefined : P JUndefined.
Hypothesis HNull : P JNull.
Hypothesis HBool : forall b, P (JBool b).
Hypothesis HNumber : forall n, P (JNumber n).
Hypothesis HString : forall s, P (JString s).
Hypothesis HStringValue : forall v q, P (JStringValue v q).
Hypothesis HParameterRef : forall n ty, P (JParameterRef n ty).
Hypothesis HArray : forall es, Forall P es -> P (JArray es).
Hypothesis HSet : forall es, Forall P es -> P (JSet es).
Hypothesis HMap : forall kvs, Forall (fun kv => P (snd kv)) kvs -> P (JMap kvs).
Hypothesis HObject : forall kvs, Forall (fun kv => P (snd kv)) kvs -> P (JObject kvs).

Fixpoint JsValue_nested_ind (v : JsValue) : P v :=
  match v with
  | JUndefined => HUndefined
  | JNull => HNull
  | JBool b => HBool b
  | JNumber n => HNumber n
  | JString s => HString s
  | JStringValue v q => HStringValue v q
  | JParameterRef n ty => HParameterRef n ty
  | JArray es =>
      HArray ((fix all (l : list JsValue) : Forall P l :=
                 match l with
                 | [] => Forall_nil P
                 | x :: r => Forall_cons x (JsValue_nested_ind x) (all r)
                 end) es)
  | JSet es =>
      HSet ((fix all (l : list JsValue) : Forall P l :=
               match l with
               | [] => Forall_nil P
               | x :: r => Forall_cons x (JsValue_nested_ind x) (all r)
               end) es)
  | JMap kvs =>
      HMap ((fix all (l : list (string * JsValue)) : Forall (fun kv => P (snd kv)) l :=
               match l with
               | [] => Forall_nil _
               | x :: r => Forall_cons x (JsValue_nested_ind (snd x)) (all r)
               end) kvs)
  | JObject kvs =>
      HObject ((fix all (l : list (string * JsValue)) : Forall (fun kv => P (snd kv)) l :=
                  match l with
                  | [] => Forall_nil _
                  | x :: r => Forall_cons x (JsValue_nested_ind (snd x)) (all r)
                  end) kvs)
  end.
End JsValueInduction.

(* ------------------------------------------------------------------ *)
(** ** [runtime/enum-metadata.ts] *)

Inductive EnumInputKind : Type := ENUM | INPUT.

Inductive EnumInputMetaType : Type :=
| mkEnumInputMetaType (kind : EnumInputKind) (name : string)
                      (fields : option (list (string * EnumInputMetaType))).

Definition EnumInputMetadata : Type := JsMap.t EnumInputMetaType.

Definition metaFields (mt : EnumInputMetaType) : option (JsMap.t EnumInputMetaType) :=
  match mt with mkEnumInputMetaType _ _ fields => fields end.

(** [metaType?.fields?.get(k)] *)
Definition metaFieldOf (metaType : option EnumInputMetaType) (k : string)
  : option EnumInputMetaType :=
  match metaType with
  | Some mt =>
      match metaFields mt with
      | Some fs => JsMap.get k fs
      | None => None
      end
  | None => None
  end.

(* ------------------------------------------------------------------ *)
(** ** [runtime/schema.ts] *)

Inductive SchemaTypeCategory : Type := OBJECT | EMBEDDED | CONNECTION | EDGE.
Inductive SchemaFieldCategory : Type := ID | SCALAR | REFERENCE | LIST | CONNECTION_FIELD.

Definition SchemaFieldCategory_eqb (a b : SchemaFieldCategory) : bool :=
  match a, b with
  | ID, ID | SCALAR, SCALAR | REFERENCE, REFERENCE | LIST, LIST
  | CONNECTION_FIELD, CONNECTION_FIELD => true
  | _, _ => false
  end.

Record SchemaField : Type := mkSchemaField {
  sf_name : string;
  sf_category : SchemaFieldCategory;
  argGraphQLTypeMap : JsMap.t string;
  targetTypeName : option string;
  connectionTypeName : option string;
  edgeTypeName : option string;
  isPlural : bool;
  isAssociation : bool;
  isFunction : bool;
  isUndefinable : bool
}.

(** The immutable part of a schema type object; its lazy [fields] cell is
    modelled by [fieldsGetter] below. *)
Inductive SchemaType : Type :=
| mkSchemaType (name : string) (category : SchemaTypeCategory)
               (interfaces : list SchemaType)
               (ownFields : JsMap.t SchemaField).

Definition st_name (t : SchemaType) : string :=
  match t with mkSchemaType n _ _ _ => n end.
Definition st_category (t : SchemaType) : SchemaTypeCategory :=
  match t with mkSchemaType _ c _ _ => c end.
Definition st_interfaces (t : SchemaType) : list SchemaType :=
  match t with mkSchemaType _ _ i _ => i end.
Definition st_ownFields (t : SchemaType) : JsMap.t SchemaField :=
  match t with mkSchemaType _ _ _ f => f end.

(** The descriptor a field is declared with: a bare name or an object. *)
Inductive FieldDescriptor : Type :=
| FdName (name : string)
| FdObject (name : string) (category : SchemaFieldCategory)
           (undefinable : option bool)
           (argGraphQLTypeMap : option (list (string * string)))
           (targetTypeName connectionTypeName edgeTypeName : option string).

Definition isSome {A : Type} (o : option A) : bool :=
  match o with Some _ => true | None => false end.

Definition buildField (name : string) (category : SchemaFieldCategory)
    (argGraphQLTypeMap : JsMap.t string)
    (targetTypeName connectionTypeName edgeTypeName : option string)
    (undefinable : option bool) : SchemaField :=
  let isPlural :=
    SchemaFieldCategory_eqb category LIST || SchemaFieldCategory_eqb category CONNECTION_FIELD in
  let isAssociation := SchemaFieldCategory_eqb category REFERENCE || isPlural in
  mkSchemaField name category argGraphQLTypeMap targetTypeName connectionTypeName edgeTypeName
    isPlural isAssociation
    (negb (JsMap.size argGraphQLTypeMap =? 0)%nat || isAssociation || isSome targetTypeName)
    (match undefinable with Some b => b | None => false end).

(** The loop of [createSchemaType] filling [declaredFieldMap]. *)
Definition declareField (m : JsMap.t SchemaField) (desc : FieldDescriptor) : JsMap.t SchemaField :=
  match desc with
  | FdName name => JsMap.set name (buildField name SCALAR JsMap.empty None None None None) m
  | FdObject name category undefinable argTypes target connection edge =>
      let argMap :=
        match argTypes with
        | Some kvs => fold_left (fun am kv => JsMap.set (fst kv) (snd kv) am) kvs JsMap.empty
        | None => JsMap.empty
        end in
      JsMap.set name (buildField name category argMap target connection edge undefinable) m
  end.

Definition categoryName (c : SchemaTypeCategory) : string :=
  match c with
  | OBJECT => "OBJECT" | EMBEDDED => "EMBEDDED" | CONNECTION => "CONNECTION" | EDGE => "EDGE"
  end.

(** [validateType]: [None] when the shape rules hold, else the error. *)
Definition validateType (name : string) (category : SchemaTypeCategory)
    (declaredFields : JsMap.t SchemaField) (superTypes : list SchemaType) : option Exn :=
  let q := Str.DQUOTE in
  let shape :=
    match category with
    | CONNECTION =>
        match JsMap.get "edges" declaredFields with
        | None => Some (Error ("Type " ++ q ++ name ++ q ++ ": CONNECTION must have an "
                               ++ q ++ "edges" ++ q ++ " field"))
        | Some edges =>
            if negb (SchemaFieldCategory_eqb (sf_category edges) LIST)
            then Some (Error ("Type " ++ q ++ name ++ q ++ ": CONNECTION "
                              ++ q ++ "edges" ++ q ++ " must be LIST"))
            else None
        end
    | EDGE =>
        match JsMap.get "node" declaredFields with
        | None => Some (Error ("Type " ++ q ++ name ++ q ++ ": EDGE must have a "
                               ++ q ++ "node" ++ q ++ " field"))
        | Some node =>
            if negb (SchemaFieldCategory_eqb (sf_category node) REFERENCE)
            then Some (Error ("Type " ++ q ++ name ++ q ++ ": EDGE "
                              ++ q ++ "node" ++ q ++ " must be REFERENCE"))
            else
              match JsMap.get "cursor" declaredFields with
              | Some cursor =>
                  if negb (SchemaFieldCategory_eqb (sf_category cursor) SCALAR)
                  then Some (Error ("Type " ++ q ++ name ++ q ++ ": EDGE "
                                    ++ q ++ "cursor" ++ q ++ " must be SCALAR"))
                  else None
              | None => None
              end
        end
    | _ => None
    end in
  match shape with
  | Some e => Some e
  | None =>
      match category, superTypes with
      | (CONNECTION | EDGE), _ :: _ =>
          Some (Error ("Type " ++ q ++ name ++ q ++ ": " ++ categoryName category
                       ++ " cannot have super types"))
      | _, _ => None
      end
  end.

(** [_collect(type, out)] *)
Fixpoint _collect (type : SchemaType) (out : JsMap.t SchemaField) : JsMap.t SchemaField :=
  match type with
  | mkSchemaType _ _ interfaces ownFields =>
      let out1 := fold_left (fun o nf => JsMap.set (fst nf) (snd nf) o) ownFields out in
      (fix supers (l : list SchemaType) (o : JsMap.t SchemaField) : JsMap.t SchemaField :=
         match l with
         | [] => o
         | superType :: r => supers r (_collect superType o)
         end) interfaces out1
  end.

Definition collectFields (type : SchemaType) : JsMap.t SchemaField :=
  _collect type JsMap.empty.

(** The getter [get fields()] of the object [createSchemaType] returns.
    [_fields] is the closure variable caching the merged table; the result
    is the table returned and the new content of [_fields]. *)
Definition fieldsGetter (type : SchemaType) (_fields : option (JsMap.t SchemaField))
  : JsMap.t SchemaField * option (JsMap.t SchemaField) :=
  match _fields with
  | Some m => (m, _fields)
  | None =>
      let m := match st_interfaces type with
               | [] => st_ownFields type
               | _ :: _ => collectFields type
               end in
      (m, Some m)
  end.

(** What [type.fields] evaluates to, whatever the state of the cell. *)
Definition st_fields (type : SchemaType) : JsMap.t SchemaField :=
  fst (fieldsGetter type None).

(* ------------------------------------------------------------------ *)
(** ** [runtime/field-options.ts] *)

Record FieldOptionsValue : Type := mkFieldOptionsValue {
  alias : option string;
  directives : JsMap.t DirectiveArgs
}.

(** The chain a field-options callback builds. *)
Inductive FieldOptions : Type :=
| FoNew
| FoAlias (_prev : FieldOptions) (_alias : string)
| FoDirective (_prev : FieldOptions) (_directive : string) (_directiveArgs : option Args).

(** [options.directive(name, args)] *)
Definition FieldOptions_directive (this : FieldOptions) (directive : string)
    (args : option Args) : Exn + FieldOptions :=
  if Str.startsWith directive "@"
  then inl (Error "directive name should not start with '@', it will be prepended automatically")
  else inr (FoDirective this directive args).

(** [_buildValue()]: newest first, the first alias and the first
    occurrence of each directive win. *)
Fixpoint FieldOptions_buildValue (node : FieldOptions) (alias : option string)
    (directives : JsMap.t DirectiveArgs) : FieldOptionsValue :=
  match node with
  | FoNew => mkFieldOptionsValue alias directives
  | FoAlias prev a =>
      FieldOptions_buildValue prev (match alias with None => Some a | Some _ => alias end)
                              directives
  | FoDirective prev d args =>
      let directives' :=
        if JsMap.has d directives then directives
        else JsMap.set d (match args with
                          | Some (_ :: _) => args
                          | _ => None
                          end) directives in
      FieldOptions_buildValue prev alias directives'
  end.

Definition FieldOptions_value (this : FieldOptions) : FieldOptionsValue :=
  FieldOptions_buildValue this None JsMap.empty.

(* ------------------------------------------------------------------ *)
(** ** The heap of selection nodes ([runtime/selection.ts], [runtime/types.ts]) *)

Definition loc : Type := nat.

(** A reference to a selection as user code holds it: the raw node, or one
    of the [Proxy] objects wrapped around it. Two proxies of one node are
    different objects. *)
Inductive SelRef : Type :=
| RawRef (target : loc)
| ProxyRef (pid : nat) (target : loc).

Definition targetOf (r : SelRef) : loc :=
  match r with RawRef l => l | ProxyRef _ l => l end.

(** [a === b] on references. *)
Definition SelRef_eqb (a b : SelRef) : bool :=
  match a, b with
  | RawRef l, RawRef l' => Nat.eqb l l'
  | ProxyRef p l, ProxyRef p' l' => Nat.eqb p p' && Nat.eqb l l'
  | _, _ => false
  end.

Inductive Ctx : Type :=
| CtxRoot (schemaType : SchemaType) (enumInputMetadata : EnumInputMetadata)
          (unionItemTypes : option (list string))
| CtxPrev (prev : loc).

Record FieldSelection : Type := mkFieldSelection {
  fs_name : string;
  argGraphQLTypes : option (JsMap.t string);
  fs_args : option Args;
  fieldOptionsValue : option FieldOptionsValue;
  plural : bool;
  childSelections : option (list (option SelRef))
}.

Record SerializedResult : Type := mkSerializedResult {
  sr_text : string;
  sr_fragmentText : string;
  sr_variableTypeMap : JsMap.t string
}.

(** The constructor arguments of a node: what [new SelectionImpl(...)]
    stores in its [readonly] fields. *)
Record Payload : Type := mkPayload {
  _ctx : Ctx;
  _negative : bool;
  _field : string;
  _args : option Args;
  _child : option SelRef;
  _fieldOptionsValue : option FieldOptionsValue;
  _directive : option string;
  _directiveArgs : DirectiveArgs
}.

(** A node object: the payload and the three memo cells. *)
Record SelectionImpl : Type := mkSelectionImpl {
  payload : Payload;
  _fieldMap : option (JsMap.t FieldSelection);
  _directiveMap : option (JsMap.t DirectiveArgs);
  _result : option SerializedResult
}.

Definition Heap : Type := list SelectionImpl.

(** The process: the node heap, the proxy allocator, the schema registry
    of [schema.ts] and the console. *)
Record World : Type := mkWorld {
  heap : Heap;
  nextProxy : nat;
  SCHEMA_TYPE_REGISTRY : JsMap.t SchemaType;
  SCHEMA_TYPE_FACTORY_REGISTRY : JsMap.t (unit -> SchemaType);
  SCHEMA_TYPE_RESOLVING : list string;
  console : list string
}.

Definition emptyWorld : World := mkWorld [] 0 JsMap.empty JsMap.empty [] [].

Definition withHeap (h : Heap) (w : World) : World :=
  mkWorld h (nextProxy w) (SCHEMA_TYPE_REGISTRY w) (SCHEMA_TYPE_FACTORY_REGISTRY w)
          (SCHEMA_TYPE_RESOLVING w) (console w).

Definition withRegistry (r : JsMap.t SchemaType) (w : World) : World :=
  mkWorld (heap w) (nextProxy w) r (SCHEMA_TYPE_FACTORY_REGISTRY w)
          (SCHEMA_TYPE_RESOLVING w) (console w).

Definition withResolving (r : list string) (w : World) : World :=
  mkWorld (heap w) (nextProxy w) (SCHEMA_TYPE_REGISTRY w) (SCHEMA_TYPE_FACTORY_REGISTRY w)
          r (console w).

(** [console.warn(msg)] *)
Definition console_warn (msg : string) (w : World) : World :=
  mkWorld (heap w) (nextProxy w) (SCHEMA_TYPE_REGISTRY w) (SCHEMA_TYPE_FACTORY_REGISTRY w)
          (SCHEMA_TYPE_RESOLVING w) (console w ++ [msg]).

(** [new Proxy(node, handler)] *)
Definition newProxy (l : loc) : M World SelRef :=
  fun w =>
    (Ok (ProxyRef (nextProxy w) l),
     mkWorld (heap w) (S (nextProxy w)) (SCHEMA_TYPE_REGISTRY w)
             (SCHEMA_TYPE_FACTORY_REGISTRY w) (SCHEMA_TYPE_RESOLVING w) (console w)).

(** [new SelectionImpl(...)]: the node gets the next free location. *)
Definition newSelectionImpl (p : Payload) : M World loc :=
  fun w =>
    (Ok (List.length (heap w)),
     withHeap (heap w ++ [mkSelectionImpl p None None None]) w).

(** Reading the payload of a node. A location outside the heap is outside
    the model. *)
Definition payloadAt (h : Heap) (l : loc) : option Payload :=
  option_map payload (nth_error h l).

Fixpoint replaceNth {A : Type} (n : nat) (x : A) (l : list A) : list A :=
  match l, n with
  | [], _ => []
  | _ :: r, O => x :: r
  | y :: r, S n' => y :: replaceNth n' x r
  end.

(** ** Schema registry *)

Definition registerSchemaType (type : SchemaType) (w : World) : World :=
  match JsMap.get (st_name type) (SCHEMA_TYPE_REGISTRY w) with
  | None => withRegistry (JsMap.set (st_name type) type (SCHEMA_TYPE_REGISTRY w)) w
  | Some existing =>
      if (JsMap.size (st_ownFields existing) <? JsMap.size (st_ownFields type))%nat
      then withRegistry (JsMap.set (st_name type) type (SCHEMA_TYPE_REGISTRY w)) w
      else w
  end.

(** [resolveRegisteredSchemaType(typeName)]. A factory is a thunk that
    yields the type; the registration it triggers is the one written here. *)
Definition resolveRegisteredSchemaType (typeName : string) : M World (option SchemaType) :=
  fun w =>
    match JsMap.get typeName (SCHEMA_TYPE_REGISTRY w) with
    | Some registered => (Ok (Some registered), w)
    | None =>
        match JsMap.get typeName (SCHEMA_TYPE_FACTORY_REGISTRY w) with
        | None => (Ok None, w)
        | Some factory =>
            if existsb (String.eqb typeName) (SCHEMA_TYPE_RESOLVING w)
            then (Throw (Error ("Circular schema factory resolution detected for "
                                ++ Str.DQUOTE ++ typeName ++ Str.DQUOTE)), w)
            else
              let w1 := withResolving (SCHEMA_TYPE_RESOLVING w ++ [typeName]) w in
              let created := factory tt in
              let w2 := registerSchemaType created w1 in
              let w3 := withResolving
                          (List.filter (fun n => negb (String.eqb typeName n))
                                       (SCHEMA_TYPE_RESOLVING w2)) w2 in
              (Ok (JsMap.get typeName (SCHEMA_TYPE_REGISTRY w3)), w3)
        end
    end.

(** [createSchemaType(name, category, superTypes, declaredFields)] *)
Definition createSchemaType (name : string) (category : SchemaTypeCategory)
    (superTypes : list SchemaType) (declaredFields : list FieldDescriptor)
  : M World SchemaType :=
  let declaredFieldMap := fold_left declareField declaredFields JsMap.empty in
  match validateType name category declaredFieldMap superTypes with
  | Some e => throw e
  | None =>
      let result := mkSchemaType name category superTypes declaredFieldMap in
      modify (registerSchemaType result) ;;; ret result
  end.

Definition registerSchemaTypeFactory (typeName : string) (factory : unit -> SchemaType)
    (w : World) : World :=
  if JsMap.has typeName (SCHEMA_TYPE_FACTORY_REGISTRY w) then w
  else mkWorld (heap w) (nextProxy w) (SCHEMA_TYPE_REGISTRY w)
               (JsMap.set typeName factory (SCHEMA_TYPE_FACTORY_REGISTRY w))
               (SCHEMA_TYPE_RESOLVING w) (console w).

(** A read that leaves the model (a dangling location) diverges. *)
Definition liftOpt {S A : Type} (o : option A) : M S A :=
  match o with Some a => ret a | None => diverge end.

(** A pure step that may throw. *)
Definition liftE {S A : Type} (r : Exn + A) : M S A :=
  match r with inl e => throw e | inr a => ret a end.

(* ------------------------------------------------------------------ *)
(** ** [SelectionImpl]: accessors, builders and the two folds *)

(** The root tuple a node's [_ctx] chain ends in. In a heap built by the
    constructors a predecessor has a smaller location, so [S l] steps
    reach the root from [l]. *)
Fixpoint rootCtx (fuel : nat) (h : Heap) (l : loc)
  : option (SchemaType * EnumInputMetadata * option (list string)) :=
  match fuel with
  | O => None
  | S fuel' =>
      match payloadAt h l with
      | None => None
      | Some p =>
          match _ctx p with
          | CtxRoot st meta union => Some (st, meta, union)
          | CtxPrev prev => rootCtx fuel' h prev
          end
      end
  end.

Definition _schemaType (h : Heap) (this : loc) : option SchemaType :=
  option_map (fun r => fst (fst r)) (rootCtx (S this) h this).

Definition _enumInputMetadata (h : Heap) (this : loc) : option EnumInputMetadata :=
  option_map (fun r => snd (fst r)) (rootCtx (S this) h this).

Definition _unionItemTypes (h : Heap) (this : loc) : option (option (list string)) :=
  option_map (fun r => match snd r with
                       | Some (x :: xs) => Some (x :: xs)
                       | _ => None
                       end) (rootCtx (S this) h this).

Definition _prev (p : Payload) : option loc :=
  match _ctx p with CtxRoot _ _ _ => None | CtxPrev prev => Some prev end.

(** [get lastField()] *)
Definition lastField (h : Heap) (this : loc) : option string :=
  option_map _field (payloadAt h this).

(** [get schemaType()] *)
Definition schemaType (h : Heap) (this : loc) : option SchemaType := _schemaType h this.

(** *** Builders *)

Definition addField (this : loc) (field : string) (args : option Args)
    (child : option SelRef) (optionsValue : option FieldOptionsValue) : M World loc :=
  newSelectionImpl (mkPayload (CtxPrev this) false field args child optionsValue None None).

Definition removeField (this : loc) (field : string) : M World loc :=
  if String.eqb field "__typename" then throw (Error "__typename cannot be removed")
  else newSelectionImpl (mkPayload (CtxPrev this) true field None None None None None).

Definition addEmbeddable (this : loc) (child : SelRef) (fragmentName : option string)
  : M World loc :=
  fieldName <-
    match fragmentName with
    | Some fragmentName =>
        if (String.length fragmentName =? 0)%nat
        then throw (Error "fragmentName cannot be ''")
        else if Str.startsWith fragmentName "on "
        then throw (Error "fragmentName cannot start with 'on '")
        else ret ("... " ++ fragmentName)%string
    | None =>
        w <- getState ;;
        childType <- liftOpt (_schemaType (heap w) (targetOf child)) ;;
        thisType <- liftOpt (_schemaType (heap w) this) ;;
        childUnion <- liftOpt (_unionItemTypes (heap w) (targetOf child)) ;;
        if String.eqb (st_name childType) (st_name thisType) || isSome childUnion
        then ret "..."
        else ret ("... on " ++ st_name childType)%string
    end ;;
  newSelectionImpl (mkPayload (CtxPrev this) false fieldName None (Some child) None None None).

Definition addDirective (this : loc) (directive : string) (directiveArgs : DirectiveArgs)
  : M World loc :=
  newSelectionImpl (mkPayload (CtxPrev this) false "" None None None (Some directive) directiveArgs).

(** *** The field fold *)

(** The first loop of [_buildFieldMap]: the nodes of the chain, newest
    first, without those whose [_field] is empty. *)
Fixpoint chainNodes (fuel : nat) (h : Heap) (l : loc) : option (list loc) :=
  match fuel with
  | O => None
  | S fuel' =>
      match payloadAt h l with
      | None => None
      | Some p =>
          match
            match _ctx p with
            | CtxRoot _ _ _ => Some []
            | CtxPrev prev => chainNodes fuel' h prev
            end
          with
          | None => None
          | Some rest => Some (if String.eqb (_field p) "" then rest else l :: rest)
          end
      end
  end.

(** [n._fieldOptionsValue?.alias ?? n._field] *)
Definition keyOf (p : Payload) : string :=
  match _fieldOptionsValue p with
  | Some o => match alias o with Some a => a | None => _field p end
  | None => _field p
  end.

(** The descriptor an add node contributes. *)
Definition entryOf (st : SchemaType) (p : Payload) : FieldSelection :=
  mkFieldSelection (_field p)
    (option_map argGraphQLTypeMap (JsMap.get (_field p) (st_fields st)))
    (_args p)
    (_fieldOptionsValue p)
    (match JsMap.get (_field p) (st_fields st) with Some f => isPlural f | None => false end)
    (match _child p with Some c => Some [Some c] | None => None end).

(** The body of the second loop of [_buildFieldMap] for node [n]. *)
Definition foldNode (h : Heap) (map : option (JsMap.t FieldSelection)) (n : loc)
  : option (JsMap.t FieldSelection) :=
  match map, payloadAt h n, _schemaType h n with
  | Some map, Some p, Some st =>
      let key := keyOf p in
      if Str.startsWith (_field p) "..." then
        match
          match JsMap.get key map with
          | Some e => childSelections e
          | None => None
          end
        with
        | Some children =>
            match JsMap.get key map with
            | Some e =>
                Some (JsMap.set key
                        (mkFieldSelection (fs_name e) (argGraphQLTypes e) (fs_args e)
                           (fieldOptionsValue e) (plural e) (Some (children ++ [_child p])))
                        map)
            | None => None
            end
        | None =>
            Some (JsMap.set key
                    (mkFieldSelection (_field p) None None None false (Some [_child p])) map)
        end
      else if _negative p then Some (JsMap.delete key map)
      else Some (JsMap.set key (entryOf st p) map)
  | _, _, _ => None
  end.

Definition _buildFieldMap (h : Heap) (this : loc) : option (JsMap.t FieldSelection) :=
  match chainNodes (S this) h this with
  | None => None
  | Some nodes => fold_left (foldNode h) (List.rev nodes) (Some JsMap.empty)
  end.

(** *** The directive fold *)

Fixpoint directiveWalk (fuel : nat) (h : Heap) (l : loc) (map : JsMap.t DirectiveArgs)
  : option (JsMap.t DirectiveArgs) :=
  match fuel with
  | O => None
  | S fuel' =>
      match payloadAt h l with
      | None => None
      | Some p =>
          let map' :=
            match _directive p with
            | Some d => if JsMap.has d map then map else JsMap.set d (_directiveArgs p) map
            | None => map
            end in
          match _ctx p with
          | CtxRoot _ _ _ => Some map'
          | CtxPrev prev => directiveWalk fuel' h prev map'
          end
      end
  end.

Definition _buildDirectiveMap (h : Heap) (this : loc) : option (JsMap.t DirectiveArgs) :=
  directiveWalk (S this) h this JsMap.empty.

(** *** The memoizing getters *)

Definition setFieldMapCell (l : loc) (m : JsMap.t FieldSelection) (h : Heap) : Heap :=
  match nth_error h l with
  | Some n => replaceNth l (mkSelectionImpl (payload n) (Some m) (_directiveMap n) (_result n)) h
  | None => h
  end.

Definition setDirectiveMapCell (l : loc) (m : JsMap.t DirectiveArgs) (h : Heap) : Heap :=
  match nth_error h l with
  | Some n => replaceNth l (mkSelectionImpl (payload n) (_fieldMap n) (Some m) (_result n)) h
  | None => h
  end.

Definition setResultCell (l : loc) (r : SerializedResult) (h : Heap) : Heap :=
  match nth_error h l with
  | Some n => replaceNth l (mkSelectionImpl (payload n) (_fieldMap n) (_directiveMap n) (Some r)) h
  | None => h
  end.

(** [get fieldMap()]: [this._fieldMap ??= this._buildFieldMap()] *)
Definition fieldMap (this : loc) : M World (JsMap.t FieldSelection) :=
  fun w =>
    match nth_error (heap w) this with
    | None => (Diverge, w)
    | Some n =>
        match _fieldMap n with
        | Some m => (Ok m, w)
        | None =>
            match _buildFieldMap (heap w) this with
            | Some m => (Ok m, withHeap (setFieldMapCell this m (heap w)) w)
            | None => (Diverge, w)
            end
        end
    end.

(** [get directiveMap()]: [this._directiveMap ??= this._buildDirectiveMap()] *)
Definition directiveMap (this : loc) : M World (JsMap.t DirectiveArgs) :=
  fun w =>
    match nth_error (heap w) this with
    | None => (Diverge, w)
    | Some n =>
        match _directiveMap n with
        | Some m => (Ok m, w)
        | None =>
            match _buildDirectiveMap (heap w) this with
            | Some m => (Ok m, withHeap (setDirectiveMapCell this m (heap w)) w)
            | None => (Diverge, w)
            end
        end
    end.

(* ------------------------------------------------------------------ *)
(** ** Serialization ([serialize] and [SerializeContext]) *)

(** The objects of one [serialize] call: the two text builders, which of
    them the current [SerializeContext] writes to, the context's own
    [namedFragmentMap], and the [variableTypeMap] all contexts share. *)
Record SerState : Type := mkSerState {
  world : World;
  writer : TextBuilder.t;
  fragmentWriter : TextBuilder.t;
  onFragmentWriter : bool;
  namedFragmentMap : JsMap.t (option SelRef);
  variableTypeMap : JsMap.t string
}.

Definition liftW {A : Type} (m : M World A) : M SerState A :=
  fun s =>
    let (o, w') := m (world s) in
    (o, mkSerState w' (writer s) (fragmentWriter s) (onFragmentWriter s)
                   (namedFragmentMap s) (variableTypeMap s)).

(** [this.writer] of the current context. *)
Definition ctxWriter (s : SerState) : TextBuilder.t :=
  if onFragmentWriter s then fragmentWriter s else writer s.

Definition setCtxWriter (tb : TextBuilder.t) (s : SerState) : SerState :=
  if onFragmentWriter s
  then mkSerState (world s) (writer s) tb true (namedFragmentMap s) (variableTypeMap s)
  else mkSerState (world s) tb (fragmentWriter s) false (namedFragmentMap s) (variableTypeMap s).

Definition onWriter (f : TextBuilder.t -> TextBuilder.t) (s : SerState) : SerState :=
  setCtxWriter (f (ctxWriter s)) s.

(** [this.writer.text(value)] *)
Definition t (value : string) : M SerState unit :=
  modify (onWriter (TextBuilder.text value)).

(** [this.writer.separator(value?)] *)
Definition separator (value : option string) : M SerState unit :=
  fun s =>
    match TextBuilder.separator value (ctxWriter s) with
    | Some tb => (Ok tt, setCtxWriter tb s)
    | None => (Throw (Error "No existing scope"), s)
    end.

(** [this.writer.scope(options, action)] *)
Definition scope (options : TextBuilder.ScopeOptions) (action : M SerState unit)
  : M SerState unit :=
  modify (onWriter (TextBuilder.scopeEnter options)) ;;;
  finally action (onWriter (TextBuilder.scopeLeave options)).

Definition setVariableType (name ty : string) (s : SerState) : SerState :=
  mkSerState (world s) (writer s) (fragmentWriter s) (onFragmentWriter s)
             (namedFragmentMap s) (JsMap.set name ty (variableTypeMap s)).

Definition setNamedFragment (name : string) (c : option SelRef) (s : SerState) : SerState :=
  mkSerState (world s) (writer s) (fragmentWriter s) (onFragmentWriter s)
             (JsMap.set name c (namedFragmentMap s)) (variableTypeMap s).

Definition warn (msg : string) : M SerState unit :=
  liftW (modify (console_warn msg)).

(** [SerializeContext.enumMetaType(meta, typeName)] *)
Definition enumMetaType (meta : option EnumInputMetadata) (typeName : option string)
  : option EnumInputMetaType :=
  match meta, typeName with
  | Some meta, Some typeName =>
      if Str.truthy typeName then JsMap.get (Str.stripTypeMarks typeName) meta else None
  | _, _ => None
  end.

(** The non-composite cases of [acceptLiteral]. *)
Definition literalText (value : JsValue) (metaType : option EnumInputMetaType) : string :=
  match value with
  | JNumber n => Str.numberToString n
  | JString s => match metaType with Some _ => s | None => Str.JSON_stringify s end
  | JBool b => if b then "true" else "false"
  | JStringValue v q => if q then Str.JSON_stringify v else v
  | _ => "null"
  end.

(** [acceptLiteral(value, metaType)] *)
Fixpoint acceptLiteral (value : JsValue) (metaType : option EnumInputMetaType) {struct value}
  : M SerState unit :=
  match value with
  | JUndefined | JNull => t "null"
  | JNumber _ | JString _ | JBool _ | JStringValue _ _ => t (literalText value metaType)
  | JArray elems | JSet elems =>
      scope (TextBuilder.opts TextBuilder.array)
        ((fix each (es : list JsValue) : M SerState unit :=
            match es with
            | [] => ret tt
            | e :: r =>
                (separator (Some ", ") ;;; acceptLiteral e metaType) ;;; each r
            end) elems)
  | JMap entries | JObject entries =>
      scope (TextBuilder.opts TextBuilder.block)
        ((fix each (kvs : list (string * JsValue)) : M SerState unit :=
            match kvs with
            | [] => ret tt
            | (k, v) :: r =>
                (separator (Some ", ") ;;; t k ;;; t ": " ;;;
                 acceptLiteral v (metaFieldOf metaType k)) ;;;
                each r
            end) entries)
  | JParameterRef name ty =>
      scope (TextBuilder.opts TextBuilder.block)
        (forEach (ParameterRef.props name ty) (fun kv =>
           separator (Some ", ") ;;; t (fst kv) ;;; t ": " ;;;
           t (literalText (snd kv) (metaFieldOf metaType (fst kv)))))
  end.

(** The first loop of [acceptArgs]: is some key of the bundle declared?
    Every undeclared key met before the first declared one is logged. *)
Fixpoint hasFieldLoop (argGraphQLTypeMap : JsMap.t string) (argNames : list string)
  : M SerState bool :=
  match argNames with
  | [] => ret false
  | argName :: r =>
      match JsMap.get argName argGraphQLTypeMap with
      | Some _ => ret true
      | None =>
          warn ("Unexpected argument: " ++ argName) ;;;
          hasFieldLoop argGraphQLTypeMap r
      end
  end.

Definition optTruthy (o : option string) : bool :=
  match o with Some s => Str.truthy s | None => false end.

(** The body of the second loop of [acceptArgs] for one entry. *)
Definition acceptArg (argGraphQLTypeMap : option (JsMap.t string))
    (enumInputMetadata : option EnumInputMetadata) (entry : string * JsValue)
  : M SerState unit :=
  let argName := fst entry in
  let arg := snd entry in
  separator None ;;;
  match argGraphQLTypeMap with
  | Some tm =>
      match JsMap.get argName tm with
      | Some typeName =>
          isRef <- liftE (instanceOfParameterRef arg) ;;
          match isRef, arg with
          | true, JParameterRef refName refType =>
              match refType with
              | Some rt =>
                  if Str.truthy rt && negb (String.eqb rt typeName)
                  then throw (Error ("Argument '" ++ refName ++ "' type conflict: '"
                                     ++ typeName ++ "' vs ParameterRef '" ++ rt ++ "'"))
                  else ret tt
              | None => ret tt
              end ;;;
              s <- getState ;;
              match JsMap.get refName (variableTypeMap s) with
              | Some existing =>
                  if Str.truthy existing && negb (String.eqb existing typeName)
                  then throw (Error ("Argument '" ++ refName ++ "' type conflict: '"
                                     ++ existing ++ "' vs '" ++ typeName ++ "'"))
                  else ret tt
              | None => ret tt
              end ;;;
              modify (setVariableType refName typeName) ;;;
              t (argName ++ ": $" ++ refName)
          | _, _ =>
              t (argName ++ ": ") ;;;
              acceptLiteral arg (enumMetaType enumInputMetadata (Some typeName))
          end
      | None => throw (Error ("Unknown argument '" ++ argName ++ "'"))
      end
  | None =>
      isRef <- liftE (instanceOfParameterRef arg) ;;
      match isRef, arg with
      | true, JParameterRef refName refType =>
          match refType with
          | Some rt =>
              if Str.truthy rt
              then modify (setVariableType refName rt) ;;; t (argName ++ ": $" ++ refName)
              else throw (Error ("Directive argument '" ++ refName
                                 ++ "' requires graphqlTypeName"))
          | None => throw (Error ("Directive argument '" ++ refName
                                  ++ "' requires graphqlTypeName"))
          end
      | _, _ =>
          t (argName ++ ": ") ;;; acceptLiteral arg None
      end
  end.

(** [acceptArgs(args?, argGraphQLTypeMap?, enumInputMetadata?)] *)
Definition acceptArgs (args : option Args) (argGraphQLTypeMap : option (JsMap.t string))
    (enumInputMetadata : option EnumInputMetadata) : M SerState unit :=
  match args with
  | None => ret tt
  | Some args =>
      hasField <-
        match argGraphQLTypeMap with
        | Some tm => hasFieldLoop tm (List.map fst args)
        | None => ret (negb (List.length args =? 0)%nat)
        end ;;
      if hasField : bool then
        ml <- liftE (isMultiLineJSON (JObject args)) ;;
        scope (TextBuilder.optsML TextBuilder.arguments ml)
              (forEach args (acceptArg argGraphQLTypeMap enumInputMetadata))
      else ret tt
  end.

(** [acceptDirectives(directives?)] *)
Definition acceptDirectives (directives : option (JsMap.t DirectiveArgs)) : M SerState unit :=
  match directives with
  | None => ret tt
  | Some ds =>
      forEach ds (fun da =>
        t (Str.LF ++ "@" ++ fst da) ;;; acceptArgs (snd da) None None)
  end.

(** The named-spread branch of [acceptSelection]: [old] is read once,
    before the loop over the children. *)
Definition registerFragment (fragName : string) (old : option (option SelRef))
    (c : option SelRef) : M SerState unit :=
  match old with
  | Some (Some o) =>
      if match c with Some c' => negb (SelRef_eqb o c') | None => true end
      then throw (Error ("Conflict fragment name " ++ fragName))
      else modify (setNamedFragment fragName c)
  | _ => modify (setNamedFragment fragName c)
  end.

(** [acceptSelection(sel)]. The recursion follows child selections, which
    are nodes allocated before their parent; [fuel] bounds the nesting. *)
Fixpoint acceptSelection (fuel : nat) (sel : option SelRef) : M SerState unit :=
  match fuel with
  | O => diverge
  | S fuel' =>
      match sel with
      | None => throw (TypeError "Cannot read properties of undefined")
      | Some r =>
          fm <- liftW (fieldMap (targetOf r)) ;;
          forEach (JsMap.values fm) (fun field =>
            let name := fs_name field in
            (if negb (String.eqb name "...") then
               match fieldOptionsValue field with
               | Some o =>
                   match alias o with
                   | Some a =>
                       if Str.truthy a && negb (String.eqb a name)
                       then t (a ++ ": ") else ret tt
                   | None => ret tt
                   end
               | None => ret tt
               end ;;;
               t name ;;;
               match argGraphQLTypes field with
               | Some tm =>
                   w <- getState ;;
                   meta <- liftOpt (_enumInputMetadata (heap (world w)) (targetOf r)) ;;
                   acceptArgs (fs_args field) (Some tm) (Some meta)
               | None => ret tt
               end ;;;
               acceptDirectives (option_map directives (fieldOptionsValue field))
             else ret tt) ;;;
            match childSelections field with
            | Some (c0 :: cs) =>
                let children := c0 :: cs in
                if String.eqb name "..." then
                  forEach children (acceptSelection fuel')
                else if Str.startsWith name "..." && negb (Str.startsWith name "... on ") then
                  let fragName := Str.trim (Str.substringFrom 3 name) in
                  s <- getState ;;
                  let old := JsMap.get fragName (namedFragmentMap s) in
                  forEach children (registerFragment fragName old)
                else
                  t " " ;;;
                  scope (TextBuilder.optsML TextBuilder.block true)
                        (forEach children (acceptSelection fuel'))
            | _ => ret tt
            end ;;;
            t Str.LF)
      end
  end.

(** [ctx = new SerializeContext(fragmentWriter, ctx)]: a fresh
    [namedFragmentMap], the shared [variableTypeMap]. *)
Definition newFragmentContext (s : SerState) : SerState :=
  mkSerState (world s) (writer s) (fragmentWriter s) true JsMap.empty (variableTypeMap s).

(** [set.add(x)] returns the set itself, an object: as a condition it
    holds whether or not [x] was already a member. *)
Definition Set_add (x : string) (set : list string) : bool * list string :=
  (true, if existsb (String.eqb x) set then set else set ++ [x]).

(** The [for] loop of one drain round of [serialize]. *)
Fixpoint renderFragments (fuel : nat) (fragmentMap : list (string * option SelRef))
    (renderedFragments : list string) : M SerState (list string) :=
  match fragmentMap with
  | [] => ret renderedFragments
  | (name, fragment) :: rest =>
      let (added, renderedFragments') := Set_add name renderedFragments in
      (if added then
         match fragment with
         | None => throw (TypeError "Cannot read properties of undefined (reading 'schemaType')")
         | Some f =>
             w <- getState ;;
             st <- liftOpt (schemaType (heap (world w)) (targetOf f)) ;;
             t ("fragment " ++ name ++ " on " ++ st_name st ++ " ") ;;;
             dm <- liftW (directiveMap (targetOf f)) ;;
             acceptDirectives (Some dm) ;;;
             scope (TextBuilder.optsMLSuffix TextBuilder.block true Str.LF)
                   (acceptSelection fuel (Some f))
         end
       else ret tt) ;;;
      renderFragments fuel rest renderedFragments'
  end.

(** The [while (true)] loop of [serialize]. *)
Fixpoint drain (rounds : nat) (fuel : nat) (renderedFragments : list string)
  : M SerState unit :=
  match rounds with
  | O => diverge
  | S rounds' =>
      s <- getState ;;
      let fragmentMap := namedFragmentMap s in
      if (JsMap.size fragmentMap =? 0)%nat then ret tt
      else
        modify newFragmentContext ;;;
        renderedFragments' <- renderFragments fuel fragmentMap renderedFragments ;;
        drain rounds' fuel renderedFragments'
  end.

Definition newSerState (w : World) : SerState :=
  mkSerState w TextBuilder.new TextBuilder.new false JsMap.empty JsMap.empty.

(** [serialize(root)]. No node is allocated while serializing, so the
    heap size bounds both the nesting and the number of drain rounds. *)
Definition serialize (root : loc) : M World SerializedResult :=
  fun w =>
    let fuel := List.length (heap w) in
    let body : M SerState unit :=
      dm <- liftW (directiveMap root) ;;
      acceptDirectives (Some dm) ;;;
      scope (TextBuilder.optsMLSuffix TextBuilder.block true Str.LF)
            (acceptSelection fuel (Some (RawRef root))) ;;;
      drain (S fuel) fuel [] in
    match body (newSerState w) with
    | (Ok _, s) =>
        (Ok (mkSerializedResult (TextBuilder.toString (writer s))
                                (TextBuilder.toString (fragmentWriter s))
                                (variableTypeMap s)),
         world s)
    | (Throw e, s) => (Throw e, world s)
    | (Diverge, s) => (Diverge, world s)
    end.

(** [_serialize()]: [this._result ??= serialize(this)] *)
Definition _serialize (this : loc) : M World SerializedResult :=
  fun w =>
    match nth_error (heap w) this with
    | None => (Diverge, w)
    | Some n =>
        match _result n with
        | Some r => (Ok r, w)
        | None =>
            match serialize this w with
            | (Ok r, w') => (Ok r, withHeap (setResultCell this r (heap w')) w')
            | other => other
            end
        end
    end.

Definition toString (this : loc) : M World string :=
  r <- _serialize this ;; ret (sr_text r).

Definition toFragmentString (this : loc) : M World string :=
  r <- _serialize this ;; ret (sr_fragmentText r).

(** [get variableTypeMap()] of a node. *)
Definition variableTypeMapOf (this : loc) : M World (JsMap.t string) :=
  r <- _serialize this ;; ret (sr_variableTypeMap r).

(* ------------------------------------------------------------------ *)
(** ** [runtime/proxy.ts] *)

Definition rootPayload (schemaType : SchemaType) (enumInputMetadata : EnumInputMetadata)
    (unionEntityTypes : option (list string)) : Payload :=
  mkPayload (CtxRoot schemaType enumInputMetadata unionEntityTypes)
            false "" None None None None None.

(** [createSelection(schemaType, enumInputMetadata, unionEntityTypes)] *)
Definition createSelection (schemaType : SchemaType) (enumInputMetadata : EnumInputMetadata)
    (unionEntityTypes : option (list string)) : M World SelRef :=
  l <- newSelectionImpl (rootPayload schemaType enumInputMetadata unionEntityTypes) ;;
  newProxy l.

(** What reading property [p] off a selection proxy yields. *)
Inductive Member : Type :=
| MemSchemaType (st : SchemaType)
| MemCategory (c : SchemaTypeCategory)
| MemMethod (field : string)                      (* [new Proxy(DUMMY, methodHandler(target, handler, p))] *)
| MemAssociation (p : string) (field : SchemaField) (* the association closure *)
| MemSelection (s : SelRef)                       (* the extended selection *)
| MemReflect (p : string).                        (* [Reflect.get(target, p, target)] *)

Definition isBuiltin (p : string) : bool :=
  String.eqb p "$omit" || String.eqb p "$alias" || String.eqb p "$directive"
  || String.eqb p "$include" || String.eqb p "$skip".

(** The [get] trap of [proxyHandler(schemaType)]. *)
Definition proxyHandler_get (schemaType : SchemaType) (target : loc) (p : string)
  : M World Member :=
  if String.eqb p "schemaType" then ret (MemSchemaType schemaType)
  else if String.eqb p " $category" then ret (MemCategory (st_category schemaType))
  else if isBuiltin p then ret (MemMethod p)
  else if String.eqb p "$on" then ret (MemMethod p)
  else
    match JsMap.get p (st_fields schemaType) with
    | Some field =>
        if isAssociation field || isSome (targetTypeName field)
        then ret (MemAssociation p field)
        else if isFunction field then ret (MemMethod p)
        else l <- addField target p None None None ;;
             r <- newProxy l ;;
             ret (MemSelection r)
    | None => ret (MemReflect p)
    end.

(** The argument protocol types ending in ["!"], as a bundle of
    deferred-variable references named after the arguments. *)
Definition requiredArgNames (argMap : JsMap.t string) : list string :=
  List.map fst (List.filter (fun e => Str.endsWith (snd e) "!") argMap).

Definition autoParameterize (argMap : JsMap.t string) : option Args :=
  if negb (JsMap.size argMap =? 0)%nat then
    match requiredArgNames argMap with
    | [] => None
    | names =>
        Some (fold_left (fun args name => JsMap.set name (ParameterRef.of_ name) args)
                        names [])
    end
  else None.

(** The arguments an association member is called with. *)
Inductive AssocArg : Type :=
| AArgSelection (s : SelRef)
| AArgBuilder (f : SelRef -> M World (option SelRef))
| AArgBundle (args : Args)
| AArgUndefined.

Record AssocArgs : Type := mkAssocArgs {
  aa_args : option Args;
  aa_factory : option (SelRef -> M World (option SelRef));
  aa_child : option SelRef
}.

Definition scanAssocArg (acc : AssocArgs) (arg : AssocArg) : AssocArgs :=
  match arg with
  | AArgSelection s => mkAssocArgs (aa_args acc) (aa_factory acc) (Some s)
  | AArgBuilder f => mkAssocArgs (aa_args acc) (Some f) (aa_child acc)
  | AArgBundle a => mkAssocArgs (Some a) (aa_factory acc) (aa_child acc)
  | AArgUndefined => mkAssocArgs None (aa_factory acc) (aa_child acc)
  end.

(** The closure returned for an association field [p]. *)
Definition associationCall (schemaType : SchemaType) (target : loc) (p : string)
    (field : SchemaField) (argArray : list AssocArg) : M World SelRef :=
  let q := Str.DQUOTE in
  match TextBuilder.orElse (targetTypeName field) (connectionTypeName field) with
  | None => throw (Error ("Field " ++ q ++ p ++ q ++ " has no target type"))
  | Some targetTypeName =>
      if negb (Str.truthy targetTypeName)
      then throw (Error ("Field " ++ q ++ p ++ q ++ " has no target type"))
      else
        resolved <- resolveRegisteredSchemaType targetTypeName ;;
        match resolved with
        | None =>
            throw (Error ("Cannot resolve schema type " ++ q ++ targetTypeName ++ q
                          ++ " for field " ++ q ++ p ++ q ++ " on "
                          ++ q ++ st_name schemaType ++ q))
        | Some targetSchemaType =>
            let parsed := fold_left scanAssocArg argArray (mkAssocArgs None None None) in
            childSelection <-
              match aa_factory parsed with
              | Some factory =>
                  w <- getState ;;
                  meta <- liftOpt (_enumInputMetadata (heap w) target) ;;
                  fresh <- createSelection targetSchemaType meta None ;;
                  factory fresh
              | None => ret (aa_child parsed)
              end ;;
            match childSelection with
            | None => throw (Error ("Field " ++ q ++ p ++ q ++ " requires a child selection"))
            | Some child =>
                let args :=
                  match aa_args parsed with
                  | Some a => Some a
                  | None => autoParameterize (argGraphQLTypeMap field)
                  end in
                l <- addField target p args (Some child) None ;;
                newProxy l
            end
        end
  end.

(** [$on(child, fragmentName?)]: a selection, or a fragment spread object. *)
Inductive OnArg : Type :=
| OnSelection (child : SelRef) (fragmentName : option string)
| OnFragmentSpread (name : string) (selection : SelRef).

Definition method_on (targetSelection : loc) (arg : OnArg) : M World SelRef :=
  let childSelection :=
    match arg with OnSelection c _ => c | OnFragmentSpread _ s => s end in
  let fragmentName :=
    match arg with OnSelection _ n => n | OnFragmentSpread n _ => Some n end in
  w <- getState ;;
  thisType <- liftOpt (schemaType (heap w) targetSelection) ;;
  childType <- liftOpt (schemaType (heap w) (targetOf childSelection)) ;;
  parent <-
    (if negb (String.eqb (st_name thisType) (st_name childType))
     then addField targetSelection "__typename" None None None
     else ret targetSelection) ;;
  l <- addEmbeddable parent childSelection fragmentName ;;
  newProxy l.

(** [$omit(...fieldNames)] *)
Fixpoint omitLoop (current : loc) (argArray : list JsValue) : M World loc :=
  match argArray with
  | [] => ret current
  | JString fieldName :: r => next <- removeField current fieldName ;; omitLoop next r
  | _ :: r => omitLoop current r
  end.

Definition method_omit (targetSelection : loc) (argArray : list JsValue) : M World SelRef :=
  current <- omitLoop targetSelection argArray ;;
  newProxy current.

(** The re-add shared by [$alias], [$directive], [$include] and [$skip]. *)
Definition rebindLast (targetSelection : loc) (lastField : string)
    (optionsValue : FieldOptionsValue) : M World SelRef :=
  current <- removeField targetSelection lastField ;;
  current' <- addField current lastField None None (Some optionsValue) ;;
  newProxy current'.

(** [$alias(alias)] *)
Definition method_alias (targetSelection : loc) (alias : string) : M World SelRef :=
  w <- getState ;;
  lastField <- liftOpt (lastField (heap w) targetSelection) ;;
  if negb (Str.truthy lastField)
  then throw (Error "$alias requires a preceding field selection")
  else rebindLast targetSelection lastField (mkFieldOptionsValue (Some alias) JsMap.empty).

(** [$directive(directiveName, args?)] *)
Definition method_directive (targetSelection : loc) (directiveName : string)
    (args : DirectiveArgs) : M World SelRef :=
  w <- getState ;;
  lastField <- liftOpt (lastField (heap w) targetSelection) ;;
  if negb (Str.truthy lastField)
  then l <- addDirective targetSelection directiveName args ;; newProxy l
  else rebindLast targetSelection lastField
         (mkFieldOptionsValue None (JsMap.set directiveName args JsMap.empty)).

(** [$include(condition)] and [$skip(condition)] *)
Definition method_includeSkip (field : string) (targetSelection : loc) (condition : JsValue)
  : M World SelRef :=
  let directiveName := if String.eqb field "$include" then "include" else "skip" in
  method_directive targetSelection directiveName (Some [("if", condition)]).

(** The arguments a field method is called with. *)
Inductive MethodArg : Type :=
| MArgSelection (s : SelRef)
| MArgOptions (f : FieldOptions -> Exn + FieldOptions)
| MArgBundle (args : Args)
| MArgUndefined.

Record MethodArgs : Type := mkMethodArgs {
  ma_args : option Args;
  ma_child : option SelRef;
  ma_options : option FieldOptionsValue
}.

Fixpoint scanMethodArgs (argArray : list MethodArg) (acc : MethodArgs) : Exn + MethodArgs :=
  match argArray with
  | [] => inr acc
  | MArgSelection s :: r => scanMethodArgs r (mkMethodArgs (ma_args acc) (Some s) (ma_options acc))
  | MArgOptions f :: r =>
      match f FoNew with
      | inl e => inl e
      | inr fo =>
          scanMethodArgs r (mkMethodArgs (ma_args acc) (ma_child acc) (Some (FieldOptions_value fo)))
      end
  | MArgBundle a :: r => scanMethodArgs r (mkMethodArgs (Some a) (ma_child acc) (ma_options acc))
  | MArgUndefined :: r => scanMethodArgs r (mkMethodArgs None (ma_child acc) (ma_options acc))
  end.

(** The regular field method call of [methodHandler]. *)
Definition method_field (targetSelection : loc) (field : string) (argArray : list MethodArg)
  : M World SelRef :=
  parsed <- liftE (scanMethodArgs argArray (mkMethodArgs None None None)) ;;
  w <- getState ;;
  st <- liftOpt (schemaType (heap w) targetSelection) ;;
  let args :=
    match ma_args parsed with
    | Some a => Some a
    | None =>
        match JsMap.get field (st_ownFields st) with
        | Some f => autoParameterize (argGraphQLTypeMap f)
        | None => None
        end
    end in
  l <- addField targetSelection field args (ma_child parsed) (ma_options parsed) ;;
  newProxy l.

(** Property access on a selection reference as user code writes it:
    [sel.p] for a plain scalar field [p]. The handler of a proxy closes
    over the schema type of the root its chain starts from. Reading any
    other kind of member is not a use of this function. *)
Definition selectScalar (sel : SelRef) (p : string) : M World SelRef :=
  w <- getState ;;
  st <- liftOpt (schemaType (heap w) (targetOf sel)) ;;
  m <- proxyHandler_get st (targetOf sel) p ;;
  match m with
  | MemSelection s => ret s
  | _ => diverge
  end.

(** [sel.p(...argArray)] for an association field [p]. *)
Definition selectAssociation (sel : SelRef) (p : string) (argArray : list AssocArg)
  : M World SelRef :=
  w <- getState ;;
  st <- liftOpt (schemaType (heap w) (targetOf sel)) ;;
  m <- proxyHandler_get st (targetOf sel) p ;;
  match m with
  | MemAssociation p' field => associationCall st (targetOf sel) p' field argArray
  | _ => diverge
  end.

(* ------------------------------------------------------------------ *)
(** ** Vocabulary of the properties *)

(** A heap built by the constructors: a node's predecessor was allocated
    before the node. *)
Fixpoint wf_from (i : nat) (h : Heap) : bool :=
  match h with
  | [] => true
  | n :: r =>
      match _ctx (payload n) with
      | CtxPrev prev => (prev <? i)%nat
      | CtxRoot _ _ _ => true
      end && wf_from (S i) r
  end.

Definition wf_heap (h : Heap) : Prop := wf_from 0 h = true.

(** Sequences of [addField] / [removeField] calls on top of a node. *)
Inductive Op : Type :=
| OpAdd (field : string) (args : option Args) (child : option SelRef)
        (optionsValue : option FieldOptionsValue)
| OpRemove (field : string).

Definition applyOp (this : loc) (op : Op) : M World loc :=
  match op with
  | OpAdd field args child optionsValue => addField this field args child optionsValue
  | OpRemove field => removeField this field
  end.

Fixpoint applyOps (this : loc) (ops : list Op) : M World loc :=
  match ops with
  | [] => ret this
  | op :: r => next <- applyOp this op ;; applyOps next r
  end.

(** The field map of the node a sequence of operations ends in. *)
Definition fieldMapAfter (base : loc) (ops : list Op) : M World (JsMap.t FieldSelection) :=
  n <- applyOps base ops ;; fieldMap n.

(** The key an operation acts on: alias-or-name. *)
Definition opKey (op : Op) : string :=
  match op with
  | OpAdd field _ _ (Some o) => match alias o with Some a => a | None => field end
  | OpAdd field _ _ None => field
  | OpRemove field => field
  end.

Definition opField (op : Op) : string :=
  match op with OpAdd field _ _ _ => field | OpRemove field => field end.

Definition isAdd (op : Op) : bool :=
  match op with OpAdd _ _ _ _ => true | OpRemove _ => false end.

Definition touches (k : string) (op : Op) : bool := String.eqb (opKey op) k.

(** The surviving subsequence: for each key, the last add of that key not
    followed by a later remove of that key. *)
Fixpoint survivors (ops : list Op) : list Op :=
  match ops with
  | [] => []
  | op :: r =>
      if isAdd op && negb (existsb (touches (opKey op)) r)
      then op :: survivors r
      else survivors r
  end.

(** The last operation of the sequence on key [k], if any. *)
Fixpoint lastTouch (k : string) (ops : list Op) : option Op :=
  match ops with
  | [] => None
  | op :: r =>
      match lastTouch k r with
      | Some o => Some o
      | None => if touches k op then Some op else None
      end
  end.

(** The last operation of the sequence on key [k] is a remove. *)
Definition removedAtEnd (k : string) (ops : list Op) : bool :=
  match lastTouch k ops with
  | Some op => negb (isAdd op)
  | None => false
  end.

(** The node an operation allocates on top of [this]. *)
Definition opPayload (this : loc) (op : Op) : Payload :=
  match op with
  | OpAdd field args child optionsValue =>
      mkPayload (CtxPrev this) false field args child optionsValue None None
  | OpRemove field => mkPayload (CtxPrev this) true field None None None None None
  end.

(** The effect of one operation on the table, for nodes of schema type [st]. *)
Definition stepOp (st : SchemaType) (m : JsMap.t FieldSelection) (op : Op)
  : JsMap.t FieldSelection :=
  if isAdd op then JsMap.set (opKey op) (entryOf st (opPayload 0 op)) m
  else JsMap.delete (opKey op) m.

(** The memo cell of a node, when filled, holds the node's fold. *)
Definition cellValid (h : Heap) (l : loc) : Prop :=
  forall n m, nth_error h l = Some n -> _fieldMap n = Some m -> _buildFieldMap h l = Some m.

(** Operations on ordinary field names: not the empty name, not a spread
    key, and no removal of the type-name field. *)
Definition plainOp (op : Op) : bool :=
  negb (String.eqb (opField op) "")
  && negb (Str.startsWith (opField op) "...")
  && (isAdd op || negb (String.eqb (opField op) "__typename")).





(** Two heaps with the same payloads below a bound. *)
Definition agree (bound : nat) (h h' : Heap) : Prop :=
  forall l, l < bound -> payloadAt h' l = payloadAt h l.

(** The field-map memo cell of a node. *)
Definition cellOf (w : World) (l : loc) : option (option (JsMap.t FieldSelection)) :=
  option_map (@_fieldMap) (nth_error (heap w) l).

(** The number of open scopes of the current context's writer. *)
Definition depth (s : SerState) : nat := List.length (TextBuilder.scopes (ctxWriter s)).

(** [s'] is [s] after some text was written: only the current writer
    differs, and it has as many open scopes as before. *)
Definition writes (s s' : SerState) : Prop :=
  exists tb, s' = setCtxWriter tb s /\ List.length (TextBuilder.scopes tb) = depth s.

(** A step that succeeds and only writes, in every state with an open scope. *)
Definition writesOk (m : M SerState unit) : Prop :=
  forall s, 0 < depth s -> exists s', m s = (Ok tt, s') /\ writes s s'.

(** The body of the loop of [acceptLiteral] over a keyed structure. *)
Definition literalEntry (metaType : option EnumInputMetaType) (kv : string * JsValue)
  : M SerState unit :=
  separator (Some ", ") ;;; t (fst kv) ;;; t ": " ;;;
  acceptLiteral (snd kv) (metaFieldOf metaType (fst kv)).






Definition isParameterRef (v : JsValue) : bool :=
  match v with JParameterRef _ _ => true | _ => false end.






(** The heap and the last location after a sequence of operations. *)
Fixpoint allocOps (this : loc) (h : Heap) (ops : list Op) : loc * Heap :=
  match ops with
  | [] => (this, h)
  | op :: r =>
      allocOps (List.length h) (h ++ [mkSelectionImpl (opPayload this op) None None None]) r
  end.

(** The chain [$alias(alias)] builds after the plain scalar field [p] was
    selected on a fresh root of type [st], with its field map and text. *)
Definition aliasAfterSelect (st : SchemaType) (meta : EnumInputMetadata)
    (union : option (list string)) (p alias : string)
  : M World (JsMap.t FieldSelection * string) :=
  sel <- createSelection st meta union ;;
  a <- selectScalar sel p ;;
  b <- method_alias (targetOf a) alias ;;
  fm <- fieldMap (targetOf b) ;;
  txt <- toString (targetOf b) ;;
  ret (fm, txt).

(** A name that [$omit] and [$alias] treat as an ordinary field. *)
Definition plainName (x : string) : bool := plainOp (OpRemove x).

(** The entry of the plain scalar field [p], declared as [f], once it is
    re-added under [alias]. *)
Definition aliasedEntry (p alias : string) (f : SchemaField) : FieldSelection :=
  mkFieldSelection p (Some (argGraphQLTypeMap f)) None
    (Some (mkFieldOptionsValue (Some alias) JsMap.empty)) (isPlural f) None.

(** The body text of a selection of the single field [title] aliased [x]. *)
Definition aliasedTitleText : string :=
  "{" ++ Str.LF ++ Str.TAB ++ "x: title" ++ Str.LF ++ "}" ++ Str.LF.

(** [w] against an earlier world [w0]: every node of [w0] is still there
    with the payload it had, and each of its two map cells is as it was, or
    was empty and now holds the fold of the node as [w0] determines it. *)
Definition cellKept (A : Type) (now before fold : option A) : Prop :=
  now = before \/ (before = None /\ now = fold).

Definition frameInv (w0 w : World) : Prop :=
  forall l n0, nth_error (heap w0) l = Some n0 ->
    exists n, nth_error (heap w) l = Some n /\
              payload n = payload n0 /\
              cellKept (_fieldMap n) (_fieldMap n0) (_buildFieldMap (heap w0) l) /\
              cellKept (_directiveMap n) (_directiveMap n0) (_buildDirectiveMap (heap w0) l).

(** A computation that keeps [frameInv] against every earlier world. *)
Definition framed (A : Type) (m : M World A) : Prop :=
  forall w0 w, wf_heap (heap w0) -> frameInv w0 w -> frameInv w0 (snd (m w)).

Definition framedS (A : Type) (m : M SerState A) : Prop :=
  forall w0 s, wf_heap (heap w0) -> frameInv w0 (world s) -> frameInv w0 (world (snd (m s))).





(* ------------------------------------------------------------------ *)
(** ** Worked selections *)

Module Example.

(** A small schema: posts, and a query root with a required-argument
    association, an optional-argument association and a scalar with
    arguments. *)
Definition declarePost : M World SchemaType :=
  createSchemaType "Post" OBJECT [] [FdName "id"; FdName "title"].

Definition declareQuery : M World SchemaType :=
  createSchemaType "Query" OBJECT []
    [FdObject "post" REFERENCE None (Some [("id", "ID!")]) (Some "Post") None None;
     FdObject "posts" LIST None (Some [("limit", "Int"); ("offset", "Int")])
              (Some "Post") None None;
     FdObject "search" SCALAR None (Some [("filter", "Filter"); ("tags", "[String]")])
              None None None].

(** [post => post.id.title] *)
Definition idTitle (post : SelRef) : M World (option SelRef) :=
  a <- selectScalar post "id" ;;
  b <- selectScalar a "title" ;;
  ret (Some b).

(** The query root after both types were declared. *)
Definition queryRoot : M World SelRef :=
  declarePost ;;;
  query <- declareQuery ;;
  createSelection query JsMap.empty None.

(** The post root after the type was declared. *)
Definition postRoot : M World SelRef :=
  post <- declarePost ;;
  createSelection post JsMap.empty None.

(** What is observed of a finished selection. *)
Record Observed : Type := mkObserved {
  ob_text : string;
  ob_fragments : string;
  ob_variables : JsMap.t string
}.

Definition observe (sel : SelRef) : M World Observed :=
  r <- _serialize (targetOf sel) ;;
  ret (mkObserved (sr_text r) (sr_fragmentText r) (sr_variableTypeMap r)).





(** [query.post({ extra: 2 }, post => post.id.title)] *)
Definition undeclaredOnly : M World (Observed * list string) :=
  root <- queryRoot ;;
  sel <- selectAssociation root "post"
           [AArgBundle [("extra", JNumber 2)]; AArgBuilder idTitle] ;;
  o <- observe sel ;;
  w <- getState ;;
  ret (o, console w).


(** [query.post({ extra: { a: 1 }, id: null }, post => post.id.title)] *)
Definition undeclaredBeforeNull : M World Observed :=
  root <- queryRoot ;;
  sel <- selectAssociation root "post"
           [AArgBundle [("extra", JObject [("a", JNumber 1)]); ("id", JNull)];
            AArgBuilder idTitle] ;;
  observe sel.


(** Fragment [F] is [post.id]; fragment [G] is [post.title] with a spread
    of [F]; the body spreads [G] and [F]. *)
Definition fragmentInBodyAndInFragment : M World Observed :=
  root <- postRoot ;;
  f0 <- postRoot ;;
  selF <- selectScalar f0 "id" ;;
  g0 <- postRoot ;;
  g1 <- selectScalar g0 "title" ;;
  selG <- method_on (targetOf g1) (OnSelection selF (Some "F")) ;;
  b1 <- method_on (targetOf root) (OnSelection selG (Some "G")) ;;
  b2 <- method_on (targetOf b1) (OnSelection selF (Some "F")) ;;
  observe b2.

(** The body spreads [F] twice, from the same selection. *)
Definition fragmentTwiceInBody : M World Observed :=
  root <- postRoot ;;
  f0 <- postRoot ;;
  selF <- selectScalar f0 "id" ;;
  b1 <- selectScalar root "title" ;;
  b2 <- method_on (targetOf b1) (OnSelection selF (Some "F")) ;;
  b3 <- method_on (targetOf b2) (OnSelection selF (Some "F")) ;;
  observe b3.

(** Two different selections, [post.id] and [post.title], both spread
    under the name [F] on the same node. *)
Definition twoSelectionsOneName : M World Observed :=
  root <- postRoot ;;
  a0 <- postRoot ;;
  selA <- selectScalar a0 "id" ;;
  b0 <- postRoot ;;
  selB <- selectScalar b0 "title" ;;
  b1 <- method_on (targetOf root) (OnSelection selA (Some "F")) ;;
  b2 <- method_on (targetOf b1) (OnSelection selB (Some "F")) ;;
  observe b2.

(** Two different selections under the name [F], one spread in the body
    and one inside the child of a field: the second spread meets the first
    in the same context. *)
Definition twoSelectionsTwoPositions : M World Observed :=
  root <- queryRoot ;;
  a0 <- postRoot ;;
  selA <- selectScalar a0 "id" ;;
  b0 <- postRoot ;;
  selB <- selectScalar b0 "title" ;;
  inner <- postRoot ;;
  innerF <- method_on (targetOf inner) (OnSelection selA (Some "F")) ;;
  p1 <- selectAssociation root "post" [AArgSelection innerF] ;;
  p2 <- selectAssociation p1 "posts" [AArgBuilder (fun post =>
          r <- method_on (targetOf post) (OnSelection selB (Some "F")) ;; ret (Some r))] ;;
  observe p2.

(** A type whose own declaration of [label] takes an argument, under a
    supertype that declares [label] without arguments. *)
Definition Named : SchemaType :=
  mkSchemaType "Named" OBJECT []
    (fold_left declareField [FdName "label"] JsMap.empty).

Definition declareUser : M World SchemaType :=
  createSchemaType "User" OBJECT [Named]
    [FdObject "label" SCALAR None (Some [("locale", "String")]) None None None;
     FdName "email"].

(** The root of a post selection in the empty world, at location [0]. *)
Definition postWorld : World := snd (postRoot emptyWorld).

(** [id], [title], then [id] again. *)
Definition addIdTitleId : list Op :=
  [OpAdd "id" None None None; OpAdd "title" None None None; OpAdd "id" None None None].

(** [id], [title], then [title] removed, then [id] and [title] again. *)
Definition addRemoveAdd : list Op :=
  [OpAdd "id" None None None; OpAdd "title" None None None; OpRemove "title";
   OpAdd "id" None None None; OpAdd "title" None None None].


End Example.

(** The keys of a field map that was produced. *)
Definition okKeys (V : Type) (o : Outcome (JsMap.t V)) : option (list string) :=
  match o with Ok m => Some (JsMap.keys m) | _ => None end.

(** The merged table of a type stays a name in goals. *)
Arguments st_fields : simpl never.

(* ------------------------------------------------------------------ *)
(** ** Lookup helpers of [SelectionImpl] ([findField], [findFieldsByName],
       [findFieldByName]) *)

(** A loop that returns from the function at the first defined answer. *)
Fixpoint firstSome {S A B : Type} (xs : list A) (f : A -> M S (option B)) : M S (option B) :=
  match xs with
  | [] => ret None
  | x :: r =>
      o <- f x ;;
      match o with
      | Some b => ret (Some b)
      | None => firstSome r f
      end
  end.

(** A loop that threads an accumulator. *)
Fixpoint foldM {S A B : Type} (f : B -> A -> M S B) (xs : list A) (acc : B) : M S B :=
  match xs with
  | [] => ret acc
  | x :: r => acc' <- f acc x ;; foldM f r acc'
  end.

(** Whether the [get] trap of a proxy of type [st] hands the property [p]
    on to the node ([Reflect.get(target, p, target)]). *)
Definition reflectsMember (st : SchemaType) (p : string) : bool :=
  negb (String.eqb p "schemaType") && negb (String.eqb p " $category")
  && negb (isBuiltin p) && negb (String.eqb p "$on")
  && negb (JsMap.has p (st_fields st)).

(** Reading the member [p] of the class off a selection reference. A raw
    node answers with its own member; a proxy answers through its [get]
    trap. A schema type with a field named like the member makes the trap
    answer with a selection instead: that is not a use of the lookup
    helpers. *)
Definition memberOf (r : SelRef) (p : string) : M World unit :=
  match r with
  | RawRef _ => ret tt
  | ProxyRef _ l =>
      w <- getState ;;
      st <- liftOpt (schemaType (heap w) l) ;;
      if reflectsMember st p then ret tt else diverge
  end.

(** [this.findField(fieldKey)]. The recursion follows child selections;
    [fuel] bounds the nesting. *)
Fixpoint findField (fuel : nat) (this : option SelRef) (fieldKey : string)
  : M World (option FieldSelection) :=
  match fuel with
  | O => diverge
  | S fuel' =>
      match this with
      | None => throw (TypeError "Cannot read properties of undefined (reading 'findField')")
      | Some r =>
          memberOf r "findField" ;;;
          memberOf r "fieldMap" ;;;
          fm <- fieldMap (targetOf r) ;;
          match JsMap.get fieldKey fm with
          | Some field => ret (Some field)
          | None =>
              fm' <- fieldMap (targetOf r) ;;
              firstSome (JsMap.values fm') (fun f =>
                if Str.startsWith (fs_name f) "..." then
                  match childSelections f with
                  | Some children =>
                      firstSome children (fun child => findField fuel' child fieldKey)
                  | None => ret None
                  end
                else ret None)
          end
      end
  end.

(** [this._collectFieldsByName(fieldName, out)]; the result is the content
    of [out] afterwards. A child is asked through [findFieldsByName], which
    collects into an array of its own. *)
Fixpoint _collectFieldsByName (fuel : nat) (this : SelRef) (fieldName : string)
    (out : list FieldSelection) : M World (list FieldSelection) :=
  match fuel with
  | O => diverge
  | S fuel' =>
      memberOf this "fieldMap" ;;;
      fm <- fieldMap (targetOf this) ;;
      foldM (fun out field =>
               if String.eqb (fs_name field) fieldName then ret (out ++ [field])
               else if Str.startsWith (fs_name field) "..." then
                 match childSelections field with
                 | Some children =>
                     foldM (fun out child =>
                              match child with
                              | None =>
                                  throw (TypeError
                                    "Cannot read properties of undefined (reading 'findFieldsByName')")
                              | Some c =>
                                  memberOf c "findFieldsByName" ;;;
                                  memberOf c "_collectFieldsByName" ;;;
                                  found <- _collectFieldsByName fuel' c fieldName [] ;;
                                  ret (out ++ found)
                              end) children out
                 | None => ret out
                 end
               else ret out)
            (JsMap.values fm) out
  end.

(** [this.findFieldsByName(fieldName)] *)
Definition findFieldsByName (fuel : nat) (this : SelRef) (fieldName : string)
  : M World (list FieldSelection) :=
  memberOf this "_collectFieldsByName" ;;;
  _collectFieldsByName fuel this fieldName [].

(** [this.findFieldByName(fieldName)] *)
Definition findFieldByName (fuel : nat) (this : SelRef) (fieldName : string)
  : M World (option FieldSelection) :=
  memberOf this "findFieldsByName" ;;;
  fields <- findFieldsByName fuel this fieldName ;;
  if (1 <? List.length fields)%nat then
    memberOf this "_schemaType" ;;;
    w <- getState ;;
    st <- liftOpt (_schemaType (heap w) (targetOf this)) ;;
    throw (Error ("Too many fields named " ++ Str.DQUOTE ++ fieldName ++ Str.DQUOTE
                  ++ " in selection of type " ++ Str.DQUOTE ++ st_name st ++ Str.DQUOTE))
  else ret (List.hd_error fields).

(* ------------------------------------------------------------------ *)
(** ** [EnumInputMetadataBuilder] ([runtime/enum-metadata.ts]) *)

Record RawField : Type := mkRawField {
  rf_name : string;
  rf_typeName : string
}.

Module EnumInputMetadataBuilder.

(** The builder object: its [typeMap]. [None] is the enum registered
    without a field list. *)
Definition t : Type := JsMap.t (option (list RawField)).

Definition new : t := JsMap.empty.

(** [builder.add(name, fields?)] *)
Definition add (name : string) (fields : option (list RawField)) (this : t) : t :=
  JsMap.set name fields this.

(** The closure [resolve] of [build]; the state is the [result] map. The
    recursion follows the type names of the raw fields; [fuel] bounds the
    nesting. *)
Fixpoint resolve (fuel : nat) (typeMap : t) (name : string)
  : M (JsMap.t EnumInputMetaType) EnumInputMetaType :=
  match fuel with
  | O => diverge
  | S fuel' =>
      result <- getState ;;
      match JsMap.get name result with
      | Some existing => ret existing
      | None =>
          match JsMap.get name typeMap with
          | None => throw (Error ("Unknown enum/input type: '" ++ name ++ "'"))
          | Some rawFields =>
              fields <-
                match rawFields with
                | Some rfs =>
                    fs <- foldM (fun fields rf =>
                                   mt <- resolve fuel' typeMap (rf_typeName rf) ;;
                                   ret (JsMap.set (rf_name rf) mt fields))
                                rfs JsMap.empty ;;
                    ret (Some fs)
                | None => ret None
                end ;;
              let metaType :=
                mkEnumInputMetaType (match rawFields with None => ENUM | Some _ => INPUT end)
                                    name fields in
              modify (JsMap.set name metaType) ;;;
              ret metaType
          end
      end
  end.

(** [builder.build()] with the nesting bounded by [fuel]. *)
Definition buildWith (fuel : nat) (this : t) : Outcome EnumInputMetadata :=
  match forEach (JsMap.keys this) (fun name => resolve fuel this name ;;; ret tt) JsMap.empty with
  | (Ok _, result) => Ok result
  | (Throw e, _) => Throw e
  | (Diverge, _) => Diverge
  end.

(** [builder.build()]: when no type reaches itself through its fields, the
    nesting is at most the number of registered types. *)
Definition build (this : t) : Outcome EnumInputMetadata :=
  buildWith (S (JsMap.size this)) this.

End EnumInputMetadataBuilder.

(** [SELECTION_TARGET] of [runtime/proxy.ts]: a node of the type [Any]
    without fields. *)
Definition SELECTION_TARGET : M World loc :=
  any <- createSchemaType "Any" OBJECT [] [] ;;
  match EnumInputMetadataBuilder.build EnumInputMetadataBuilder.new with
  | Ok meta => newSelectionImpl (rootPayload any meta None)
  | Throw e => throw e
  | Diverge => diverge
  end.

(* ------------------------------------------------------------------ *)
(** ** Vocabulary of the further properties *)

(** The string arguments among the arguments of a call. *)
Fixpoint stringsOf (argArray : list JsValue) : list string :=
  match argArray with
  | [] => []
  | JString s :: r => s :: stringsOf r
  | _ :: r => stringsOf r
  end.

(** [items.join(sep)] *)
Fixpoint join (sep : string) (items : list string) : string :=
  match items with
  | [] => ""
  | [a] => a
  | a :: r => a ++ sep ++ join sep r
  end.

(** A non-empty string without a line feed. *)
Definition oneLine (s : string) : bool :=
  Str.truthy s && negb (isSome (Str.indexOfLF s)).

(** Writing a list of items in the open scope the way the serializer does:
    [separator(value)] before each item, then the item's text. *)
Fixpoint writeItems (value : option string) (items : list string) (tb : TextBuilder.t)
  : option TextBuilder.t :=
  match items with
  | [] => Some tb
  | a :: r =>
      match TextBuilder.separator value tb with
      | Some tb' => writeItems value r (TextBuilder.text a tb')
      | None => None
      end
  end.

(** A field map without spread entries. *)
Definition spreadFree (fm : JsMap.t FieldSelection) : bool :=
  forallb (fun f => negb (Str.startsWith (fs_name f) "...")) (JsMap.values fm).

(** The children already collected under a key of a field map. *)
Definition childrenAt (key : string) (fm : JsMap.t FieldSelection) : list (option SelRef) :=
  match JsMap.get key fm with
  | Some e => match childSelections e with Some cs => cs | None => [] end
  | None => []
  end.

(** An argument value that [isMultiLineJSON] counts as one entry: not an
    object, or a deferred-variable reference. *)
Definition countedValue (v : JsValue) : bool :=
  negb (typeofObject v) || isParameterRef v.

(** The metadata of a registered type whose fields, if any, are all of
    enum types. *)
Definition enumMeta (name : string) : EnumInputMetaType :=
  mkEnumInputMetaType ENUM name None.

Definition flatMeta (name : string) (rawFields : option (list RawField)) : EnumInputMetaType :=
  match rawFields with
  | None => enumMeta name
  | Some rfs =>
      mkEnumInputMetaType INPUT name
        (Some (fold_left (fun fields rf =>
                            JsMap.set (rf_name rf) (enumMeta (rf_typeName rf)) fields)
                         rfs JsMap.empty))
  end.

(** Every field of every input type of the builder is of a registered
    enum type. *)
Definition flatBuilder (b : EnumInputMetadataBuilder.t) : bool :=
  forallb (fun entry =>
             match snd entry with
             | None => true
             | Some rfs =>
                 forallb (fun rf =>
                            match JsMap.get (rf_typeName rf) b with
                            | Some None => true
                            | _ => false
                            end) rfs
             end) b.

(** The flags of a schema field as [buildField] derives them from the
    category, the argument table and the target type, for the field stored
    under [key]. *)
Definition derivedFlags (key : string) (f : SchemaField) : Prop :=
  sf_name f = key /\
  isPlural f = (SchemaFieldCategory_eqb (sf_category f) LIST
                || SchemaFieldCategory_eqb (sf_category f) CONNECTION_FIELD) /\
  isAssociation f = (SchemaFieldCategory_eqb (sf_category f) REFERENCE || isPlural f) /\
  isFunction f = (negb (JsMap.size (argGraphQLTypeMap f) =? 0)%nat || isAssociation f
                  || isSome (targetTypeName f)).

(** [args && Object.keys(args).length !== 0 ? args : undefined] *)
Definition normalizedArgs (args : option Args) : DirectiveArgs :=
  match args with
  | Some (_ :: _) => args
  | _ => None
  end.

(** The text [separator(value)] writes in a scope that already holds an
    item: the argument when it is a non-empty string, else the separator of
    the scope, else nothing. *)
Definition separatorText (value : option string) (sc : TextBuilder.ScopeState) : string :=
  match
    match value with
    | Some v => if Str.truthy v then Some v else TextBuilder.separator_ sc
    | None => TextBuilder.separator_ sc
    end
  with
  | Some s => s
  | None => ""
  end.

(** A scope once something was written in it. *)
Definition dirtied (sc : TextBuilder.ScopeState) : TextBuilder.ScopeState :=
  TextBuilder.mkScopeState (TextBuilder.type sc) (TextBuilder.multiLines sc)
                           (TextBuilder.separator_ sc) true.

(** The line break and indentation in front of an item at nesting [depth]
    of a multi-line scope; nothing in a single-line scope. *)
Definition lineIndent (multiLines : bool) (indent : string) (depth : nat) : string :=
  if multiLines then Str.LF ++ Str.repeat indent depth else "".

(** Every item with [sep] in front of it. *)
Fixpoint joinTail (sep : string) (items : list string) : string :=
  match items with
  | [] => ""
  | a :: r => sep ++ a ++ joinTail sep r
  end.

(** The items of a scope as they are laid out: nothing for no item, else
    the items joined by [sep] and the line break, the first one behind a
    line break of its own. *)
Definition layout (sep brk : string) (items : list string) : string :=
  match items with
  | [] => ""
  | _ :: _ => brk ++ join (sep ++ brk) items
  end.

(** The directive a node contributes to the directive fold. *)
Definition ownDirective (p : Payload) : JsMap.t DirectiveArgs :=
  match _directive p with
  | Some d => [(d, _directiveArgs p)]
  | None => []
  end.

(** The directives of older nodes behind those of newer ones: the newer
    entries first, then the older entries whose name is not bound yet. *)
Definition shadowedBy (newer older : JsMap.t DirectiveArgs) : JsMap.t DirectiveArgs :=
  newer ++ List.filter (fun kv => negb (JsMap.has (fst kv) newer)) older.

(** The selection [post.id] built in the empty world: the root of the post
    selection at location [0], the node that selects [id] at location [1]. *)
Definition postIdWorld : World :=
  snd ((root <- Example.postRoot ;; selectScalar root "id") emptyWorld).

(** The names [$omit] was called with, as a test on keys. *)
Definition omitted (names : list string) (k : string) : bool :=
  existsb (String.eqb k) names.

(** The entry [_buildFieldMap] makes of a plain scalar field [p] declared
    as [f], selected by property access. *)
Definition scalarEntry (p : string) (f : SchemaField) : FieldSelection :=
  mkFieldSelection p (Some (argGraphQLTypeMap f)) None None (isPlural f) None.

(** The key [addEmbeddable] stores a spread under. *)
Definition spreadKey (fragmentName : option string) (thisType childType : SchemaType)
    (childUnion : option (list string)) : string :=
  match fragmentName with
  | Some n => "... " ++ n
  | None =>
      if String.eqb (st_name childType) (st_name thisType) || isSome childUnion
      then "..."
      else "... on " ++ st_name childType
  end.

(** A fragment name [addEmbeddable] accepts. *)
Definition validFragmentName (fragmentName : option string) : bool :=
  match fragmentName with
  | Some n => negb (String.length n =? 0)%nat && negb (Str.startsWith n "on ")
  | None => true
  end.

(** A property name the [get] trap of a selection proxy answers itself. *)
Definition intercepted (p : string) : bool :=
  String.eqb p "schemaType" || String.eqb p " $category" || isBuiltin p || String.eqb p "$on".

(** The selection and the fragment name of an argument of [$on]. *)
Definition onChild (arg : OnArg) : SelRef :=
  match arg with OnSelection c _ => c | OnFragmentSpread _ s => s end.

Definition onName (arg : OnArg) : option string :=
  match arg with OnSelection _ n => n | OnFragmentSpread n _ => Some n end.

(** The world after [$omit("...")] was called on the root of a post
    selection: the negative node is at location [1]. *)
Definition spreadOmittedWorld : World :=
  snd (method_omit 0 [JString "..."] Example.postWorld).

(** The selection [post.id] with [id] selected once more under the alias
    [x]: the node is at location [2]. *)
Definition postIdTwiceWorld : World :=
  snd (addField 1 "id" None None (Some (mkFieldOptionsValue (Some "x") JsMap.empty))
                postIdWorld).


(** The raw fields of a registered type are all of registered enum types. *)
Definition flatRaw (b : EnumInputMetadataBuilder.t) (rawFields : option (list RawField)) : Prop :=
  match rawFields with
  | None => True
  | Some rfs => forall rf, In rf rfs -> JsMap.get (rf_typeName rf) b = Some None
  end.

(** Every entry of the result map is the metadata of the registered type
    of its name. *)
Definition flatResult (b : EnumInputMetadataBuilder.t) (result : JsMap.t EnumInputMetaType)
  : Prop :=
  forall n v, JsMap.get n result = Some v ->
    exists raw, JsMap.get n b = Some raw /\ v = flatMeta n raw.


(** A type [Shape] that declares the scalar [area] with a required
    argument, a type [Circle] under it that declares only [radius], and the
    world in which both are declared and a selection of [Circle] is rooted
    at location [0]. *)
Definition Shape : SchemaType :=
  mkSchemaType "Shape" OBJECT []
    (fold_left declareField
       [FdObject "area" SCALAR None (Some [("unit", "Unit!")]) None None None] JsMap.empty).

Definition circleWorld : World :=
  snd ((circle <- createSchemaType "Circle" OBJECT [Shape] [FdName "radius"] ;;
        createSelection circle JsMap.empty None) emptyWorld).

(* ================================================================== *)
(** * Properties *)

(** ** Tables *)

Section JsMapFacts.
Variable V : Type.
Implicit Types (m : JsMap.t V) (k : string) (v : V).

Lemma get_set_eq : forall m k v, JsMap.get k (JsMap.set k v m) = Some v.
Proof.
  induction m as [|[k' v'] r IH]; intros k v; simpl.
  - now rewrite String.eqb_refl.
  - destruct (String.eqb k' k) eqn:E; simpl.
    + now rewrite String.eqb_refl.
    + rewrite E. apply IH.
Qed.

Lemma get_set_neq : forall m k k' v, k <> k' -> JsMap.get k' (JsMap.set k v m) = JsMap.get k' m.
Proof.
  induction m as [|[k0 v0] r IH]; intros k k' v Hne; simpl.
  - destruct (String.eqb_spec k k'); [contradiction | reflexivity].
  - destruct (String.eqb_spec k0 k) as [->|Hk]; simpl.
    + destruct (String.eqb_spec k k'); [contradiction | reflexivity].
    + destruct (String.eqb_spec k0 k'); [reflexivity | now apply IH].
Qed.

Lemma get_delete_eq : forall m k, JsMap.get k (JsMap.delete k m) = None.
Proof.
  induction m as [|[k0 v0] r IH]; intros k; simpl; [reflexivity|].
  destruct (String.eqb k0 k) eqn:E; simpl; [apply IH|].
  rewrite E. apply IH.
Qed.

Lemma get_delete_neq : forall m k k', k <> k' -> JsMap.get k' (JsMap.delete k m) = JsMap.get k' m.
Proof.
  induction m as [|[k0 v0] r IH]; intros k k' Hne; simpl; [reflexivity|].
  destruct (String.eqb_spec k0 k) as [->|Hk]; simpl.
  - destruct (String.eqb_spec k k'); [contradiction | now apply IH].
  - destruct (String.eqb_spec k0 k'); [reflexivity | now apply IH].
Qed.

Lemma keys_set : forall m k v,
  JsMap.keys (JsMap.set k v m) = if JsMap.has k m then JsMap.keys m else JsMap.keys m ++ [k].
Proof.
  unfold JsMap.has, JsMap.keys.
  induction m as [|[k0 v0] r IH]; intros k v; simpl; [reflexivity|].
  destruct (String.eqb_spec k0 k) as [->|Hk]; simpl; [reflexivity|].
  rewrite IH. now destruct (JsMap.get k r).
Qed.

Lemma keys_delete : forall m k,
  JsMap.keys (JsMap.delete k m) = List.filter (fun k' => negb (String.eqb k' k)) (JsMap.keys m).
Proof.
  unfold JsMap.keys.
  induction m as [|[k0 v0] r IH]; intros k; simpl; [reflexivity|].
  destruct (String.eqb k0 k); simpl; now rewrite IH.
Qed.

End JsMapFacts.

(** ** Heaps *)

Lemma wf_from_nth : forall h i l n,
  wf_from i h = true -> nth_error h l = Some n ->
  match _ctx (payload n) with CtxPrev prev => prev < i + l | CtxRoot _ _ _ => True end.
Proof.
  induction h as [|x r IH]; intros i l n Hwf Hn.
  - destruct l; discriminate.
  - simpl in Hwf. apply andb_prop in Hwf as [Hx Hr].
    destruct l as [|l]; simpl in Hn.
    + injection Hn as <-. destruct (_ctx (payload x)); [exact I|].
      apply Nat.ltb_lt in Hx. lia.
    + specialize (IH (S i) l n Hr Hn).
      destruct (_ctx (payload n)); [exact I | lia].
Qed.

Lemma wf_prev_lt : forall h l p prev,
  wf_heap h -> payloadAt h l = Some p -> _ctx p = CtxPrev prev -> prev < l.
Proof.
  unfold wf_heap, payloadAt. intros h l p prev Hwf Hp Hc.
  destruct (nth_error h l) as [n|] eqn:E; [|discriminate].
  injection Hp as <-. pose proof (@wf_from_nth h 0 l n Hwf E) as H.
  rewrite Hc in H. exact H.
Qed.

Lemma payloadAt_lt : forall h l p, payloadAt h l = Some p -> l < List.length h.
Proof.
  unfold payloadAt. intros h l p H.
  destruct (nth_error h l) eqn:E; [|discriminate].
  apply nth_error_Some. congruence.
Qed.

Lemma payloadAt_app : forall h ext l, l < List.length h -> payloadAt (h ++ ext) l = payloadAt h l.
Proof.
  unfold payloadAt. intros. now rewrite nth_error_app1.
Qed.

Lemma payloadAt_new : forall h n, payloadAt (h ++ [n]) (List.length h) = Some (payload n).
Proof.
  unfold payloadAt. intros. rewrite nth_error_app2 by lia.
  now rewrite Nat.sub_diag.
Qed.

Lemma agree_app : forall h ext, agree (List.length h) h (h ++ ext).
Proof. intros h ext l Hl. now apply payloadAt_app. Qed.

Lemma wf_from_app : forall h i ext,
  wf_from i (h ++ ext) = wf_from i h && wf_from (i + List.length h) ext.
Proof.
  induction h as [|x r IH]; intros i ext; simpl.
  - now rewrite Nat.add_0_r.
  - rewrite IH, andb_assoc. now replace (S i + length r) with (i + S (length r)) by lia.
Qed.

(** Enough fuel: above the location, the amount does not matter. *)
Lemma rootCtx_fuel : forall h, wf_heap h ->
  forall fuel1 fuel2 l, l < fuel1 -> l < fuel2 -> rootCtx fuel1 h l = rootCtx fuel2 h l.
Proof.
  intros h Hwf. induction fuel1 as [|f1 IH]; intros fuel2 l H1 H2; [lia|].
  destruct fuel2 as [|f2]; [lia|]. simpl.
  destruct (payloadAt h l) as [p|] eqn:Ep; [|reflexivity].
  destruct (_ctx p) as [| prev] eqn:Ec; [reflexivity|].
  pose proof (@wf_prev_lt h l p prev Hwf Ep Ec). apply IH; lia.
Qed.

Lemma rootCtx_some : forall h, wf_heap h ->
  forall fuel l, l < fuel -> l < List.length h -> rootCtx fuel h l <> None.
Proof.
  intros h Hwf. induction fuel as [|f IH]; intros l Hf Hl; [lia|]. simpl.
  unfold payloadAt. destruct (nth_error h l) as [n|] eqn:E.
  - simpl. destruct (_ctx (payload n)) as [|prev] eqn:Ec; [discriminate|].
    assert (prev < l) by (eapply wf_prev_lt; eauto; unfold payloadAt; now rewrite E).
    apply IH; lia.
  - apply nth_error_None in E. lia.
Qed.

Lemma rootCtx_agree : forall h h' bound, wf_heap h -> agree bound h h' ->
  forall fuel l, l < bound -> rootCtx fuel h' l = rootCtx fuel h l.
Proof.
  intros h h' bound Hwf Ha. induction fuel as [|f IH]; intros l Hl; [reflexivity|].
  simpl. rewrite (Ha l Hl).
  destruct (payloadAt h l) as [p|] eqn:Ep; [|reflexivity].
  destruct (_ctx p) as [|prev] eqn:Ec; [reflexivity|].
  pose proof (@wf_prev_lt h l p prev Hwf Ep Ec). apply IH; lia.
Qed.

Lemma chainNodes_fuel : forall h, wf_heap h ->
  forall fuel1 fuel2 l, l < fuel1 -> l < fuel2 -> chainNodes fuel1 h l = chainNodes fuel2 h l.
Proof.
  intros h Hwf. induction fuel1 as [|f1 IH]; intros fuel2 l H1 H2; [lia|].
  destruct fuel2 as [|f2]; [lia|]. simpl.
  destruct (payloadAt h l) as [p|] eqn:Ep; [|reflexivity].
  destruct (_ctx p) as [| prev] eqn:Ec; [reflexivity|].
  pose proof (@wf_prev_lt h l p prev Hwf Ep Ec). rewrite (IH f2 prev); [reflexivity | lia | lia].
Qed.

Lemma chainNodes_bound : forall h, wf_heap h ->
  forall fuel l c, chainNodes fuel h l = Some c -> Forall (fun x => x <= l) c.
Proof.
  intros h Hwf. induction fuel as [|f IH]; intros l c H; [discriminate|].
  simpl in H. destruct (payloadAt h l) as [p|] eqn:Ep; [|discriminate].
  destruct (_ctx p) as [|prev] eqn:Ec.
  - injection H as <-. destruct (String.eqb (_field p) ""); repeat constructor.
  - destruct (chainNodes f h prev) as [rest|] eqn:Er; [|discriminate].
    injection H as <-. pose proof (@wf_prev_lt h l p prev Hwf Ep Ec).
    specialize (IH _ _ Er).
    assert (Forall (fun x => x <= l) rest).
    { eapply Forall_impl; [|exact IH]. simpl. intros; lia. }
    destruct (String.eqb (_field p) ""); [assumption | constructor; [lia | assumption]].
Qed.

Lemma chainNodes_some : forall h, wf_heap h ->
  forall fuel l, l < fuel -> l < List.length h -> chainNodes fuel h l <> None.
Proof.
  intros h Hwf. induction fuel as [|f IH]; intros l Hf Hl; [lia|]. simpl.
  unfold payloadAt. destruct (nth_error h l) as [n|] eqn:E.
  - simpl. destruct (_ctx (payload n)) as [|prev] eqn:Ec; [discriminate|].
    assert (prev < l) by (eapply wf_prev_lt; eauto; unfold payloadAt; now rewrite E).
    destruct (chainNodes f h prev) eqn:Ec'; [discriminate|].
    exfalso. revert Ec'. apply IH; lia.
  - apply nth_error_None in E. lia.
Qed.

Lemma chainNodes_agree : forall h h' bound, wf_heap h -> agree bound h h' ->
  forall fuel l, l < bound -> chainNodes fuel h' l = chainNodes fuel h l.
Proof.
  intros h h' bound Hwf Ha. induction fuel as [|f IH]; intros l Hl; [reflexivity|].
  simpl. rewrite (Ha l Hl).
  destruct (payloadAt h l) as [p|] eqn:Ep; [|reflexivity].
  destruct (_ctx p) as [|prev] eqn:Ec; [reflexivity|].
  pose proof (@wf_prev_lt h l p prev Hwf Ep Ec). rewrite IH by lia. reflexivity.
Qed.

Lemma schemaType_agree : forall h h' bound l, wf_heap h -> agree bound h h' -> l < bound ->
  _schemaType h' l = _schemaType h l.
Proof. intros h h' bound l Hwf Ha Hl. unfold _schemaType. now rewrite (@rootCtx_agree h h' bound Hwf Ha). Qed.

Lemma foldNode_agree : forall h h' bound m l, wf_heap h -> agree bound h h' -> l < bound ->
  foldNode h' m l = foldNode h m l.
Proof.
  intros h h' bound m l Hwf Ha Hl. unfold foldNode.
  rewrite (Ha l Hl), (@schemaType_agree h h' bound l Hwf Ha Hl). reflexivity.
Qed.

Lemma fold_foldNode_agree : forall h h' bound, wf_heap h -> agree bound h h' ->
  forall c m, Forall (fun x => x < bound) c ->
  fold_left (foldNode h') c m = fold_left (foldNode h) c m.
Proof.
  intros h h' bound Hwf Ha. induction c as [|x r IH]; intros m Hc; [reflexivity|].
  inversion Hc; subst. simpl. rewrite (@foldNode_agree h h' bound m x Hwf Ha) by assumption. now apply IH.
Qed.

Lemma buildFieldMap_agree : forall h h' bound l, wf_heap h -> agree bound h h' -> l < bound ->
  _buildFieldMap h' l = _buildFieldMap h l.
Proof.
  intros h h' bound l Hwf Ha Hl. unfold _buildFieldMap.
  rewrite (@chainNodes_agree h h' bound Hwf Ha) by assumption.
  destruct (chainNodes (S l) h l) as [c|] eqn:Ec; [|reflexivity].
  apply (@fold_foldNode_agree h h' bound Hwf Ha).
  apply Forall_rev. eapply Forall_impl; [|eapply chainNodes_bound; eauto].
  simpl. intros; lia.
Qed.

Lemma foldNode_none : forall h l, foldNode h None l = None.
Proof. reflexivity. Qed.

Lemma buildFieldMap_unfold : forall h l p, wf_heap h -> payloadAt h l = Some p ->
  _buildFieldMap h l =
    let base := match _ctx p with
                | CtxPrev prev => _buildFieldMap h prev
                | CtxRoot _ _ _ => Some JsMap.empty
                end in
    if String.eqb (_field p) "" then base else foldNode h base l.
Proof.
  intros h l p Hwf Ep. unfold _buildFieldMap at 1. simpl chainNodes. rewrite Ep.
  destruct (_ctx p) as [|prev] eqn:Ec; simpl.
  - destruct (String.eqb (_field p) ""); reflexivity.
  - pose proof (@wf_prev_lt h l p prev Hwf Ep Ec) as Hlt.
    rewrite (@chainNodes_fuel h Hwf l (S prev) prev) by lia.
    unfold _buildFieldMap.
    destruct (chainNodes (S prev) h prev) as [rest|].
    + destruct (String.eqb (_field p) ""); [reflexivity|].
      simpl. now rewrite fold_left_app.
    + destruct (String.eqb (_field p) ""); reflexivity.
Qed.

Lemma foldNode_some : forall h l p st m,
  payloadAt h l = Some p -> _schemaType h l = Some st ->
  exists m', foldNode h (Some m) l = Some m'.
Proof.
  intros h l p st m Ep Est. unfold foldNode. rewrite Ep, Est.
  destruct (Str.startsWith (_field p) "...").
  - destruct (JsMap.get (keyOf p) m) as [e|]; [|eauto].
    destruct (childSelections e); eauto.
  - destruct (_negative p); eauto.
Qed.

Lemma schemaType_some : forall h l, wf_heap h -> l < List.length h ->
  exists st, _schemaType h l = Some st.
Proof.
  intros h l Hwf Hl. unfold _schemaType.
  destruct (rootCtx (S l) h l) as [r|] eqn:E; [eexists; reflexivity|].
  exfalso. revert E. apply rootCtx_some; auto.
Qed.

Lemma payloadAt_some : forall h l, l < List.length h -> exists p, payloadAt h l = Some p.
Proof.
  intros h l Hl. unfold payloadAt. destruct (nth_error h l) eqn:E; [eexists; reflexivity|].
  apply nth_error_None in E. lia.
Qed.

Lemma buildFieldMap_some : forall h, wf_heap h ->
  forall l, l < List.length h -> exists m, _buildFieldMap h l = Some m.
Proof.
  intros h Hwf l. induction l as [l IH] using lt_wf_ind. intros Hl.
  destruct (@payloadAt_some h l Hl) as [p Ep].
  destruct (@schemaType_some h l Hwf Hl) as [st Est].
  rewrite (@buildFieldMap_unfold h l p Hwf Ep). cbv zeta.
  assert (Hbase : exists b, match _ctx p with
                            | CtxPrev prev => _buildFieldMap h prev
                            | CtxRoot _ _ _ => Some JsMap.empty
                            end = Some b).
  { destruct (_ctx p) as [|prev] eqn:Ec; [eexists; reflexivity|].
    pose proof (@wf_prev_lt h l p prev Hwf Ep Ec). apply IH; lia. }
  destruct Hbase as [b ->].
  destruct (String.eqb (_field p) ""); [eauto|].
  eapply foldNode_some; eauto.
Qed.

(** The root of a node is the root of its predecessor. *)
Lemma schemaType_prev : forall h l p prev, wf_heap h -> payloadAt h l = Some p ->
  _ctx p = CtxPrev prev -> _schemaType h l = _schemaType h prev.
Proof.
  intros h l p prev Hwf Ep Ec. unfold _schemaType. simpl. rewrite Ep, Ec.
  pose proof (@wf_prev_lt h l p prev Hwf Ep Ec).
  now rewrite (@rootCtx_fuel h Hwf l (S prev) prev) by lia.
Qed.

(** ** Allocation *)

Lemma newSelectionImpl_run : forall p w,
  newSelectionImpl p w =
    (Ok (List.length (heap w)), withHeap (heap w ++ [mkSelectionImpl p None None None]) w).
Proof. reflexivity. Qed.

Lemma wf_alloc : forall h p, wf_heap h ->
  match _ctx p with CtxPrev prev => prev < List.length h | CtxRoot _ _ _ => True end ->
  wf_heap (h ++ [mkSelectionImpl p None None None]).
Proof.
  unfold wf_heap. intros h p Hwf Hp. rewrite wf_from_app, Hwf. simpl.
  destruct (_ctx p); [reflexivity|]. rewrite andb_true_r. now apply Nat.ltb_lt.
Qed.

(** ** The fold as a replay of operations *)

Lemma entryOf_opPayload : forall st this op,
  entryOf st (opPayload this op) = entryOf st (opPayload 0 op).
Proof. intros st this []; reflexivity. Qed.

Lemma keyOf_opPayload : forall this op, keyOf (opPayload this op) = opKey op.
Proof. intros this [f a c [o|]|f]; reflexivity. Qed.

Lemma foldNode_op : forall h this op st m,
  wf_heap h -> this < List.length h -> _schemaType h this = Some st ->
  plainOp op = true ->
  let h' := h ++ [mkSelectionImpl (opPayload this op) None None None] in
  foldNode h' (Some m) (List.length h) = Some (stepOp st m op).
Proof.
  intros h this op st m Hwf Hthis Hst Hplain h'.
  assert (Hwf' : wf_heap h') by (apply wf_alloc; [assumption | destruct op; exact Hthis]).
  assert (Ep : payloadAt h' (List.length h) = Some (opPayload this op))
    by apply payloadAt_new.
  assert (Hst' : _schemaType h' (List.length h) = Some st).
  { rewrite (@schemaType_prev h' (List.length h) _ this Hwf' Ep) by (destruct op; reflexivity).
    rewrite (@schemaType_agree h h' (List.length h) this Hwf (agree_app h _) Hthis).
    exact Hst. }
  unfold foldNode. rewrite Ep, Hst'.
  unfold plainOp in Hplain. apply andb_prop in Hplain as [Hplain _].
  apply andb_prop in Hplain as [_ Hdots]. apply negb_true_iff in Hdots.
  replace (_field (opPayload this op)) with (opField op) by (destruct op; reflexivity).
  rewrite Hdots, keyOf_opPayload, entryOf_opPayload.
  unfold stepOp. destruct op; reflexivity.
Qed.

Lemma applyOp_run : forall op this w, plainOp op = true ->
  applyOp this op w =
    (Ok (List.length (heap w)),
     withHeap (heap w ++ [mkSelectionImpl (opPayload this op) None None None]) w).
Proof.
  intros [f a c o|f] this w Hp; simpl; [reflexivity|].
  unfold removeField. unfold plainOp in Hp. simpl in Hp.
  apply andb_prop in Hp as [_ Hp]. apply negb_true_iff in Hp. now rewrite Hp.
Qed.

Lemma applyOps_spec : forall ops w base st Mb,
  wf_heap (heap w) -> base < List.length (heap w) ->
  _schemaType (heap w) base = Some st ->
  _buildFieldMap (heap w) base = Some Mb ->
  forallb plainOp ops = true ->
  exists n w',
    applyOps base ops w = (Ok n, w') /\
    _buildFieldMap (heap w') n = Some (fold_left (stepOp st) ops Mb) /\
    (forall l, l < List.length (heap w) -> nth_error (heap w') l = nth_error (heap w) l) /\
    (ops = [] -> n = base /\ w' = w) /\
    (ops <> [] -> List.length (heap w) <= n /\ cellOf w' n = Some None).
Proof.
  induction ops as [|op r IH]; intros w base st Mb Hwf Hb Hst HMb Hplain.
  - exists base, w. simpl. repeat split; auto. congruence. congruence.
  - simpl in Hplain. apply andb_prop in Hplain as [Hop Hr].
    set (h := heap w) in *.
    set (node := mkSelectionImpl (opPayload base op) None None None).
    set (w1 := withHeap (h ++ [node]) w).
    assert (Hwf1 : wf_heap (heap w1)).
    { apply wf_alloc; [assumption | destruct op; exact Hb]. }
    assert (Ep : payloadAt (heap w1) (List.length h) = Some (opPayload base op))
      by apply payloadAt_new.
    assert (Hst1 : _schemaType (heap w1) (List.length h) = Some st).
    { rewrite (@schemaType_prev (heap w1) (List.length h) _ base Hwf1 Ep)
        by (destruct op; reflexivity).
      unfold w1; simpl.
      rewrite (@schemaType_agree h (h ++ [node]) (List.length h) base Hwf (agree_app h _) Hb).
      exact Hst. }
    assert (HM1 : _buildFieldMap (heap w1) (List.length h) = Some (stepOp st Mb op)).
    { rewrite (@buildFieldMap_unfold _ _ _ Hwf1 Ep). cbv zeta.
      replace (_ctx (opPayload base op)) with (CtxPrev base) by (destruct op; reflexivity).
      replace (_field (opPayload base op)) with (opField op) by (destruct op; reflexivity).
      unfold plainOp in Hop. apply andb_prop in Hop as [Hop' Htn].
      apply andb_prop in Hop' as [Hne Hdots]. apply negb_true_iff in Hne. rewrite Hne.
      unfold w1; simpl.
      rewrite (@buildFieldMap_agree h (h ++ [node]) (List.length h) base Hwf (agree_app h _) Hb).
      fold h. rewrite HMb.
      apply foldNode_op; auto.
      unfold plainOp. rewrite Hne, Hdots, Htn. reflexivity. }
    assert (Hlen1 : List.length h < List.length (heap w1)).
    { unfold w1; simpl. rewrite length_app. simpl. lia. }
    destruct (IH w1 (List.length h) st (stepOp st Mb op) Hwf1 Hlen1 Hst1 HM1 Hr)
      as (n & w' & Hrun & Hbuild & Hold & Hnil & Hcons).
    exists n, w'. simpl. unfold bind. rewrite (@applyOp_run op base w Hop). fold h node w1.
    rewrite Hrun. split; [reflexivity|]. split; [exact Hbuild|].
    split.
    { intros l Hl. rewrite Hold by (fold h in Hl; lia).
      unfold w1; simpl. now apply nth_error_app1. }
    split; [discriminate|]. intros _.
    destruct r as [|op' r'].
    + destruct (Hnil eq_refl) as [-> ->]. split; [fold h; lia|].
      unfold cellOf, w1; simpl. rewrite nth_error_app2 by lia.
      now rewrite Nat.sub_diag.
    + destruct Hcons as [Hge Hcell]; [discriminate|]. split; [fold h; lia | exact Hcell].
Qed.

Lemma fieldMap_build : forall w l m,
  cellOf w l = Some None -> _buildFieldMap (heap w) l = Some m ->
  fst (fieldMap l w) = Ok m.
Proof.
  unfold cellOf, fieldMap. intros w l m Hc Hb.
  destruct (nth_error (heap w) l) as [n|]; [|discriminate].
  simpl in Hc. injection Hc as Hc. now rewrite Hc, Hb.
Qed.

Lemma fieldMap_valid : forall w l m,
  l < List.length (heap w) -> cellValid (heap w) l -> _buildFieldMap (heap w) l = Some m ->
  fst (fieldMap l w) = Ok m.
Proof.
  unfold cellValid, fieldMap. intros w l m Hl Hv Hb.
  destruct (nth_error (heap w) l) as [n|] eqn:E.
  - destruct (_fieldMap n) as [m'|] eqn:Ec.
    + specialize (Hv n m' eq_refl Ec). simpl. congruence.
    + now rewrite Hb.
  - apply nth_error_None in E. lia.
Qed.

Lemma fieldMapAfter_spec : forall ops w base st Mb,
  wf_heap (heap w) -> base < List.length (heap w) -> cellValid (heap w) base ->
  _schemaType (heap w) base = Some st ->
  _buildFieldMap (heap w) base = Some Mb ->
  forallb plainOp ops = true ->
  fst (fieldMapAfter base ops w) = Ok (fold_left (stepOp st) ops Mb).
Proof.
  intros ops w base st Mb Hwf Hb Hv Hst HMb Hplain.
  destruct (@applyOps_spec ops w base st Mb Hwf Hb Hst HMb Hplain)
    as (n & w' & Hrun & Hbuild & Hold & Hnil & Hcons).
  unfold fieldMapAfter, bind. rewrite Hrun.
  destruct ops as [|op r].
  - destruct (Hnil eq_refl) as [-> ->]. simpl. now apply fieldMap_valid.
  - destruct Hcons as [_ Hcell]; [discriminate|]. now apply fieldMap_build.
Qed.

Lemma lastTouch_none : forall k ops, lastTouch k ops = None <-> existsb (touches k) ops = false.
Proof.
  induction ops as [|op r IH]; simpl; [tauto|].
  destruct (lastTouch k r) as [o|].
  - split; [discriminate|]. intros H. apply orb_false_iff in H as [_ H].
    apply IH in H. discriminate.
  - destruct IH as [IH _]. rewrite (IH eq_refl), orb_false_r.
    destruct (touches k op); split; congruence.
Qed.

Lemma lastTouch_some : forall k ops o, lastTouch k ops = Some o ->
  touches k o = true /\ existsb (touches k) ops = true.
Proof.
  induction ops as [|op r IH]; intros o H; simpl in *; [discriminate|].
  destruct (lastTouch k r) as [o'|] eqn:E.
  - injection H as <-. destruct (IH o' eq_refl) as [H1 H2].
    rewrite H2, orb_true_r. auto.
  - destruct (touches k op) eqn:Et; [|discriminate]. injection H as <-. auto.
Qed.

Lemma get_stepOp : forall st m op k,
  JsMap.get k (stepOp st m op) =
    if touches k op
    then (if isAdd op then Some (entryOf st (opPayload 0 op)) else None)
    else JsMap.get k m.
Proof.
  intros st m op k. unfold stepOp, touches.
  destruct (String.eqb_spec (opKey op) k) as [<-|Hne].
  - destruct (isAdd op); [apply get_set_eq | apply get_delete_eq].
  - destruct (isAdd op); [now apply get_set_neq | now apply get_delete_neq].
Qed.

(** Under each key the fold holds what the key's last operation left. *)
Lemma get_fold_stepOp : forall st k ops m,
  JsMap.get k (fold_left (stepOp st) ops m) =
    match lastTouch k ops with
    | Some op => if isAdd op then Some (entryOf st (opPayload 0 op)) else None
    | None => JsMap.get k m
    end.
Proof.
  intros st k. induction ops as [|op r IH]; intros m; simpl; [reflexivity|].
  rewrite IH. destruct (lastTouch k r) as [o|]; [reflexivity|].
  rewrite get_stepOp. destruct (touches k op); reflexivity.
Qed.

Lemma lastTouch_survivors : forall k ops,
  lastTouch k (survivors ops) =
    match lastTouch k ops with
    | Some op => if isAdd op then Some op else None
    | None => None
    end.
Proof.
  intros k. induction ops as [|op r IH]; simpl; [reflexivity|].
  destruct (isAdd op && negb (existsb (touches (opKey op)) r)) eqn:Es.
  - apply andb_prop in Es as [Hadd Hun]. apply negb_true_iff in Hun.
    simpl. rewrite IH.
    destruct (lastTouch k r) as [o|] eqn:El.
    + destruct (isAdd o); [reflexivity|].
      destruct (touches k op) eqn:Et; [|reflexivity].
      unfold touches in Et. apply String.eqb_eq in Et. subst k.
      apply lastTouch_some in El as [_ El]. congruence.
    + destruct (touches k op); [now rewrite Hadd | reflexivity].
  - rewrite IH. destruct (lastTouch k r) as [o|] eqn:El; [reflexivity|].
    destruct (touches k op) eqn:Et; [|reflexivity].
    destruct (isAdd op) eqn:Hadd; [|reflexivity].
    simpl in Es. apply negb_false_iff in Es.
    unfold touches in Et. apply String.eqb_eq in Et. subst k.
    apply lastTouch_none in El. congruence.
Qed.

Lemma survivors_plain : forall ops, forallb plainOp ops = true ->
  forallb plainOp (survivors ops) = true.
Proof.
  induction ops as [|op r IH]; simpl; [reflexivity|]. intros H.
  apply andb_prop in H as [H1 H2].
  destruct (isAdd op && negb (existsb (touches (opKey op)) r)); simpl; [rewrite H1|]; auto.
Qed.

Lemma get_fold_survivors : forall st k ops m,
  JsMap.get k (fold_left (stepOp st) ops m) =
    if removedAtEnd k ops then None
    else JsMap.get k (fold_left (stepOp st) (survivors ops) m).
Proof.
  intros st k ops m. rewrite !get_fold_stepOp, lastTouch_survivors. unfold removedAtEnd.
  destruct (lastTouch k ops) as [o|]; [|reflexivity].
  destruct (isAdd o) eqn:E; simpl; rewrite ?E; reflexivity.
Qed.

Lemma keys_fold_snoc : forall st ops m op, isAdd op = true ->
  JsMap.keys (fold_left (stepOp st) (ops ++ [op]) m) =
    if JsMap.has (opKey op) (fold_left (stepOp st) ops m)
    then JsMap.keys (fold_left (stepOp st) ops m)
    else JsMap.keys (fold_left (stepOp st) ops m) ++ [opKey op].
Proof.
  intros st ops m op Hadd. rewrite fold_left_app. simpl. unfold stepOp at 1.
  rewrite Hadd. apply keys_set.
Qed.

(** C1 (amended): the field map after a sequence of [addField] /
    [removeField] calls on a base node, against the replay of the surviving
    subsequence on the same base. The two agree under every key, except that
    a key whose last operation is a remove is absent from the result; and an
    add of a key that is present keeps the key's position, only an add of an
    absent key is appended. *)
Theorem C1_field_map_replays_survivors :
  forall (w : World) (base : loc) (ops : list Op),
    wf_heap (heap w) ->
    base < List.length (heap w) ->
    cellValid (heap w) base ->
    forallb plainOp ops = true ->
    exists m m',
      fst (fieldMapAfter base ops w) = Ok m /\
      fst (fieldMapAfter base (survivors ops) w) = Ok m' /\
      (forall k, JsMap.get k m = if removedAtEnd k ops then None else JsMap.get k m') /\
      (forall op, isAdd op = true -> plainOp op = true ->
         exists m2,
           fst (fieldMapAfter base (ops ++ [op]) w) = Ok m2 /\
           JsMap.keys m2 =
             if JsMap.has (opKey op) m then JsMap.keys m else JsMap.keys m ++ [opKey op]).
Proof.
  intros w base ops Hwf Hb Hv Hplain.
  destruct (@schemaType_some (heap w) base Hwf Hb) as [st Hst].
  destruct (@buildFieldMap_some (heap w) Hwf base Hb) as [Mb HMb].
  exists (fold_left (stepOp st) ops Mb), (fold_left (stepOp st) (survivors ops) Mb).
  split; [now apply fieldMapAfter_spec|].
  split; [apply fieldMapAfter_spec; auto using survivors_plain|].
  split; [intros k; apply get_fold_survivors|].
  intros op Hadd Hop.
  exists (fold_left (stepOp st) (ops ++ [op]) Mb).
  split; [|now apply keys_fold_snoc].
  apply fieldMapAfter_spec; auto.
  rewrite forallb_app, Hplain. simpl. now rewrite Hop.
Qed.

(** ** The text builder keeps its scope stack *)

Lemma scopes_flushIndent : forall tb,
  TextBuilder.scopes (TextBuilder.flushIndent tb) = TextBuilder.scopes tb.
Proof. intros tb. unfold TextBuilder.flushIndent. now destruct (TextBuilder.atNewLine tb). Qed.

Lemma scopes_textLoop : forall fuel remaining tb,
  TextBuilder.scopes (TextBuilder.textLoop fuel remaining tb) = TextBuilder.scopes tb.
Proof.
  induction fuel as [|f IH]; intros remaining tb; simpl; [reflexivity|].
  destruct (Str.truthy remaining); [|reflexivity].
  destruct (Str.indexOfLF remaining).
  - rewrite IH. simpl. apply scopes_flushIndent.
  - simpl. apply scopes_flushIndent.
Qed.

Lemma length_scopes_markDirty : forall tb,
  List.length (TextBuilder.scopes (TextBuilder.markDirty tb)) = List.length (TextBuilder.scopes tb).
Proof.
  intros tb. unfold TextBuilder.markDirty.
  destruct (TextBuilder.scopes tb) eqn:E; simpl; rewrite ?E; reflexivity.
Qed.

Lemma length_scopes_text : forall value tb,
  List.length (TextBuilder.scopes (TextBuilder.text value tb)) = List.length (TextBuilder.scopes tb).
Proof.
  intros value tb. unfold TextBuilder.text. rewrite scopes_textLoop.
  destruct (TextBuilder.scopes tb) as [|sc r] eqn:E; [now rewrite E|].
  destruct (Str.truthy value && negb (TextBuilder.dirty sc)); [|now rewrite E].
  rewrite length_scopes_markDirty.
  destruct (TextBuilder.multiLines sc); simpl; now rewrite E.
Qed.

Lemma length_scopes_textOpt : forall value tb,
  List.length (TextBuilder.scopes (TextBuilder.textOpt value tb)) = List.length (TextBuilder.scopes tb).
Proof.
  intros [v|] tb; simpl; [|reflexivity].
  destruct (Str.truthy v); [apply length_scopes_text | reflexivity].
Qed.

Lemma length_scopes_scopeEnter : forall o tb,
  List.length (TextBuilder.scopes (TextBuilder.scopeEnter o tb)) = S (List.length (TextBuilder.scopes tb)).
Proof.
  intros o tb. unfold TextBuilder.scopeEnter. simpl.
  now rewrite length_scopes_text, length_scopes_textOpt.
Qed.

Lemma length_scopes_scopeLeave : forall o tb,
  List.length (TextBuilder.scopes (TextBuilder.scopeLeave o tb)) = pred (List.length (TextBuilder.scopes tb)).
Proof.
  intros o tb. unfold TextBuilder.scopeLeave.
  rewrite length_scopes_textOpt, length_scopes_text.
  destruct (_ && _); simpl; now destruct (TextBuilder.scopes tb).
Qed.

Lemma separator_some : forall value tb, TextBuilder.scopes tb <> [] ->
  exists tb', TextBuilder.separator value tb = Some tb' /\
              List.length (TextBuilder.scopes tb') = List.length (TextBuilder.scopes tb).
Proof.
  intros value tb Hne. unfold TextBuilder.separator.
  destruct (TextBuilder.scopes tb) as [|sc r] eqn:E; [contradiction|].
  destruct (TextBuilder.dirty sc).
  - eexists; split; [reflexivity|].
    destruct (TextBuilder.multiLines sc); simpl; rewrite length_scopes_textOpt; now rewrite E.
  - eexists; split; [reflexivity|]. now rewrite E.
Qed.

(** ** Writer steps of the serializer *)

Lemma ctxWriter_set : forall tb s, ctxWriter (setCtxWriter tb s) = tb.
Proof. intros tb s. unfold ctxWriter, setCtxWriter. now destruct (onFragmentWriter s). Qed.

Lemma setCtxWriter_set : forall tb tb' s, setCtxWriter tb' (setCtxWriter tb s) = setCtxWriter tb' s.
Proof. intros tb tb' s. unfold setCtxWriter. now destruct (onFragmentWriter s). Qed.

Lemma setCtxWriter_id : forall s, setCtxWriter (ctxWriter s) s = s.
Proof. intros [w wr fw [] nf vt]; reflexivity. Qed.

Lemma writes_refl : forall s, writes s s.
Proof. intros s. exists (ctxWriter s). split; [now rewrite setCtxWriter_id | reflexivity]. Qed.

Lemma writes_trans : forall s1 s2 s3, writes s1 s2 -> writes s2 s3 -> writes s1 s3.
Proof.
  intros s1 s2 s3 (tb & -> & H1) (tb' & -> & H2).
  exists tb'. split; [apply setCtxWriter_set|].
  unfold depth in *. rewrite ctxWriter_set in H2. congruence.
Qed.

Lemma writes_depth : forall s s', writes s s' -> depth s' = depth s.
Proof. intros s s' (tb & -> & H). unfold depth. now rewrite ctxWriter_set. Qed.

Lemma writes_world : forall s s', writes s s' -> world s' = world s.
Proof. intros s s' (tb & -> & _). unfold setCtxWriter. now destruct (onFragmentWriter s). Qed.

Lemma writes_variableTypeMap : forall s s', writes s s' -> variableTypeMap s' = variableTypeMap s.
Proof. intros s s' (tb & -> & _). unfold setCtxWriter. now destruct (onFragmentWriter s). Qed.

Lemma onWriter_writes : forall f s,
  List.length (TextBuilder.scopes (f (ctxWriter s))) = depth s -> writes s (onWriter f s).
Proof. intros f s H. exists (f (ctxWriter s)). split; [reflexivity | exact H]. Qed.

Lemma t_run : forall value s, t value s = (Ok tt, onWriter (TextBuilder.text value) s).
Proof. reflexivity. Qed.

Lemma t_writes : forall value s, writes s (onWriter (TextBuilder.text value) s).
Proof. intros. apply onWriter_writes. apply length_scopes_text. Qed.

Lemma separator_ok : forall value s, 0 < depth s ->
  exists s', separator value s = (Ok tt, s') /\ writes s s'.
Proof.
  intros value s Hd. unfold separator.
  destruct (@separator_some value (ctxWriter s)) as (tb' & -> & Hl).
  { unfold depth in Hd. destruct (TextBuilder.scopes (ctxWriter s)); [simpl in Hd; lia | discriminate]. }
  eexists; split; [reflexivity|]. exists tb'. split; [reflexivity | exact Hl].
Qed.

Lemma bind_writesOk : forall m k, writesOk m -> writesOk k -> writesOk (m ;;; k).
Proof.
  intros m k Hm Hk s Hd. destruct (Hm s Hd) as (s1 & E1 & W1).
  destruct (Hk s1) as (s2 & E2 & W2); [rewrite (writes_depth W1); exact Hd|].
  exists s2. unfold bind. rewrite E1. split; [exact E2 | eapply writes_trans; eauto].
Qed.

Lemma t_writesOk : forall value, writesOk (t value).
Proof. intros value s _. eexists; split; [apply t_run | apply t_writes]. Qed.

Lemma separator_writesOk : forall value, writesOk (separator value).
Proof. intros value s Hd. now apply separator_ok. Qed.

Lemma ret_writesOk : writesOk (ret tt).
Proof. intros s _. exists s. split; [reflexivity | apply writes_refl]. Qed.

Lemma forEach_writesOk : forall (A : Type) (xs : list A) (body : A -> M SerState unit),
  Forall (fun x => writesOk (body x)) xs -> writesOk (forEach xs body).
Proof.
  intros A xs body H. induction H as [|x r Hx Hr IH]; simpl.
  - apply ret_writesOk.
  - now apply bind_writesOk.
Qed.

(** A scope around a writing action succeeds and writes, with or without
    an enclosing scope. *)
Lemma scope_writes : forall o action s, writesOk action ->
  exists s', scope o action s = (Ok tt, s') /\ writes s s'.
Proof.
  intros o action s Ha. unfold scope, bind, modify, finally.
  set (s1 := onWriter (TextBuilder.scopeEnter o) s).
  assert (Hd1 : depth s1 = S (depth s)).
  { unfold s1, depth, onWriter. rewrite ctxWriter_set. apply length_scopes_scopeEnter. }
  destruct (Ha s1) as (s2 & E2 & W2); [lia|]. rewrite E2.
  eexists; split; [reflexivity|].
  destruct W2 as (tb2 & -> & Hl2).
  exists (TextBuilder.scopeLeave o tb2). split.
  - unfold onWriter. rewrite ctxWriter_set, setCtxWriter_set. unfold s1, onWriter.
    now rewrite setCtxWriter_set.
  - rewrite length_scopes_scopeLeave, Hl2, Hd1. reflexivity.
Qed.

Lemma scope_writesOk : forall o action, writesOk action -> writesOk (scope o action).
Proof. intros o action Ha s _. now apply scope_writes. Qed.

(** The loops of [acceptLiteral] as [forEach]. *)
Lemma acceptLiteral_array : forall elems metaType,
  acceptLiteral (JArray elems) metaType =
    scope (TextBuilder.opts TextBuilder.array)
      (forEach elems (fun e => separator (Some ", ") ;;; acceptLiteral e metaType)).
Proof.
  intros elems metaType. simpl. f_equal.
  induction elems as [|e r IH]; simpl; [reflexivity | now rewrite IH].
Qed.

Lemma acceptLiteral_set : forall elems metaType,
  acceptLiteral (JSet elems) metaType =
    scope (TextBuilder.opts TextBuilder.array)
      (forEach elems (fun e => separator (Some ", ") ;;; acceptLiteral e metaType)).
Proof.
  intros elems metaType. simpl. f_equal.
  induction elems as [|e r IH]; simpl; [reflexivity | now rewrite IH].
Qed.

Lemma acceptLiteral_object : forall entries metaType,
  acceptLiteral (JObject entries) metaType =
    scope (TextBuilder.opts TextBuilder.block) (forEach entries (literalEntry metaType)).
Proof.
  intros entries metaType. simpl. f_equal.
  induction entries as [|[k v] r IH]; simpl; [reflexivity | now rewrite IH].
Qed.

Lemma acceptLiteral_map : forall entries metaType,
  acceptLiteral (JMap entries) metaType =
    scope (TextBuilder.opts TextBuilder.block) (forEach entries (literalEntry metaType)).
Proof.
  intros entries metaType. simpl. f_equal.
  induction entries as [|[k v] r IH]; simpl; [reflexivity | now rewrite IH].
Qed.

(** Rendering a literal never fails: it only writes. *)
Lemma acceptLiteral_writes : forall value metaType s,
  exists s', acceptLiteral value metaType s = (Ok tt, s') /\ writes s s'.
Proof.
  intros value. induction value using JsValue_nested_ind; intros metaType s0.
  1-6: (eexists; split; [apply t_run | apply t_writes]).
  - (* a reference met as a literal *)
    apply scope_writes. apply forEach_writesOk.
    repeat constructor; repeat apply bind_writesOk;
      auto using t_writesOk, separator_writesOk.
  - rewrite acceptLiteral_array. apply scope_writes. apply forEach_writesOk.
    eapply Forall_impl; [|exact H]. intros e He. apply bind_writesOk.
    + apply separator_writesOk.
    + intros s _. apply He.
  - rewrite acceptLiteral_set. apply scope_writes. apply forEach_writesOk.
    eapply Forall_impl; [|exact H]. intros e He. apply bind_writesOk.
    + apply separator_writesOk.
    + intros s _. apply He.
  - rewrite acceptLiteral_map. apply scope_writes. apply forEach_writesOk.
    eapply Forall_impl; [|exact H]. intros kv Hkv. unfold literalEntry.
    repeat apply bind_writesOk; auto using t_writesOk, separator_writesOk.
    intros s _. apply Hkv.
  - rewrite acceptLiteral_object. apply scope_writes. apply forEach_writesOk.
    eapply Forall_impl; [|exact H]. intros kv Hkv. unfold literalEntry.
    repeat apply bind_writesOk; auto using t_writesOk, separator_writesOk.
    intros s _. apply Hkv.
Qed.

(** ** The argument list of a field *)




Lemma has_false_get : forall (V : Type) k (m : JsMap.t V), JsMap.has k m = false -> JsMap.get k m = None.
Proof. unfold JsMap.has. intros V k m. destruct (JsMap.get k m); [discriminate | reflexivity]. Qed.


























(** ** Removing the type-name field *)

Lemma removeField_typename : forall this w,
  removeField this "__typename" w = (Throw (Error "__typename cannot be removed"), w).
Proof. reflexivity. Qed.

Lemma removeField_run : forall this field w,
  String.eqb field "__typename" = false ->
  removeField this field w =
    (Ok (List.length (heap w)),
     withHeap (heap w ++ [mkSelectionImpl (opPayload this (OpRemove field)) None None None]) w).
Proof. intros this field w H. unfold removeField. now rewrite H. Qed.



(** ** The proxy methods as operations on the chain *)

Lemma applyOps_alloc : forall ops base w, forallb plainOp ops = true ->
  applyOps base ops w =
    (Ok (fst (allocOps base (heap w) ops)), withHeap (snd (allocOps base (heap w) ops)) w).
Proof.
  induction ops as [|op r IH]; intros base w H; simpl.
  - now destruct w.
  - simpl in H. apply andb_prop in H as [Hop Hr]. unfold bind.
    rewrite (@applyOp_run op base w Hop), (IH _ _ Hr). simpl. reflexivity.
Qed.

Lemma fieldMap_heap : forall l w w', heap w = heap w' ->
  fst (fieldMap l w) = fst (fieldMap l w').
Proof.
  intros l w w' H. unfold fieldMap. rewrite H.
  destruct (nth_error (heap w') l) as [n|]; [|reflexivity].
  destruct (_fieldMap n); [reflexivity|].
  destruct (_buildFieldMap (heap w') l); reflexivity.
Qed.

(** The field map of the node a non-empty sequence of plain operations
    ends in, read in any world that has the heap the sequence builds. *)
Lemma fieldMap_of_ops : forall ops w base st Mb w2,
  wf_heap (heap w) -> base < List.length (heap w) ->
  _schemaType (heap w) base = Some st ->
  _buildFieldMap (heap w) base = Some Mb ->
  forallb plainOp ops = true -> ops <> [] ->
  heap w2 = snd (allocOps base (heap w) ops) ->
  fst (fieldMap (fst (allocOps base (heap w) ops)) w2) = Ok (fold_left (stepOp st) ops Mb).
Proof.
  intros ops w base st Mb w2 Hwf Hb Hst HMb Hplain Hne Hheap.
  destruct (@applyOps_spec ops w base st Mb Hwf Hb Hst HMb Hplain)
    as (n & w' & Hrun & Hbuild & _ & _ & Hcons).
  rewrite (@applyOps_alloc ops base w Hplain) in Hrun.
  injection Hrun as <- <-.
  destruct (Hcons Hne) as [_ Hcell].
  rewrite (@fieldMap_heap _ w2 (withHeap (snd (allocOps base (heap w) ops)) w))
    by (rewrite Hheap; reflexivity).
  now apply fieldMap_build.
Qed.

Lemma lastField_new : forall h p, lastField (h ++ [mkSelectionImpl p None None None]) (List.length h)
  = Some (_field p).
Proof. intros h p. unfold lastField. now rewrite payloadAt_new. Qed.

Lemma plainName_inv : forall x, plainName x = true ->
  String.eqb x "" = false /\ Str.startsWith x "..." = false /\ String.eqb x "__typename" = false
  /\ Str.truthy x = true.
Proof.
  unfold plainName, plainOp. simpl. intros x H.
  apply andb_prop in H as [H H3]. apply andb_prop in H as [H1 H2].
  apply negb_true_iff in H1, H2, H3. repeat split; auto.
  destruct x; [discriminate | reflexivity].
Qed.

(** C10: the field [$alias] binds to is the [_field] of the node it is
    called on, whatever that node is. Called on the node [$omit(x)] returns,
    it reads [x], removes it again and adds it under the alias: the field map
    of the result has the key [y], and the entry under it is the field [x]
    with alias [y]. *)
Theorem C10_alias_after_omit_re_adds :
  forall (w : World) (base : loc) (x y : string),
    wf_heap (heap w) ->
    base < List.length (heap w) ->
    plainName x = true ->
    exists r1 w1 r2 w2 m e,
      method_omit base [JString x] w = (Ok r1, w1) /\
      lastField (heap w1) (targetOf r1) = Some x /\
      option_map _negative (payloadAt (heap w1) (targetOf r1)) = Some true /\
      method_alias (targetOf r1) y w1 = (Ok r2, w2) /\
      fst (fieldMap (targetOf r2) w2) = Ok m /\
      JsMap.get y m = Some e /\
      fs_name e = x /\
      option_map alias (fieldOptionsValue e) = Some (Some y).
Proof.
  intros w base x y Hwf Hb Hx.
  destruct (plainName_inv x Hx) as (Hne & Hdots & Htn & Htruthy).
  destruct (@schemaType_some (heap w) base Hwf Hb) as [st Hst].
  destruct (@buildFieldMap_some (heap w) Hwf base Hb) as [Mb HMb].
  set (o := mkFieldOptionsValue (Some y) JsMap.empty).
  set (ops := [OpRemove x; OpRemove x; OpAdd x None None (Some o)]).
  assert (Hplain : forallb plainOp ops = true).
  { simpl. unfold plainOp. simpl. rewrite Hne, Hdots, Htn. reflexivity. }
  (* $omit(x) *)
  assert (Homit : method_omit base [JString x] w =
            (Ok (ProxyRef (nextProxy w) (List.length (heap w))),
             mkWorld (heap w ++ [mkSelectionImpl (opPayload base (OpRemove x)) None None None])
                     (S (nextProxy w)) (SCHEMA_TYPE_REGISTRY w)
                     (SCHEMA_TYPE_FACTORY_REGISTRY w) (SCHEMA_TYPE_RESOLVING w) (console w))).
  { unfold method_omit, bind. simpl. unfold bind. rewrite (@removeField_run base x w Htn).
    reflexivity. }
  eexists _, _, _, _, _, _. split; [exact Homit|]. cbn [targetOf heap].
  split; [apply lastField_new|].
  split; [now rewrite payloadAt_new|].
  split.
  { unfold method_alias, bind, getState, liftOpt. cbn [heap].
    rewrite lastField_new. cbn [_field opPayload ret]. rewrite Htruthy. cbn [negb].
    unfold rebindLast, bind. rewrite removeField_run by exact Htn. cbn [heap withHeap].
    reflexivity. }
  cbn [targetOf].
  split.
  { eapply (@fieldMap_of_ops ops w base st Mb); auto.
    all: try discriminate. all: try (simpl; reflexivity). }
  split.
  { rewrite get_fold_stepOp. simpl. unfold touches. simpl. rewrite String.eqb_refl. reflexivity. }
  split; reflexivity.
Qed.

Lemma selectScalar_run : forall w sel st p f,
  schemaType (heap w) (targetOf sel) = Some st ->
  isBuiltin p = false -> String.eqb p "schemaType" = false ->
  String.eqb p " $category" = false -> String.eqb p "$on" = false ->
  JsMap.get p (st_fields st) = Some f ->
  isAssociation f = false -> targetTypeName f = None -> isFunction f = false ->
  selectScalar sel p w =
    (Ok (ProxyRef (nextProxy w) (List.length (heap w))),
     mkWorld (heap w ++ [mkSelectionImpl
                           (opPayload (targetOf sel) (OpAdd p None None None)) None None None])
             (S (nextProxy w)) (SCHEMA_TYPE_REGISTRY w)
             (SCHEMA_TYPE_FACTORY_REGISTRY w) (SCHEMA_TYPE_RESOLVING w) (console w)).
Proof.
  intros w sel st p f Hst Hb H1 H2 H3 Hf Ha Ht Hfn.
  unfold selectScalar, bind, getState, liftOpt. rewrite Hst. cbn [ret].
  unfold proxyHandler_get. rewrite H1, H2, Hb, H3, Hf, Ha, Ht, Hfn. reflexivity.
Qed.

(** C7: [$alias("x")] right after selecting the plain scalar field
    ["title"]. On a fresh selection of any schema type the field map is the
    single entry keyed ["x"], whose declared name is ["title"], and the body
    text renders [x: title]. On any node of such a type the resulting field
    map has that entry under ["x"] and nothing under ["title"]. *)
Theorem C7_alias_renames_last_field :
  forall (st : SchemaType) (f : SchemaField),
    JsMap.get "title" (st_fields st) = Some f ->
    isAssociation f = false -> targetTypeName f = None -> isFunction f = false ->
    (forall meta union,
       fst (aliasAfterSelect st meta union "title" "x" emptyWorld)
       = Ok ([("x", aliasedEntry "title" "x" f)], aliasedTitleText))
    /\
    (forall w sel,
       wf_heap (heap w) -> targetOf sel < List.length (heap w) ->
       schemaType (heap w) (targetOf sel) = Some st ->
       exists a w1 b w2 m,
         selectScalar sel "title" w = (Ok a, w1) /\
         method_alias (targetOf a) "x" w1 = (Ok b, w2) /\
         fst (fieldMap (targetOf b) w2) = Ok m /\
         JsMap.get "x" m = Some (aliasedEntry "title" "x" f) /\
         JsMap.get "title" m = None).
Proof.
  intros st f Hf Ha Ht Hfn. split.
  - intros meta union.
    unfold aliasAfterSelect, bind.
    unfold createSelection, bind, newSelectionImpl, newProxy. cbn.
    unfold selectScalar, bind, getState, liftOpt. cbn.
    rewrite Hf, Ha, Ht, Hfn. cbn.
    unfold entryOf. cbn. rewrite Hf. cbn. reflexivity.
  - intros w sel Hwf Hb Hst.
    destruct (@buildFieldMap_some (heap w) Hwf (targetOf sel) Hb) as [Mb HMb].
    set (o := mkFieldOptionsValue (Some "x") JsMap.empty).
    set (ops := [OpAdd "title" None None None; OpRemove "title";
                 OpAdd "title" None None (Some o)]).
    eexists _, _, _, _, _.
    split; [apply (@selectScalar_run w sel st "title" f); auto|].
    cbn [targetOf].
    split.
    { unfold method_alias, bind, getState, liftOpt. cbn [heap].
      rewrite lastField_new. cbn. reflexivity. }
    cbn [targetOf].
    split.
    { eapply (@fieldMap_of_ops ops w (targetOf sel) st Mb); auto.
      all: try discriminate. all: try (simpl; reflexivity). }
    split.
    + rewrite get_fold_stepOp. cbn. unfold entryOf. cbn. rewrite Hf. reflexivity.
    + rewrite get_fold_stepOp. reflexivity.
Qed.

(** ** Frame: what building and evaluating leave alone *)

Lemma directiveWalk_agree : forall h h' bound, wf_heap h -> agree bound h h' ->
  forall fuel l m, l < bound -> directiveWalk fuel h' l m = directiveWalk fuel h l m.
Proof.
  intros h h' bound Hwf Ha. induction fuel as [|f IH]; intros l m Hl; [reflexivity|].
  simpl. rewrite (Ha l Hl).
  destruct (payloadAt h l) as [p|] eqn:Ep; [|reflexivity].
  destruct (_ctx p) as [|prev] eqn:Ec; [reflexivity|].
  pose proof (@wf_prev_lt h l p prev Hwf Ep Ec). apply IH; lia.
Qed.

Lemma buildDirectiveMap_agree : forall h h' bound l, wf_heap h -> agree bound h h' -> l < bound ->
  _buildDirectiveMap h' l = _buildDirectiveMap h l.
Proof.
  intros h h' bound l Hwf Ha Hl. unfold _buildDirectiveMap.
  now apply (@directiveWalk_agree h h' bound Hwf Ha).
Qed.

Lemma frameInv_refl : forall w, frameInv w w.
Proof.
  intros w l n0 H. exists n0. repeat split; auto; left; reflexivity.
Qed.

Lemma frameInv_agree : forall w0 w, frameInv w0 w -> agree (List.length (heap w0)) (heap w0) (heap w).
Proof.
  intros w0 w Hinv l Hl. unfold payloadAt.
  destruct (nth_error (heap w0) l) as [n0|] eqn:E.
  - destruct (Hinv l n0 E) as (n & -> & Hp & _). simpl. now rewrite Hp.
  - apply nth_error_None in E. lia.
Qed.

(** A step that changes nothing of the heap but appended cells. *)
Lemma frameInv_extend : forall w0 w w',
  frameInv w0 w ->
  (forall l, l < List.length (heap w) -> nth_error (heap w') l = nth_error (heap w) l) ->
  frameInv w0 w'.
Proof.
  intros w0 w w' Hinv Hold l n0 E.
  destruct (Hinv l n0 E) as (n & En & Hrest).
  exists n. split; [|exact Hrest].
  rewrite Hold; [exact En|]. apply nth_error_Some. congruence.
Qed.

Lemma frameInv_sameHeap : forall w0 w w', frameInv w0 w -> heap w' = heap w -> frameInv w0 w'.
Proof.
  intros w0 w w' Hinv Hh. eapply frameInv_extend; eauto. intros. now rewrite Hh.
Qed.

Lemma nth_error_replaceNth_eq : forall (A : Type) (l : list A) i x,
  i < List.length l -> nth_error (replaceNth i x l) i = Some x.
Proof.
  induction l as [|y r IH]; intros i x Hi; simpl in Hi; [lia|].
  destruct i; simpl; [reflexivity | apply IH; lia].
Qed.

Lemma nth_error_replaceNth_neq : forall (A : Type) (l : list A) i j x,
  i <> j -> nth_error (replaceNth i x l) j = nth_error l j.
Proof.
  induction l as [|y r IH]; intros i j x Hij; [now destruct i|].
  destruct i, j; simpl; try reflexivity; [contradiction | apply IH; lia].
Qed.








Lemma framed_newProxy : forall l, framed (newProxy l).
Proof. intros l w0 w _ H. eapply frameInv_sameHeap; eauto. Qed.





Lemma cellKept_fill : forall (A : Type) (before fold built : option A),
  cellKept None before fold -> built = fold -> cellKept built before fold.
Proof.
  intros A before fold built [H|[H1 H2]] Hb.
  - right. split; [now symmetry | exact Hb].
  - right. split; [exact H1 | exact Hb].
Qed.

Lemma framed_fieldMap : forall this, framed (fieldMap this).
Proof.
  intros this w0 w Hwf Hinv. unfold fieldMap.
  destruct (nth_error (heap w) this) as [n|] eqn:En; [|exact Hinv].
  destruct (_fieldMap n) as [m|] eqn:Ec; [exact Hinv|].
  destruct (_buildFieldMap (heap w) this) as [m|] eqn:Eb; [|exact Hinv].
  cbn [snd heap withHeap]. unfold setFieldMapCell. rewrite En.
  intros l n0 E0. destruct (Hinv l n0 E0) as (n' & En' & Hp & Hf & Hd).
  cbn [heap withHeap].
  destruct (Nat.eq_dec this l) as [->|Hne].
  - rewrite En in En'. injection En' as <-.
    eexists. split; [apply nth_error_replaceNth_eq; apply nth_error_Some; congruence|].
    cbn [payload _fieldMap _directiveMap]. repeat split; auto.
    rewrite Ec in Hf. apply cellKept_fill; [exact Hf|].
    rewrite <- Eb. apply (@buildFieldMap_agree (heap w0) (heap w) (List.length (heap w0)));
      auto using frameInv_agree.
    apply nth_error_Some. congruence.
  - exists n'. split; [now rewrite nth_error_replaceNth_neq | auto].
Qed.

Lemma framed_directiveMap : forall this, framed (directiveMap this).
Proof.
  intros this w0 w Hwf Hinv. unfold directiveMap.
  destruct (nth_error (heap w) this) as [n|] eqn:En; [|exact Hinv].
  destruct (_directiveMap n) as [m|] eqn:Ec; [exact Hinv|].
  destruct (_buildDirectiveMap (heap w) this) as [m|] eqn:Eb; [|exact Hinv].
  cbn [snd heap withHeap]. unfold setDirectiveMapCell. rewrite En.
  intros l n0 E0. destruct (Hinv l n0 E0) as (n' & En' & Hp & Hf & Hd).
  cbn [heap withHeap].
  destruct (Nat.eq_dec this l) as [->|Hne].
  - rewrite En in En'. injection En' as <-.
    eexists. split; [apply nth_error_replaceNth_eq; apply nth_error_Some; congruence|].
    cbn [payload _fieldMap _directiveMap]. repeat split; auto.
    rewrite Ec in Hd. apply cellKept_fill; [exact Hd|].
    rewrite <- Eb. apply (@buildDirectiveMap_agree (heap w0) (heap w) (List.length (heap w0)));
      auto using frameInv_agree.
    apply nth_error_Some. congruence.
  - exists n'. split; [now rewrite nth_error_replaceNth_neq | auto].
Qed.

(** *** The serializer only fills memo cells *)

Lemma framedS_ret : forall (A : Type) (a : A), framedS (@ret SerState A a).
Proof. intros A a w0 s _ H. exact H. Qed.

Lemma framedS_throw : forall (A : Type) e, framedS (@throw SerState A e).
Proof. intros A e w0 s _ H. exact H. Qed.

Lemma framedS_diverge : forall (A : Type), framedS (@diverge SerState A).
Proof. intros A w0 s _ H. exact H. Qed.

Lemma framedS_getState : framedS (@getState SerState).
Proof. intros w0 s _ H. exact H. Qed.

Lemma framedS_bind : forall (A B : Type) (m : M SerState A) (k : A -> M SerState B),
  framedS m -> (forall a, framedS (k a)) -> framedS (x <- m ;; k x).
Proof.
  intros A B m k Hm Hk w0 s Hwf Hinv. unfold bind.
  specialize (Hm w0 s Hwf Hinv). destruct (m s) as [[a|e|] s1]; simpl in *; auto.
  now apply Hk.
Qed.

Lemma framedS_liftW : forall (A : Type) (m : M World A), framed m -> framedS (liftW m).
Proof.
  intros A m Hm w0 s Hwf Hinv. unfold liftW.
  specialize (Hm w0 (world s) Hwf Hinv). destruct (m (world s)) as [o w']. exact Hm.
Qed.

Lemma framedS_modify : forall f, (forall s, world (f s) = world s) -> framedS (modify f).
Proof. intros f Hf w0 s _ H. simpl. now rewrite Hf. Qed.

Lemma world_setCtxWriter : forall tb s, world (setCtxWriter tb s) = world s.
Proof. intros tb s. unfold setCtxWriter. now destruct (onFragmentWriter s). Qed.

Lemma world_onWriter : forall f s, world (onWriter f s) = world s.
Proof. intros. apply world_setCtxWriter. Qed.

Lemma framedS_t : forall value, framedS (t value).
Proof. intros value. apply framedS_modify. intros s. apply world_onWriter. Qed.

Lemma framedS_separator : forall value, framedS (separator value).
Proof.
  intros value w0 s _ H. unfold separator.
  destruct (TextBuilder.separator value (ctxWriter s)); simpl;
    [now rewrite world_setCtxWriter | exact H].
Qed.

Lemma framedS_finally : forall (A : Type) (m : M SerState A) f,
  framedS m -> (forall s, world (f s) = world s) -> framedS (finally m f).
Proof.
  intros A m f Hm Hf w0 s Hwf Hinv. unfold finally.
  specialize (Hm w0 s Hwf Hinv). destruct (m s) as [o s']. simpl in *. now rewrite Hf.
Qed.

Lemma framedS_scope : forall o action, framedS action -> framedS (scope o action).
Proof.
  intros o action Ha. unfold scope. apply framedS_bind.
  - apply framedS_modify. intros s. apply world_onWriter.
  - intros _. apply framedS_finally; [exact Ha|]. intros s. apply world_onWriter.
Qed.

Lemma framedS_forEach : forall (A : Type) (xs : list A) (body : A -> M SerState unit),
  (forall x, framedS (body x)) -> framedS (forEach xs body).
Proof.
  intros A xs body Hb. induction xs as [|x r IH]; simpl.
  - apply framedS_ret.
  - apply framedS_bind; auto.
Qed.

Lemma framedS_liftE : forall (A : Type) (r : Exn + A), framedS (@liftE SerState A r).
Proof. intros A [e|a]; [apply framedS_throw | apply framedS_ret]. Qed.

Lemma framedS_liftOpt : forall (A : Type) (o : option A), framedS (@liftOpt SerState A o).
Proof. intros A [a|]; [apply framedS_ret | apply framedS_diverge]. Qed.

Lemma framedS_warn : forall msg, framedS (warn msg).
Proof.
  intros msg. apply framedS_liftW. intros w0 w _ H.
  eapply frameInv_sameHeap; eauto.
Qed.

Lemma framedS_acceptLiteral : forall value metaType, framedS (acceptLiteral value metaType).
Proof.
  intros value metaType w0 s _ H.
  destruct (acceptLiteral_writes value metaType s) as (s' & -> & W).
  simpl. now rewrite (@writes_world s s' W).
Qed.

Lemma framedS_hasFieldLoop : forall tm names, framedS (hasFieldLoop tm names).
Proof.
  intros tm. induction names as [|n r IH]; simpl; [apply framedS_ret|].
  destruct (JsMap.get n tm); [apply framedS_ret|].
  apply framedS_bind; [apply framedS_warn | auto].
Qed.

Ltac framedS_step :=
  first
    [ apply framedS_ret | apply framedS_throw | apply framedS_diverge
    | apply framedS_getState | apply framedS_t | apply framedS_separator
    | apply framedS_liftE | apply framedS_liftOpt | apply framedS_acceptLiteral
    | apply framedS_warn | apply framedS_hasFieldLoop
    | (apply framedS_modify; intros ?; reflexivity)
    | (apply framedS_bind; [|intros ?])
    | (apply framedS_scope) | (apply framedS_forEach; intros ?) ].

Lemma framedS_acceptArg : forall tmo meta entry, framedS (acceptArg tmo meta entry).
Proof.
  intros tmo meta [argName arg]. unfold acceptArg. cbn [fst snd].
  framedS_step; [framedS_step|].
  destruct tmo as [tm|].
  - destruct (JsMap.get argName tm) as [typeName|]; [|framedS_step].
    framedS_step; [framedS_step|].
    destruct a0; [|repeat framedS_step].
    destruct arg; try (repeat framedS_step; fail).
    framedS_step.
    { destruct graphqlTypeName as [rt|]; [|framedS_step].
      destruct (_ && _); framedS_step. }
    framedS_step; [framedS_step|].
    framedS_step.
    { destruct (JsMap.get name (variableTypeMap a1)) as [existing|]; [|framedS_step].
      destruct (_ && _); framedS_step. }
    repeat framedS_step.
  - framedS_step; [framedS_step|].
    destruct a0; [|repeat framedS_step].
    destruct arg; try (repeat framedS_step; fail).
    destruct graphqlTypeName as [rt|]; [|framedS_step].
    destruct (Str.truthy rt); repeat framedS_step.
Qed.

Lemma framedS_acceptArgs : forall args tmo meta, framedS (acceptArgs args tmo meta).
Proof.
  intros [args|] tmo meta; unfold acceptArgs; [|apply framedS_ret].
  framedS_step.
  - destruct tmo; framedS_step.
  - destruct a; [|framedS_step].
    framedS_step; [framedS_step|]. apply framedS_scope.
    apply framedS_forEach. intros x. apply framedS_acceptArg.
Qed.

Lemma framedS_acceptDirectives : forall ds, framedS (acceptDirectives ds).
Proof.
  intros [ds|]; unfold acceptDirectives; [|apply framedS_ret].
  apply framedS_forEach. intros da. framedS_step; [framedS_step|].
  apply framedS_acceptArgs.
Qed.

Lemma framedS_registerFragment : forall n old c, framedS (registerFragment n old c).
Proof.
  intros n old c. unfold registerFragment.
  destruct old as [[o|]|]; try (framedS_step; fail).
  destruct (match c with Some c' => negb (SelRef_eqb o c') | None => true end); framedS_step.
Qed.

Lemma framedS_acceptSelection : forall fuel sel, framedS (acceptSelection fuel sel).
Proof.
  induction fuel as [|f IH]; intros sel; simpl; [apply framedS_diverge|].
  destruct sel as [r|]; [|apply framedS_throw].
  framedS_step; [apply framedS_liftW, framed_fieldMap|].
  apply framedS_forEach. intros field.
  framedS_step.
  { destruct (negb (String.eqb (fs_name field) "...")); [|framedS_step].
    framedS_step.
    { destruct (fieldOptionsValue field) as [o|]; [|framedS_step].
      destruct (alias o) as [al|]; [|framedS_step].
      destruct (_ && _); framedS_step. }
    framedS_step; [framedS_step|].
    framedS_step.
    { destruct (argGraphQLTypes field); [|framedS_step].
      framedS_step; [framedS_step|]. framedS_step; [framedS_step|].
      apply framedS_acceptArgs. }
    apply framedS_acceptDirectives. }
  framedS_step; [|framedS_step].
  destruct (childSelections field) as [[|c0 cs]|]; try framedS_step.
  destruct (String.eqb (fs_name field) "...").
  - apply (@framedS_forEach _ (c0 :: cs)). intros c. apply IH.
  - destruct (_ && _).
    + framedS_step; [framedS_step|].
      apply (@framedS_forEach _ (c0 :: cs)). intros c. apply framedS_registerFragment.
    + framedS_step; [framedS_step|]. apply framedS_scope.
      apply (@framedS_forEach _ (c0 :: cs)). intros c. apply IH.
Qed.

Lemma framedS_renderFragments : forall fuel fm rendered,
  framedS (renderFragments fuel fm rendered).
Proof.
  intros fuel. induction fm as [|[name fragment] rest IH]; intros rendered; simpl;
    [apply framedS_ret|].
  framedS_step; [|apply IH].
  destruct fragment as [fr|]; [|framedS_step].
  framedS_step; [framedS_step|]. framedS_step; [framedS_step|].
  framedS_step; [framedS_step|].
  framedS_step; [apply framedS_liftW, framed_directiveMap|].
  framedS_step; [apply (framedS_acceptDirectives (Some a2))|].
  apply framedS_scope. apply framedS_acceptSelection.
Qed.

Lemma framedS_drain : forall rounds fuel rendered, framedS (drain rounds fuel rendered).
Proof.
  induction rounds as [|r IH]; intros fuel rendered; simpl; [apply framedS_diverge|].
  framedS_step; [framedS_step|].
  destruct (_ =? 0)%nat; [framedS_step|].
  framedS_step; [framedS_step|].
  framedS_step; [apply framedS_renderFragments | apply IH].
Qed.

Lemma framed_serialize : forall root, framed (serialize root).
Proof.
  intros root w0 w Hwf Hinv. unfold serialize.
  match goal with |- context [?body (newSerState w)] =>
    assert (Hb : framedS body) end.
  { framedS_step; [apply framedS_liftW, framed_directiveMap|].
    framedS_step; [apply (framedS_acceptDirectives (Some a))|].
    framedS_step; [apply framedS_scope, framedS_acceptSelection | apply framedS_drain]. }
  match goal with |- context [?body (newSerState w)] =>
    specialize (Hb w0 (newSerState w) Hwf Hinv); destruct (body (newSerState w)) as [[u|e|] s]
  end; exact Hb.
Qed.







(** What the getters answer is determined by the frame invariant. *)
Lemma fieldMap_framed_value : forall w0 w base, wf_heap (heap w0) ->
  base < List.length (heap w0) -> frameInv w0 w ->
  fst (fieldMap base w) = fst (fieldMap base w0).
Proof.
  intros w0 w base Hwf Hb Hinv. unfold fieldMap.
  destruct (nth_error (heap w0) base) as [n0|] eqn:E0;
    [|apply nth_error_None in E0; lia].
  destruct (Hinv base n0 E0) as (n & -> & Hp & Hf & _).
  assert (Hbuild : _buildFieldMap (heap w) base = _buildFieldMap (heap w0) base).
  { apply (@buildFieldMap_agree (heap w0) (heap w) (List.length (heap w0)));
      auto using frameInv_agree. }
  rewrite Hbuild.
  destruct Hf as [->|[-> ->]].
  - destruct (_fieldMap n0); [reflexivity|].
    destruct (_buildFieldMap (heap w0) base); reflexivity.
  - destruct (_buildFieldMap (heap w0) base); reflexivity.
Qed.




(** ** Auto-synthesized deferred-variable references *)


Lemma get_Some_In : forall (V : Type) (m : JsMap.t V) k v,
  JsMap.get k m = Some v -> In (k, v) m.
Proof.
  induction m as [|[k0 v0] r IH]; intros k v H; [discriminate|].
  simpl in *. destruct (String.eqb_spec k0 k) as [->|Hne].
  - injection H as ->. now left.
  - right. now apply IH.
Qed.

Lemma get_None_notin : forall (V : Type) (m : JsMap.t V) k,
  JsMap.get k m = None -> ~ In k (JsMap.keys m).
Proof.
  induction m as [|[k0 v0] r IH]; intros k H; simpl in *; [tauto|].
  destruct (String.eqb_spec k0 k) as [->|Hne]; [discriminate|].
  intros [E|Hin]; [contradiction | now apply (IH k)].
Qed.

Lemma set_fresh : forall (V : Type) (m : JsMap.t V) k v,
  ~ In k (JsMap.keys m) -> JsMap.set k v m = m ++ [(k, v)].
Proof.
  induction m as [|[k0 v0] r IH]; intros k v H; simpl in *; [reflexivity|].
  destruct (String.eqb_spec k0 k) as [->|Hne]; [tauto|].
  rewrite IH; [reflexivity | tauto].
Qed.








(** *** Serializing the synthesized bundle *)


Lemma depth_setVariableType : forall n ty s, depth (setVariableType n ty s) = depth s.
Proof. intros n ty [w wr fw [] nf vt]; reflexivity. Qed.




Lemma hasFieldLoop_first_declared : forall tm n r ty s,
  JsMap.get n tm = Some ty -> hasFieldLoop tm (n :: r) s = (Ok true, s).
Proof. intros tm n r ty s H. simpl. now rewrite H. Qed.


(** *** The association call with only a builder callback *)




(** ** The worked selections *)

(** Witness of C1: [id], [title], [title] removed, [id] and [title] again,
    on the root of a post selection. *)
Lemma C1_witness :
  exists m m',
    fst (fieldMapAfter 0 Example.addRemoveAdd Example.postWorld) = Ok m /\
    fst (fieldMapAfter 0 (survivors Example.addRemoveAdd) Example.postWorld) = Ok m' /\
    (forall k, JsMap.get k m =
               if removedAtEnd k Example.addRemoveAdd then None else JsMap.get k m') /\
    (forall op, isAdd op = true -> plainOp op = true ->
       exists m2,
         fst (fieldMapAfter 0 (Example.addRemoveAdd ++ [op]) Example.postWorld) = Ok m2 /\
         JsMap.keys m2 =
           if JsMap.has (opKey op) m then JsMap.keys m else JsMap.keys m ++ [opKey op]).
Proof.
  apply (@C1_field_map_replays_survivors Example.postWorld 0 Example.addRemoveAdd).
  - reflexivity.
  - vm_compute. lia.
  - intros n m Hn Hm. vm_compute in Hn. injection Hn as <-. discriminate.
  - reflexivity.
Defined.

(** C1 as stated fails: after [id], [title], [id] the survivors are
    [title], [id]; the field map keeps [id] first, the replay of the
    survivors has [title] first. *)
Lemma C1_counterexample :
  survivors Example.addIdTitleId = [OpAdd "title" None None None; OpAdd "id" None None None] /\
  okKeys (fst (fieldMapAfter 0 Example.addIdTitleId Example.postWorld)) = Some ["id"; "title"] /\
  okKeys (fst (fieldMapAfter 0 (survivors Example.addIdTitleId) Example.postWorld))
    = Some ["title"; "id"] /\
  fst (fieldMapAfter 0 Example.addIdTitleId Example.postWorld)
    <> fst (fieldMapAfter 0 (survivors Example.addIdTitleId) Example.postWorld).
Proof.
  repeat split; try (vm_compute; reflexivity).
  intros H. apply (f_equal (@okKeys FieldSelection)) in H. vm_compute in H. discriminate.
Qed.

(** C2 at the failing input: [User] declares [label] with an argument and
    inherits from [Named], which declares [label] without. The merged table
    of [User] holds the declaration of [Named] under [label]: the supertype
    overwrote the type's own, more specific declaration. The getter computes
    the table once and answers from the cell afterwards. *)
Theorem C2_merged_fields_supertype_overwrites :
  exists user own inherited,
    fst (Example.declareUser emptyWorld) = Ok user /\
    JsMap.get "label" (st_ownFields user) = Some own /\
    JsMap.get "label" (st_ownFields Example.Named) = Some inherited /\
    argGraphQLTypeMap own = [("locale", "String")] /\
    argGraphQLTypeMap inherited = [] /\
    JsMap.get "label" (st_fields user) = Some inherited /\
    JsMap.keys (st_fields user) = ["label"; "email"] /\
    (forall cell, snd (fieldsGetter user (Some cell)) = Some cell /\
                  fst (fieldsGetter user (Some cell)) = cell) /\
    snd (fieldsGetter user None) = Some (st_fields user).
Proof.
  eexists _, _, _.
  split; [vm_compute; reflexivity|].
  split; [vm_compute; reflexivity|].
  split; [vm_compute; reflexivity|].
  split; [reflexivity|]. split; [reflexivity|].
  split; [vm_compute; reflexivity|]. split; [vm_compute; reflexivity|].
  split; [intros cell; split; reflexivity | reflexivity].
Qed.



(** C5 at the failing inputs. A fragment [F] spread in the body and
    inside the fragment [G] is emitted twice in the fragments block: the
    condition on [renderedFragments.add(name)] always holds. Two different
    selections spread under one name on the same node raise no conflict: the
    second replaces the first, because the previous binding is read once
    before the loop over the children. The paths that work: two spreads
    of [F] in the body emit it once, and a second binding that meets the
    first one already registered in the same context raises the conflict. *)
Theorem C5_named_fragments_emitted_and_checked :
  (exists o, fst (Example.fragmentInBodyAndInFragment emptyWorld) = Ok o /\
             Str.count "fragment F on Post" (Example.ob_fragments o) = 2 /\
             Str.count "fragment G on Post" (Example.ob_fragments o) = 1) /\
  (exists o, fst (Example.twoSelectionsOneName emptyWorld) = Ok o /\
             Str.count "fragment F on Post" (Example.ob_fragments o) = 1 /\
             Str.includes (Example.ob_fragments o) "title" = true /\
             Str.includes (Example.ob_fragments o) "id" = false) /\
  (exists o, fst (Example.fragmentTwiceInBody emptyWorld) = Ok o /\
             Str.count "fragment F on Post" (Example.ob_fragments o) = 1) /\
  fst (Example.twoSelectionsTwoPositions emptyWorld) = Throw (Error "Conflict fragment name F").
Proof.
  split; [|split; [|split]].
  - eexists. split; [vm_compute; reflexivity|]. split; vm_compute; reflexivity.
  - eexists. split; [vm_compute; reflexivity|]. repeat split; vm_compute; reflexivity.
  - eexists. split; [vm_compute; reflexivity|]. vm_compute; reflexivity.
  - vm_compute. reflexivity.
Qed.

(** Witness of C7: the type [Post] of the example schema. *)
Lemma C7_witness :
  fst (aliasAfterSelect
         (mkSchemaType "Post" OBJECT []
            (fold_left declareField [FdName "id"; FdName "title"] JsMap.empty))
         JsMap.empty None "title" "x" emptyWorld)
  = Ok ([("x", aliasedEntry "title" "x"
                 (buildField "title" SCALAR JsMap.empty None None None None))],
        aliasedTitleText).
Proof.
  apply (proj1 (@C7_alias_renames_last_field
                  (mkSchemaType "Post" OBJECT []
                     (fold_left declareField [FdName "id"; FdName "title"] JsMap.empty))
                  (buildField "title" SCALAR JsMap.empty None None None None)
                  eq_refl eq_refl eq_refl eq_refl) JsMap.empty None).
Defined.




(** Witness of C10: [$omit("title").$alias("y")] on the root of a post
    selection. *)
Lemma C10_witness :
  exists r1 w1 r2 w2 m e,
    method_omit 0 [JString "title"] Example.postWorld = (Ok r1, w1) /\
    lastField (heap w1) (targetOf r1) = Some "title" /\
    option_map _negative (payloadAt (heap w1) (targetOf r1)) = Some true /\
    method_alias (targetOf r1) "y" w1 = (Ok r2, w2) /\
    fst (fieldMap (targetOf r2) w2) = Ok m /\
    JsMap.get "y" m = Some e /\
    fs_name e = "title" /\
    option_map alias (fieldOptionsValue e) = Some (Some "y").
Proof.
  apply (@C10_alias_after_omit_re_adds Example.postWorld 0 "title" "y").
  - reflexivity.
  - vm_compute. lia.
  - reflexivity.
Defined.

(** ** Remarks on the worked selections *)

(** A bundle with only an undeclared key: the key is logged, the field is
    written without an argument list. *)
Remark undeclared_only_is_skipped :
  exists o, fst (Example.undeclaredOnly emptyWorld) = Ok (o, ["Unexpected argument: extra"]) /\
            Str.includes (Example.ob_text o) "post {" = true /\
            Str.includes (Example.ob_text o) "extra" = false.
Proof. eexists. split; [vm_compute; reflexivity|]. split; vm_compute; reflexivity. Qed.

(** An undeclared key before a top-level [null]: the heuristic returns
    early on the object value and the argument loop stops at the undeclared
    key. *)
Remark undeclared_key_before_null :
  fst (Example.undeclaredBeforeNull emptyWorld) = Throw (Error "Unknown argument 'extra'").
Proof. vm_compute. reflexivity. Qed.

(** [removeField] guards the name ["__typename"] only: any other name,
    whatever the category of the field it names, yields a negative node. *)
Remark removeField_other_names : forall this field w,
  String.eqb field "__typename" = false ->
  exists n w', removeField this field w = (Ok n, w') /\
               option_map _negative (payloadAt (heap w') n) = Some true /\
               lastField (heap w') n = Some field.
Proof.
  intros this field w H. rewrite (@removeField_run this field w H).
  eexists _, _. split; [reflexivity|]. cbn [heap withHeap].
  split; [now rewrite payloadAt_new | apply lastField_new].
Qed.

(* ================================================================== *)
(** * Further properties *)

(** ** Schema types ([runtime/schema.ts]) *)

Lemma SchemaFieldCategory_eqb_eq : forall a b,
  SchemaFieldCategory_eqb a b = true <-> a = b.
Proof.
  intros a b; split.
  - destruct a, b; simpl; intros H; try discriminate; reflexivity.
  - intros ->; destruct b; reflexivity.
Qed.

Lemma SchemaFieldCategory_eqb_neq : forall a b,
  SchemaFieldCategory_eqb a b = false <-> a <> b.
Proof.
  intros a b; split.
  - intros H E. apply SchemaFieldCategory_eqb_eq in E. congruence.
  - intros H. destruct (SchemaFieldCategory_eqb a b) eqn:E; [|reflexivity].
    apply SchemaFieldCategory_eqb_eq in E. contradiction.
Qed.

Lemma createSchemaType_ok : forall name category superTypes declaredFields w,
  validateType name category (fold_left declareField declaredFields JsMap.empty) superTypes = None ->
  createSchemaType name category superTypes declaredFields w =
    (Ok (mkSchemaType name category superTypes (fold_left declareField declaredFields JsMap.empty)),
     registerSchemaType
       (mkSchemaType name category superTypes (fold_left declareField declaredFields JsMap.empty)) w).
Proof.
  intros name category superTypes declaredFields w H.
  unfold createSchemaType. rewrite H. reflexivity.
Qed.

Lemma createSchemaType_throw : forall name category superTypes declaredFields w e,
  validateType name category (fold_left declareField declaredFields JsMap.empty) superTypes = Some e ->
  createSchemaType name category superTypes declaredFields w = (Throw e, w).
Proof.
  intros name category superTypes declaredFields w e H.
  unfold createSchemaType. rewrite H. reflexivity.
Qed.

Lemma heap_registerSchemaType : forall t w, heap (registerSchemaType t w) = heap w.
Proof.
  intros t w. unfold registerSchemaType.
  destruct (JsMap.get (st_name t) (SCHEMA_TYPE_REGISTRY w)); [|reflexivity].
  destruct (_ <? _)%nat; reflexivity.
Qed.

(** X1: [createSchemaType] accepts every OBJECT and EMBEDDED type; it
    accepts a CONNECTION type exactly when it has no supertypes and declares
    [edges] as a LIST field, and an EDGE type exactly when it has no
    supertypes, declares [node] as a REFERENCE field and declares [cursor],
    if at all, as a SCALAR field. An accepted type is returned with its
    declared table and no node is touched; a rejected one throws an [Error]
    and leaves the registry and everything else as it was. *)
Theorem createSchemaType_shape_rules :
  forall (name : string) (category : SchemaTypeCategory) (superTypes : list SchemaType)
         (declaredFields : list FieldDescriptor) (w : World),
    let declared := fold_left declareField declaredFields JsMap.empty in
    let accepted :=
      match category with
      | OBJECT | EMBEDDED => True
      | CONNECTION =>
          superTypes = [] /\
          exists edges, JsMap.get "edges" declared = Some edges /\ sf_category edges = LIST
      | EDGE =>
          superTypes = [] /\
          (exists node, JsMap.get "node" declared = Some node /\ sf_category node = REFERENCE) /\
          (forall cursor, JsMap.get "cursor" declared = Some cursor -> sf_category cursor = SCALAR)
      end in
    (accepted ->
       exists w', createSchemaType name category superTypes declaredFields w
                  = (Ok (mkSchemaType name category superTypes declared), w')
                  /\ heap w' = heap w)
    /\
    (~ accepted ->
       exists msg, createSchemaType name category superTypes declaredFields w
                   = (Throw (Error msg), w)).
Proof.
  intros name category superTypes declaredFields w declared accepted.
  assert (Hok : validateType name category declared superTypes = None ->
                exists w', createSchemaType name category superTypes declaredFields w
                           = (Ok (mkSchemaType name category superTypes declared), w')
                           /\ heap w' = heap w).
  { intros H. eexists. split.
    - apply createSchemaType_ok. exact H.
    - apply heap_registerSchemaType. }
  assert (Hthrow : forall msg, validateType name category declared superTypes = Some (Error msg) ->
                   exists msg', createSchemaType name category superTypes declaredFields w
                                = (Throw (Error msg'), w)).
  { intros msg H. exists msg. apply createSchemaType_throw. exact H. }
  destruct category; subst accepted; cbv beta iota.
  - split; [intros _; apply Hok; reflexivity | intros H; exfalso; exact (H I)].
  - split; [intros _; apply Hok; reflexivity | intros H; exfalso; exact (H I)].
  - (* CONNECTION *)
    split.
    + intros [Hs [edges [Hg Hc]]]. apply Hok.
      unfold validateType. fold declared. rewrite Hg, Hc, Hs. reflexivity.
    + intros Hn.
      destruct (JsMap.get "edges" declared) as [edges|] eqn:Hg.
      * destruct (SchemaFieldCategory_eqb (sf_category edges) LIST) eqn:Hc.
        -- destruct superTypes as [|s0 ss].
           ++ exfalso. apply Hn. split; [reflexivity|]. exists edges. split; [reflexivity|].
              apply SchemaFieldCategory_eqb_eq. exact Hc.
           ++ eapply Hthrow. unfold validateType. fold declared. rewrite Hg, Hc. reflexivity.
        -- eapply Hthrow. unfold validateType. fold declared. rewrite Hg, Hc. reflexivity.
      * eapply Hthrow. unfold validateType. fold declared. rewrite Hg. reflexivity.
  - (* EDGE *)
    split.
    + intros [Hs [[node [Hg Hc]] Hcur]]. apply Hok.
      unfold validateType. fold declared. rewrite Hg, Hc, Hs. simpl.
      destruct (JsMap.get "cursor" declared) as [cursor|] eqn:Hgc; [|reflexivity].
      rewrite (Hcur cursor eq_refl). reflexivity.
    + intros Hn.
      destruct (JsMap.get "node" declared) as [node|] eqn:Hg.
      * destruct (SchemaFieldCategory_eqb (sf_category node) REFERENCE) eqn:Hc.
        -- destruct (JsMap.get "cursor" declared) as [cursor|] eqn:Hgc.
           ++ destruct (SchemaFieldCategory_eqb (sf_category cursor) SCALAR) eqn:Hcc.
              ** destruct superTypes as [|s0 ss].
                 --- exfalso. apply Hn. split; [reflexivity|]. split.
                     +++ exists node. split; [reflexivity|].
                         apply SchemaFieldCategory_eqb_eq. exact Hc.
                     +++ intros c Hc'. inversion Hc'; subst c.
                         apply SchemaFieldCategory_eqb_eq. exact Hcc.
                 --- eapply Hthrow. unfold validateType. fold declared.
                     rewrite Hg, Hc, Hgc, Hcc. reflexivity.
              ** eapply Hthrow. unfold validateType. fold declared.
                 rewrite Hg, Hc, Hgc, Hcc. reflexivity.
           ++ destruct superTypes as [|s0 ss].
              ** exfalso. apply Hn. split; [reflexivity|]. split.
                 --- exists node. split; [reflexivity|].
                     apply SchemaFieldCategory_eqb_eq. exact Hc.
                 --- intros c Hc'. discriminate.
              ** eapply Hthrow. unfold validateType. fold declared.
                 rewrite Hg, Hc, Hgc. reflexivity.
        -- eapply Hthrow. unfold validateType. fold declared. rewrite Hg, Hc. reflexivity.
      * eapply Hthrow. unfold validateType. fold declared. rewrite Hg. reflexivity.
Qed.

Lemma registry_registerSchemaType : forall t w,
  SCHEMA_TYPE_REGISTRY (registerSchemaType t w) =
    match JsMap.get (st_name t) (SCHEMA_TYPE_REGISTRY w) with
    | None => JsMap.set (st_name t) t (SCHEMA_TYPE_REGISTRY w)
    | Some existing =>
        if (JsMap.size (st_ownFields existing) <? JsMap.size (st_ownFields t))%nat
        then JsMap.set (st_name t) t (SCHEMA_TYPE_REGISTRY w)
        else SCHEMA_TYPE_REGISTRY w
    end.
Proof.
  intros t w. unfold registerSchemaType.
  destruct (JsMap.get (st_name t) (SCHEMA_TYPE_REGISTRY w)); [|reflexivity].
  destruct (_ <? _)%nat; reflexivity.
Qed.

Lemma get_registerSchemaType : forall t w,
  exists registered,
    JsMap.get (st_name t) (SCHEMA_TYPE_REGISTRY (registerSchemaType t w)) = Some registered /\
    JsMap.size (st_ownFields t) <= JsMap.size (st_ownFields registered) /\
    (forall existing, JsMap.get (st_name t) (SCHEMA_TYPE_REGISTRY w) = Some existing ->
       JsMap.size (st_ownFields existing) <= JsMap.size (st_ownFields registered) /\
       (registered = existing \/
        registered = t /\
        JsMap.size (st_ownFields existing) < JsMap.size (st_ownFields t))) /\
    (JsMap.get (st_name t) (SCHEMA_TYPE_REGISTRY w) = None -> registered = t).
Proof.
  intros t w. rewrite registry_registerSchemaType.
  destruct (JsMap.get (st_name t) (SCHEMA_TYPE_REGISTRY w)) as [existing|] eqn:Hg.
  - destruct (JsMap.size (st_ownFields existing) <? JsMap.size (st_ownFields t))%nat eqn:Hlt.
    + apply Nat.ltb_lt in Hlt. exists t. rewrite get_set_eq.
      split; [reflexivity|]. split; [lia|]. split; [|discriminate].
      intros e He. inversion He; subst e. split; [lia|]. right. split; [reflexivity|lia].
    + apply Nat.ltb_ge in Hlt. exists existing. rewrite Hg.
      split; [reflexivity|]. split; [lia|]. split; [|discriminate].
      intros e He. inversion He; subst e. split; [lia|]. left. reflexivity.
  - exists t. rewrite get_set_eq. split; [reflexivity|]. split; [lia|].
    split; [discriminate|]. reflexivity.
Qed.

Lemma get_registerSchemaType_other : forall t w other,
  st_name t <> other ->
  JsMap.get other (SCHEMA_TYPE_REGISTRY (registerSchemaType t w))
  = JsMap.get other (SCHEMA_TYPE_REGISTRY w).
Proof.
  intros t w other Hne. rewrite registry_registerSchemaType.
  destruct (JsMap.get (st_name t) (SCHEMA_TYPE_REGISTRY w)) as [existing|].
  - destruct (_ <? _)%nat; [|reflexivity]. apply get_set_neq. exact Hne.
  - apply get_set_neq. exact Hne.
Qed.

(** X2: a type that [createSchemaType] returned can be resolved by its name
    straight away, without running a factory and without changing anything:
    the answer is the type just created when the name was free, and
    otherwise whichever of the earlier definition and the new one has more
    own fields, the earlier one on a tie. No other name of the registry is
    affected and no node is touched. *)
Theorem createSchemaType_then_resolve :
  forall (name : string) (category : SchemaTypeCategory) (superTypes : list SchemaType)
         (declaredFields : list FieldDescriptor) (w w1 : World) (created : SchemaType),
    createSchemaType name category superTypes declaredFields w = (Ok created, w1) ->
    st_name created = name /\
    heap w1 = heap w /\
    (forall other, other <> name ->
       JsMap.get other (SCHEMA_TYPE_REGISTRY w1) = JsMap.get other (SCHEMA_TYPE_REGISTRY w)) /\
    exists registered,
      resolveRegisteredSchemaType name w1 = (Ok (Some registered), w1) /\
      JsMap.size (st_ownFields created) <= JsMap.size (st_ownFields registered) /\
      (JsMap.get name (SCHEMA_TYPE_REGISTRY w) = None -> registered = created) /\
      (forall existing, JsMap.get name (SCHEMA_TYPE_REGISTRY w) = Some existing ->
         JsMap.size (st_ownFields existing) <= JsMap.size (st_ownFields registered) /\
         (registered = existing \/
          registered = created /\
          JsMap.size (st_ownFields existing) < JsMap.size (st_ownFields created))).
Proof.
  intros name category superTypes declaredFields w w1 created H.
  unfold createSchemaType in H.
  destruct (validateType name category (fold_left declareField declaredFields JsMap.empty)
                         superTypes) as [e|] eqn:Hv; [discriminate|].
  cbv [bind modify ret] in H. inversion H; subst created w1; clear H.
  set (ty := mkSchemaType name category superTypes
               (fold_left declareField declaredFields JsMap.empty)).
  assert (Hn : st_name ty = name) by reflexivity.
  split; [exact Hn|]. split; [apply heap_registerSchemaType|].
  split.
  { intros other Hne. apply get_registerSchemaType_other. rewrite Hn. congruence. }
  destruct (get_registerSchemaType ty w) as [registered [Hg [Hsz [Hex Hnone]]]].
  rewrite Hn in Hg, Hex, Hnone.
  exists registered. split.
  { unfold resolveRegisteredSchemaType. rewrite Hg. reflexivity. }
  split; [exact Hsz|]. split; [exact Hnone|]. exact Hex.
Qed.

(** Witness of X2: declaring [Post] in the empty world. *)
Lemma createSchemaType_then_resolve_witness :
  st_name (mkSchemaType "Post" OBJECT []
             (fold_left declareField [FdName "id"; FdName "title"] JsMap.empty)) = "Post"
  /\ heap (snd (Example.declarePost emptyWorld)) = heap emptyWorld.
Proof.
  destruct (@createSchemaType_then_resolve "Post" OBJECT [] [FdName "id"; FdName "title"]
              emptyWorld (snd (Example.declarePost emptyWorld))
              (mkSchemaType "Post" OBJECT []
                 (fold_left declareField [FdName "id"; FdName "title"] JsMap.empty))
              eq_refl) as [H1 [H2 _]].
  split; [exact H1 | exact H2].
Defined.

(** X3: registering is idempotent, never removes or moves a registered
    name, and never lowers the number of own fields held under a name. *)
Theorem registerSchemaType_idempotent_monotone :
  forall (type : SchemaType) (w : World),
    registerSchemaType type (registerSchemaType type w) = registerSchemaType type w /\
    JsMap.keys (SCHEMA_TYPE_REGISTRY (registerSchemaType type w)) =
      (if JsMap.has (st_name type) (SCHEMA_TYPE_REGISTRY w)
       then JsMap.keys (SCHEMA_TYPE_REGISTRY w)
       else JsMap.keys (SCHEMA_TYPE_REGISTRY w) ++ [st_name type]) /\
    (forall n existing, JsMap.get n (SCHEMA_TYPE_REGISTRY w) = Some existing ->
       exists registered,
         JsMap.get n (SCHEMA_TYPE_REGISTRY (registerSchemaType type w)) = Some registered /\
         JsMap.size (st_ownFields existing) <= JsMap.size (st_ownFields registered)).
Proof.
  intros type w. split; [|split].
  - unfold registerSchemaType at 1.
    destruct (get_registerSchemaType type w) as [registered [Hg [Hsz _]]].
    rewrite Hg.
    destruct (JsMap.size (st_ownFields registered) <? JsMap.size (st_ownFields type))%nat eqn:Hlt;
      [|reflexivity].
    apply Nat.ltb_lt in Hlt. lia.
  - rewrite registry_registerSchemaType. unfold JsMap.has.
    destruct (JsMap.get (st_name type) (SCHEMA_TYPE_REGISTRY w)) as [existing|] eqn:Hg.
    + destruct (_ <? _)%nat; [|reflexivity].
      rewrite keys_set. unfold JsMap.has. rewrite Hg. reflexivity.
    + rewrite keys_set. unfold JsMap.has. rewrite Hg. reflexivity.
  - intros n existing Hn.
    destruct (String.eqb (st_name type) n) eqn:E.
    + apply String.eqb_eq in E. subst n.
      destruct (get_registerSchemaType type w) as [registered [Hg [_ [Hex _]]]].
      exists registered. split; [exact Hg|]. apply (Hex existing Hn).
    + apply String.eqb_neq in E. exists existing.
      rewrite get_registerSchemaType_other by exact E. split; [exact Hn|lia].
Qed.

Lemma derivedFlags_buildField : forall name c am t cn e u,
  derivedFlags name (buildField name c am t cn e u).
Proof. intros. unfold derivedFlags, buildField. simpl. repeat split. Qed.

Lemma declareField_flags : forall m desc,
  (forall key f, JsMap.get key m = Some f -> derivedFlags key f) ->
  forall key f, JsMap.get key (declareField m desc) = Some f -> derivedFlags key f.
Proof.
  intros m desc Hm key f Hg.
  destruct desc as [name | name c u ats t cn e]; simpl in Hg.
  - destruct (String.eqb name key) eqn:E.
    + apply String.eqb_eq in E. subst key. rewrite get_set_eq in Hg.
      inversion Hg; subst f. apply derivedFlags_buildField.
    + apply String.eqb_neq in E. rewrite get_set_neq in Hg by exact E. apply Hm. exact Hg.
  - destruct (String.eqb name key) eqn:E.
    + apply String.eqb_eq in E. subst key. rewrite get_set_eq in Hg.
      inversion Hg; subst f. apply derivedFlags_buildField.
    + apply String.eqb_neq in E. rewrite get_set_neq in Hg by exact E. apply Hm. exact Hg.
Qed.

Lemma declared_flags : forall descs m,
  (forall key f, JsMap.get key m = Some f -> derivedFlags key f) ->
  forall key f, JsMap.get key (fold_left declareField descs m) = Some f -> derivedFlags key f.
Proof.
  induction descs as [|d r IH]; intros m Hm key f Hg; simpl in Hg.
  - apply Hm. exact Hg.
  - apply (IH (declareField m d)); [|exact Hg].
    apply declareField_flags. exact Hm.
Qed.

(** X4: in the declared table of every type [createSchemaType] returns, a
    field sits under its own name, a plural field (LIST or CONNECTION) is an
    association, an association is called as a function, and a field that is
    not a function has no arguments, no target type and category ID or
    SCALAR: it is the kind of field the proxy selects on property access. *)
Theorem createSchemaType_field_flags :
  forall (name : string) (category : SchemaTypeCategory) (superTypes : list SchemaType)
         (declaredFields : list FieldDescriptor) (w w1 : World) (created : SchemaType)
         (key : string) (f : SchemaField),
    createSchemaType name category superTypes declaredFields w = (Ok created, w1) ->
    JsMap.get key (st_ownFields created) = Some f ->
    sf_name f = key /\
    (isPlural f = true -> isAssociation f = true) /\
    (isAssociation f = true -> isFunction f = true) /\
    (isFunction f = false ->
       JsMap.size (argGraphQLTypeMap f) = 0 /\ targetTypeName f = None /\
       isAssociation f = false /\
       (sf_category f = ID \/ sf_category f = SCALAR)).
Proof.
  intros name category superTypes declaredFields w w1 created key f H Hg.
  unfold createSchemaType in H.
  destruct (validateType name category (fold_left declareField declaredFields JsMap.empty)
                         superTypes) as [e|] eqn:Hv; [discriminate|].
  cbv [bind modify ret] in H. inversion H; subst created w1; clear H.
  simpl in Hg.
  assert (Hd : derivedFlags key f).
  { apply (@declared_flags declaredFields JsMap.empty); [|exact Hg].
    intros k f0 H0. discriminate. }
  destruct Hd as [Hn [Hp [Ha Hf]]].
  split; [exact Hn|]. split; [|split].
  - intros Hpl. rewrite Ha, Hpl. apply orb_true_r.
  - intros Has. rewrite Hf, Has. rewrite orb_true_r. reflexivity.
  - intros Hfun. rewrite Hfun in Hf. symmetry in Hf.
    apply orb_false_iff in Hf. destruct Hf as [Hf Ht].
    apply orb_false_iff in Hf. destruct Hf as [Hsz Has].
    apply negb_false_iff in Hsz. apply Nat.eqb_eq in Hsz.
    split; [exact Hsz|]. split.
    { destruct (targetTypeName f); [discriminate|reflexivity]. }
    split; [exact Has|].
    rewrite Has in Ha. symmetry in Ha. apply orb_false_iff in Ha. destruct Ha as [Hr Hpl].
    rewrite Hpl in Hp. symmetry in Hp. apply orb_false_iff in Hp. destruct Hp as [Hl Hc].
    destruct (sf_category f); try discriminate; [left|right]; reflexivity.
Qed.

(** Witness of X4: the field [post] of the query type. *)
Lemma createSchemaType_field_flags_witness :
  sf_name (buildField "post" REFERENCE [("id", "ID!")] (Some "Post") None None None) = "post".
Proof.
  exact (proj1 (@createSchemaType_field_flags "Query" OBJECT [] _ emptyWorld _ _ "post"
                  (buildField "post" REFERENCE [("id", "ID!")] (Some "Post") None None None)
                  (eq_refl : Example.declareQuery emptyWorld = (_, _)) eq_refl)).
Defined.

(** ** Field options ([runtime/field-options.ts]) *)

Lemma buildValue_alias : forall node a ds,
  alias (FieldOptions_buildValue node a ds) =
    match a with
    | Some _ => a
    | None => alias (FieldOptions_buildValue node None JsMap.empty)
    end.
Proof.
  induction node as [|prev IH x|prev IH d args]; intros a ds;
    cbn [FieldOptions_buildValue].
  - destruct a; reflexivity.
  - rewrite (IH _ ds). destruct a; [reflexivity|]. symmetry. exact (IH (Some x) _).
  - rewrite (IH a). destruct a; [reflexivity|]. symmetry. exact (IH None _).
Qed.

Lemma buildValue_directives_alias : forall node a a' ds,
  directives (FieldOptions_buildValue node a ds) = directives (FieldOptions_buildValue node a' ds).
Proof.
  induction node as [|prev IH x|prev IH d args]; intros a a' ds;
    cbn [FieldOptions_buildValue].
  - reflexivity.
  - apply IH.
  - apply IH.
Qed.

Lemma buildValue_directives_get : forall node a ds d,
  JsMap.get d (directives (FieldOptions_buildValue node a ds)) =
    match JsMap.get d ds with
    | Some v => Some v
    | None => JsMap.get d (directives (FieldOptions_buildValue node None JsMap.empty))
    end.
Proof.
  induction node as [|prev IH x|prev IH d0 args]; intros a ds d;
    cbn [FieldOptions_buildValue].
  - cbn [directives]. destruct (JsMap.get d ds); reflexivity.
  - rewrite (IH _ ds). rewrite (IH (Some x) JsMap.empty). reflexivity.
  - rewrite (IH a). rewrite (IH None (if JsMap.has d0 JsMap.empty then _ else _)).
    change (JsMap.has d0 (@JsMap.empty DirectiveArgs)) with false. cbv iota.
    unfold JsMap.has.
    destruct (String.eqb d0 d) eqn:E.
    + apply String.eqb_eq in E. subst d0.
      destruct (JsMap.get d ds) as [v|] eqn:Hg.
      * rewrite Hg. reflexivity.
      * rewrite !get_set_eq. reflexivity.
    + apply String.eqb_neq in E.
      rewrite (@get_set_neq _ JsMap.empty d0 d _ E).
      destruct (JsMap.get d0 ds) as [v0|] eqn:Hg0.
      * reflexivity.
      * rewrite (@get_set_neq _ ds d0 d _ E). reflexivity.
Qed.

(** X5: in the value of a field-options chain the newest call wins: an
    [alias] call sets the alias and leaves the directives alone; a
    [directive] call binds its name to its arguments (an absent or empty
    argument object is stored as [undefined]), whatever an older call of
    the same name said, and leaves the alias and the other directives
    alone. A directive name that starts with ["@"] is refused with an
    [Error] and any other name is accepted. *)
Theorem fieldOptions_newest_call_wins :
  forall (fo : FieldOptions) (a d : string) (args : option Args),
    alias (FieldOptions_value (FoAlias fo a)) = Some a /\
    directives (FieldOptions_value (FoAlias fo a)) = directives (FieldOptions_value fo) /\
    JsMap.get d (directives (FieldOptions_value (FoDirective fo d args)))
      = Some (normalizedArgs args) /\
    alias (FieldOptions_value (FoDirective fo d args)) = alias (FieldOptions_value fo) /\
    (forall d', d' <> d ->
       JsMap.get d' (directives (FieldOptions_value (FoDirective fo d args)))
       = JsMap.get d' (directives (FieldOptions_value fo))) /\
    (Str.startsWith d "@" = true ->
       exists msg, FieldOptions_directive fo d args = inl (Error msg)) /\
    (Str.startsWith d "@" = false ->
       FieldOptions_directive fo d args = inr (FoDirective fo d args)).
Proof.
  intros fo a d args. unfold FieldOptions_value.
  split; [|split; [|split; [|split; [|split; [|split]]]]].
  - cbn [FieldOptions_buildValue]. rewrite buildValue_alias. reflexivity.
  - cbn [FieldOptions_buildValue]. apply buildValue_directives_alias.
  - cbn [FieldOptions_buildValue].
    change (JsMap.has d (@JsMap.empty DirectiveArgs)) with false. cbv iota.
    rewrite buildValue_directives_get, get_set_eq. reflexivity.
  - cbn [FieldOptions_buildValue]. rewrite buildValue_alias. reflexivity.
  - intros d' Hne. cbn [FieldOptions_buildValue].
    change (JsMap.has d (@JsMap.empty DirectiveArgs)) with false. cbv iota.
    rewrite buildValue_directives_get.
    rewrite (@get_set_neq _ JsMap.empty d d' _) by congruence. reflexivity.
  - intros H. unfold FieldOptions_directive. rewrite H. eexists. reflexivity.
  - intros H. unfold FieldOptions_directive. rewrite H. reflexivity.
Qed.

(** ** Argument layout and enum lookup ([runtime/selection.ts]) *)

Lemma isMultiLineLoop_counted : forall vs size,
  forallb countedValue vs = true -> size <= 2 ->
  isMultiLineLoop vs size = inr (2 <? size + List.length vs)%nat.
Proof.
  induction vs as [|v r IH]; intros size Hall Hsz; simpl.
  - rewrite Nat.add_0_r. destruct (2 <? size)%nat eqn:E; [|reflexivity].
    apply Nat.ltb_lt in E. lia.
  - simpl in Hall. apply andb_true_iff in Hall. destruct Hall as [Hv Hr].
    assert (Hstep : (if (2 <? S size)%nat then inr true else isMultiLineLoop r (S size))
                    = (inr (2 <? size + S (List.length r))%nat : Exn + bool)).
    { destruct (2 <? S size)%nat eqn:E.
      - apply Nat.ltb_lt in E.
        assert (H2 : (2 <? size + S (List.length r))%nat = true) by (apply Nat.ltb_lt; lia).
        rewrite H2. reflexivity.
      - apply Nat.ltb_ge in E. rewrite IH by (auto; lia).
        replace (S size + List.length r) with (size + S (List.length r)) by lia.
        reflexivity. }
    unfold countedValue in Hv.
    destruct (typeofObject v) eqn:Ht.
    + simpl in Hv. destruct v; try discriminate. simpl. exact Hstep.
    + exact Hstep.
Qed.

Lemma isMultiLineLoop_composite : forall pre v post size,
  forallb countedValue pre = true -> size + List.length pre <= 2 ->
  typeofObject v = true ->
  isMultiLineLoop (pre ++ v :: post) size =
    match instanceOfParameterRef v with
    | inl e => inl e
    | inr true => if (2 <? S (size + List.length pre))%nat then inr true
                  else isMultiLineLoop post (S (size + List.length pre))
    | inr false => inr true
    end.
Proof.
  induction pre as [|p r IH]; intros v post size Hall Hsz Ht; simpl.
  - rewrite Ht. rewrite Nat.add_0_r. reflexivity.
  - simpl in Hall, Hsz. apply andb_true_iff in Hall. destruct Hall as [Hp Hr].
    assert (E : (2 <? S size)%nat = false) by (apply Nat.ltb_ge; lia).
    assert (Hrec : isMultiLineLoop (r ++ v :: post) (S size) =
                   match instanceOfParameterRef v with
                   | inl e => inl e
                   | inr true => if (2 <? S (size + S (List.length r)))%nat then inr true
                                 else isMultiLineLoop post (S (size + S (List.length r)))
                   | inr false => inr true
                   end).
    { rewrite IH by (auto; lia).
      replace (S size + List.length r) with (size + S (List.length r)) by lia. reflexivity. }
    unfold countedValue in Hp.
    destruct (typeofObject p) eqn:Htp.
    + simpl in Hp. destruct p; try discriminate. simpl. rewrite E. exact Hrec.
    + rewrite E. exact Hrec.
Qed.

(** X6: [isMultiLineJSON] on an argument bundle. When every value is a
    scalar, [undefined] or a deferred-variable reference, the answer is
    whether there are more than two entries, for an object and for an array
    alike. A composite value (array, object, [Map], [Set], [StringValue])
    among the first three entries makes the answer [true]; [null] among the
    first three entries makes the function throw a [TypeError]. *)
Theorem isMultiLineJSON_counts_entries :
  forall (pre post : Args) (k : string) (v : JsValue),
    forallb (fun kv => countedValue (snd kv)) pre = true ->
    isMultiLineJSON (JObject pre) = inr (2 <? List.length pre)%nat /\
    isMultiLineJSON (JArray (List.map snd pre)) = inr (2 <? List.length pre)%nat /\
    (List.length pre <= 2 -> typeofObject v = true -> instanceOfParameterRef v = inr false ->
       isMultiLineJSON (JObject (pre ++ (k, v) :: post)) = inr true) /\
    (List.length pre <= 2 ->
       exists msg, isMultiLineJSON (JObject (pre ++ (k, JNull) :: post)) = inl (TypeError msg)).
Proof.
  intros pre post k v Hall.
  assert (Hall' : forallb countedValue (List.map snd pre) = true).
  { rewrite forallb_forall in *. intros x Hx. apply in_map_iff in Hx.
    destruct Hx as [kv [<- Hin]]. apply Hall. exact Hin. }
  assert (Hlen : List.length (List.map snd pre) = List.length pre) by apply length_map.
  split; [|split; [|split]].
  - simpl. rewrite isMultiLineLoop_counted by (auto; lia). rewrite Hlen. reflexivity.
  - simpl. rewrite isMultiLineLoop_counted by (auto; lia). rewrite Hlen. reflexivity.
  - intros Hle Ht Hi. simpl. rewrite map_app. simpl.
    rewrite isMultiLineLoop_composite by (auto; rewrite ?Hlen; simpl; lia).
    rewrite Hi. reflexivity.
  - intros Hle. simpl. rewrite map_app. simpl.
    rewrite isMultiLineLoop_composite by (auto; rewrite ?Hlen; simpl; lia).
    simpl. eexists. reflexivity.
Qed.

(** Witness of X6: two scalar arguments stay on one line, a nested object
    after them does not. *)
Lemma isMultiLineJSON_counts_entries_witness :
  isMultiLineJSON (JObject [("limit", JNumber 10); ("offset", JNumber 0)]) = inr false.
Proof.
  exact (proj1 (@isMultiLineJSON_counts_entries
                  [("limit", JNumber 10); ("offset", JNumber 0)] [] "filter"
                  (JObject [("tag", JString "a")]) eq_refl)).
Defined.

Lemma stripTypeMarks_app : forall a b,
  Str.stripTypeMarks (a ++ b) = (Str.stripTypeMarks a ++ Str.stripTypeMarks b)%string.
Proof.
  induction a as [|c a IH]; intros b; simpl.
  - reflexivity.
  - rewrite IH. destruct ((_ =? 91)%nat || (_ =? 93)%nat || (_ =? 33)%nat); reflexivity.
Qed.

Lemma append_empty_r : forall s : string, (s ++ "")%string = s.
Proof. induction s as [|c s IH]; simpl; [reflexivity | rewrite IH; reflexivity]. Qed.

Lemma truthy_app_r : forall a b, Str.truthy b = true -> Str.truthy (a ++ b)%string = true.
Proof. intros a b H. destruct a; simpl; [exact H | reflexivity]. Qed.

(** X7: the enum and input metadata of an argument is looked up under its
    protocol type without list brackets and non-null marks: for a bare type
    name [ty], the types [ty!], [[ty]] and [[ty!]!] all find the entry of
    [ty]. Without a metadata table, and for the empty type name, nothing is
    found. *)
Theorem enumMetaType_ignores_list_and_non_null_marks :
  forall (meta : EnumInputMetadata) (ty : string),
    Str.stripTypeMarks ty = ty ->
    enumMetaType (Some meta) (Some (ty ++ "!")%string) = JsMap.get ty meta /\
    enumMetaType (Some meta) (Some ("[" ++ ty ++ "]")%string) = JsMap.get ty meta /\
    enumMetaType (Some meta) (Some ("[" ++ ty ++ "!]!")%string) = JsMap.get ty meta /\
    (Str.truthy ty = true -> enumMetaType (Some meta) (Some ty) = JsMap.get ty meta) /\
    enumMetaType (Some meta) (Some "") = None /\
    enumMetaType None (Some ty) = None /\
    enumMetaType (Some meta) None = None.
Proof.
  intros meta ty Hty. unfold enumMetaType.
  split; [|split; [|split; [|split; [|split; [|split]]]]]; try reflexivity.
  - rewrite truthy_app_r by reflexivity.
    rewrite stripTypeMarks_app, Hty. simpl. rewrite append_empty_r. reflexivity.
  - simpl. rewrite stripTypeMarks_app, Hty. simpl. rewrite append_empty_r. reflexivity.
  - simpl. rewrite stripTypeMarks_app, Hty. simpl. rewrite append_empty_r. reflexivity.
  - intros Ht. rewrite Ht, Hty. reflexivity.
Qed.

(** Witness of X7: the argument type [[Status!]!]. *)
Lemma enumMetaType_ignores_list_and_non_null_marks_witness :
  enumMetaType (Some [("Status", enumMeta "Status")]) (Some "[Status!]!")
  = Some (enumMeta "Status").
Proof.
  exact (proj1 (proj2 (proj2
    (@enumMetaType_ignores_list_and_non_null_marks
       [("Status", enumMeta "Status")] "Status" eq_refl)))).
Defined.

(** ** The text builder ([runtime/text-builder.ts]) *)

Lemma append_assoc : forall a b c : string, ((a ++ b) ++ c)%string = (a ++ (b ++ c))%string.
Proof. induction a as [|x a IH]; intros b c; simpl; [reflexivity | rewrite IH; reflexivity]. Qed.

Lemma length_append : forall a b : string,
  String.length (a ++ b)%string = String.length a + String.length b.
Proof. induction a as [|x a IH]; intros b; simpl; [reflexivity | rewrite IH; reflexivity]. Qed.

Lemma substring_all : forall s : string, String.substring 0 (String.length s) s = s.
Proof. induction s as [|c s IH]; simpl; [reflexivity | rewrite IH; reflexivity]. Qed.

(** A line feed found at [i] splits the string around it. *)
Lemma indexOfLF_split : forall s i,
  Str.indexOfLF s = Some i ->
  s = (String.substring 0 i s ++ Str.LF ++ Str.substringFrom (i + 1) s)%string.
Proof.
  unfold Str.indexOfLF, Str.substringFrom.
  induction s as [|c s IH]; intros i H.
  - simpl in H. discriminate.
  - cbn [String.index] in H. revert H.
    destruct (String.prefix Str.LF (String c s)) eqn:Hp; intros H.
    + inversion H; subst i. unfold Str.LF in Hp. cbn [String.prefix] in Hp.
      destruct (ascii_dec (ascii_of_nat 10) c) as [Hc|Hc]; [|discriminate].
      subst c. simpl. rewrite Nat.sub_0_r, substring_all. reflexivity.
    + destruct (String.index 0 Str.LF s) as [j|] eqn:Hj; [|discriminate].
      inversion H; subst i. simpl.
      rewrite (IH j eq_refl) at 1.
      replace (j + 1) with (S j) by lia. simpl. reflexivity.
Qed.

Lemma indexOfLF_rest_shorter : forall s i,
  Str.indexOfLF s = Some i ->
  String.length (Str.substringFrom (i + 1) s) < String.length s.
Proof.
  intros s i H. pose proof (indexOfLF_split s H) as Hs.
  assert (Hl : String.length s =
               String.length (String.substring 0 i s ++ Str.LF ++ Str.substringFrom (i + 1) s)%string)
    by (rewrite <- Hs; reflexivity).
  rewrite !length_append in Hl. simpl in Hl. lia.
Qed.

Lemma truthy_false_empty : forall s, Str.truthy s = false -> s = "".
Proof. intros [|c s] H; [reflexivity | discriminate]. Qed.

Lemma indent_textLoop : forall fuel remaining tb,
  TextBuilder.indent (TextBuilder.textLoop fuel remaining tb) = TextBuilder.indent tb.
Proof.
  induction fuel as [|fuel IH]; intros remaining tb; cbn [TextBuilder.textLoop].
  - reflexivity.
  - destruct (Str.truthy remaining); [|reflexivity].
    assert (Hf : TextBuilder.indent (TextBuilder.flushIndent tb) = TextBuilder.indent tb).
    { unfold TextBuilder.flushIndent. destruct (TextBuilder.atNewLine tb); reflexivity. }
    destruct (Str.indexOfLF remaining).
    + rewrite IH. simpl. exact Hf.
    + simpl. exact Hf.
Qed.

(** Outside every scope the loop of [text] appends its input unchanged,
    provided it may take as many turns as the input has characters. *)
Lemma textLoop_outside_scopes : forall fuel remaining tb,
  String.length remaining <= fuel ->
  TextBuilder.scopes tb = [] ->
  TextBuilder.result (TextBuilder.textLoop fuel remaining tb)
  = (TextBuilder.result tb ++ remaining)%string.
Proof.
  induction fuel as [|fuel IH]; intros remaining tb Hlen Hsc.
  - destruct remaining; [|simpl in Hlen; lia].
    simpl. rewrite append_empty_r. reflexivity.
  - cbn [TextBuilder.textLoop].
    destruct (Str.truthy remaining) eqn:Ht.
    + assert (Hflush : TextBuilder.result (TextBuilder.flushIndent tb) = TextBuilder.result tb).
      { unfold TextBuilder.flushIndent. rewrite Hsc.
        destruct (TextBuilder.atNewLine tb); [|reflexivity]. simpl. apply append_empty_r. }
      destruct (Str.indexOfLF remaining) as [i|] eqn:Hi.
      * rewrite IH.
        -- cbn [TextBuilder.result TextBuilder.lineBreak TextBuilder.append].
           pose proof (indexOfLF_split remaining Hi) as Hs.
           rewrite Hflush. rewrite !append_assoc. rewrite <- Hs. reflexivity.
        -- pose proof (indexOfLF_rest_shorter remaining Hi). lia.
        -- simpl. rewrite scopes_flushIndent. exact Hsc.
      * unfold TextBuilder.append. simpl. rewrite Hflush. reflexivity.
    + apply truthy_false_empty in Ht. subst remaining.
      rewrite append_empty_r. reflexivity.
Qed.

(** X8: outside every scope, [text] appends its input to the output
    unchanged, line feeds included, whatever the input: nothing is lost,
    nothing is inserted, no scope is opened and the indentation unit stays
    the same. In particular the empty input changes nothing. *)
Theorem text_outside_scopes_appends :
  forall (value : string) (tb : TextBuilder.t),
    TextBuilder.scopes tb = [] ->
    TextBuilder.result (TextBuilder.text value tb) = (TextBuilder.result tb ++ value)%string /\
    TextBuilder.scopes (TextBuilder.text value tb) = [] /\
    TextBuilder.indent (TextBuilder.text value tb) = TextBuilder.indent tb /\
    TextBuilder.text "" tb = tb.
Proof.
  intros value tb Hsc. unfold TextBuilder.text. rewrite Hsc.
  split; [|split; [|split]].
  - apply textLoop_outside_scopes; [lia | exact Hsc].
  - rewrite scopes_textLoop. exact Hsc.
  - apply indent_textLoop.
  - reflexivity.
Qed.

(** Witness of X8: two lines written into a new builder. *)
Lemma text_outside_scopes_appends_witness :
  TextBuilder.result (TextBuilder.text ("a" ++ Str.LF ++ "b") TextBuilder.new)
  = ("" ++ ("a" ++ Str.LF ++ "b"))%string.
Proof.
  exact (proj1 (@text_outside_scopes_appends ("a" ++ Str.LF ++ "b") TextBuilder.new eq_refl)).
Defined.

Lemma oneLine_inv : forall a, oneLine a = true -> Str.truthy a = true /\ Str.indexOfLF a = None.
Proof.
  unfold oneLine; intros a H. apply andb_true_iff in H. destruct H as [H1 H2].
  split; [exact H1|]. destruct (Str.indexOfLF a); [discriminate|reflexivity].
Qed.

Lemma textLoop_oneLine : forall a tb, oneLine a = true ->
  TextBuilder.textLoop (String.length a) a tb = TextBuilder.append a (TextBuilder.flushIndent tb).
Proof.
  intros a tb H. destruct (oneLine_inv a H) as [Ht Hi].
  destruct a as [|c a]; [discriminate|].
  cbn [String.length TextBuilder.textLoop]. rewrite Ht, Hi. reflexivity.
Qed.

(** [text] of a one-line string when the innermost scope, if any, already
    holds something. *)
Lemma text_settled : forall a res nl scs ind,
  oneLine a = true ->
  match scs with [] => True | sc :: _ => TextBuilder.dirty sc = true end ->
  TextBuilder.text a (TextBuilder.mkTextBuilder res nl scs ind) =
    TextBuilder.mkTextBuilder
      ((if nl then res ++ Str.repeat ind (List.length scs) else res) ++ a)%string
      false scs ind.
Proof.
  intros a res nl scs ind Ha Hs. unfold TextBuilder.text. cbn [TextBuilder.scopes].
  assert (Hpre : match scs with
                 | sc :: _ =>
                     if Str.truthy a && negb (TextBuilder.dirty sc)
                     then TextBuilder.markDirty
                            (if TextBuilder.multiLines sc
                             then TextBuilder.lineBreak (TextBuilder.mkTextBuilder res nl scs ind)
                             else TextBuilder.mkTextBuilder res nl scs ind)
                     else TextBuilder.mkTextBuilder res nl scs ind
                 | [] => TextBuilder.mkTextBuilder res nl scs ind
                 end = TextBuilder.mkTextBuilder res nl scs ind).
  { destruct scs as [|sc rest]; [reflexivity|]. rewrite Hs, andb_false_r. reflexivity. }
  rewrite Hpre. rewrite textLoop_oneLine by exact Ha.
  unfold TextBuilder.append, TextBuilder.flushIndent.
  cbn [TextBuilder.atNewLine TextBuilder.result TextBuilder.scopes TextBuilder.indent].
  destruct nl; reflexivity.
Qed.

(** [text] of a one-line string as the first thing written in a scope. *)
Lemma text_clean : forall a res sc rest ind,
  oneLine a = true -> TextBuilder.dirty sc = false ->
  TextBuilder.text a (TextBuilder.mkTextBuilder res false (sc :: rest) ind) =
    TextBuilder.mkTextBuilder
      ((res ++ lineIndent (TextBuilder.multiLines sc) ind (S (List.length rest))) ++ a)%string
      false (dirtied sc :: rest) ind.
Proof.
  intros a res sc rest ind Ha Hd. destruct (oneLine_inv a Ha) as [Ht _].
  unfold TextBuilder.text. cbn [TextBuilder.scopes]. rewrite Ht, Hd. cbn [negb andb].
  rewrite textLoop_oneLine by exact Ha.
  unfold TextBuilder.append, TextBuilder.flushIndent, TextBuilder.markDirty, lineIndent, dirtied.
  destruct (TextBuilder.multiLines sc) eqn:Hml;
    cbn [TextBuilder.lineBreak TextBuilder.atNewLine TextBuilder.result TextBuilder.scopes
         TextBuilder.indent List.length]; rewrite ?Hml.
  - rewrite !append_assoc. reflexivity.
  - rewrite append_empty_r. reflexivity.
Qed.

Lemma separator_dirty : forall value res sc rest ind,
  TextBuilder.dirty sc = true ->
  Str.indexOfLF (separatorText value sc) = None ->
  TextBuilder.separator value (TextBuilder.mkTextBuilder res false (sc :: rest) ind) =
    Some (if TextBuilder.multiLines sc
          then TextBuilder.mkTextBuilder ((res ++ separatorText value sc) ++ Str.LF)%string
                                         true (sc :: rest) ind
          else TextBuilder.mkTextBuilder (res ++ separatorText value sc)%string
                                         false (sc :: rest) ind).
Proof.
  intros value res sc rest ind Hd Hi.
  unfold TextBuilder.separator. cbn [TextBuilder.scopes]. rewrite Hd.
  unfold separatorText in *.
  set (sep := match value with
              | Some v => if Str.truthy v then Some v else TextBuilder.separator_ sc
              | None => TextBuilder.separator_ sc
              end) in *.
  assert (Ht : TextBuilder.textOpt sep (TextBuilder.mkTextBuilder res false (sc :: rest) ind)
               = TextBuilder.mkTextBuilder
                   (res ++ match sep with Some s => s | None => "" end)%string
                   false (sc :: rest) ind).
  { destruct sep as [s|]; cbn [TextBuilder.textOpt].
    - destruct (Str.truthy s) eqn:Hts.
      + rewrite text_settled; [reflexivity | | exact Hd].
        unfold oneLine. rewrite Hts, Hi. reflexivity.
      + apply truthy_false_empty in Hts. subst s. rewrite append_empty_r. reflexivity.
    - rewrite append_empty_r. reflexivity. }
  rewrite Ht. destruct (TextBuilder.multiLines sc); reflexivity.
Qed.

Lemma writeItems_dirty : forall value sc rest ind items res,
  TextBuilder.dirty sc = true ->
  Str.indexOfLF (separatorText value sc) = None ->
  forallb oneLine items = true ->
  writeItems value items (TextBuilder.mkTextBuilder res false (sc :: rest) ind) =
    Some (TextBuilder.mkTextBuilder
            (res ++ joinTail (separatorText value sc
                              ++ lineIndent (TextBuilder.multiLines sc) ind (S (List.length rest)))
                             items)%string
            false (sc :: rest) ind).
Proof.
  intros value sc rest ind items.
  induction items as [|a r IH]; intros res Hd Hi Hall.
  - simpl. rewrite append_empty_r. reflexivity.
  - simpl in Hall. apply andb_true_iff in Hall. destruct Hall as [Ha Hr].
    cbn [writeItems joinTail]. rewrite separator_dirty by assumption.
    unfold lineIndent.
    destruct (TextBuilder.multiLines sc) eqn:Hml.
    + rewrite text_settled by (auto; exact Hd).
      cbn [List.length]. rewrite IH by assumption. unfold lineIndent. rewrite ?Hml.
      f_equal. f_equal. rewrite !append_assoc. reflexivity.
    + rewrite text_settled by (auto; exact Hd).
      rewrite IH by assumption. unfold lineIndent. rewrite ?Hml.
      f_equal. f_equal. rewrite !append_assoc, !append_empty_r. reflexivity.
Qed.

Lemma join_joinTail : forall sep a r, join sep (a :: r) = (a ++ joinTail sep r)%string.
Proof.
  intros sep a r. revert a. induction r as [|b r IH]; intros a.
  - simpl. rewrite append_empty_r. reflexivity.
  - change (join sep (a :: b :: r)) with (a ++ sep ++ join sep (b :: r))%string.
    rewrite IH. reflexivity.
Qed.

Lemma separatorText_dirtied : forall value sc,
  separatorText value (dirtied sc) = separatorText value sc.
Proof. intros. reflexivity. Qed.

(** The layout [writeItems] produces in a scope that is still clean. *)
Lemma writeItems_layout :
  forall (value : option string) (sc : TextBuilder.ScopeState)
         (rest : list TextBuilder.ScopeState) (tb : TextBuilder.t) (items : list string),
    TextBuilder.scopes tb = sc :: rest ->
    TextBuilder.dirty sc = false ->
    TextBuilder.atNewLine tb = false ->
    forallb oneLine items = true ->
    Str.indexOfLF (separatorText value sc) = None ->
    writeItems value items tb =
      Some (TextBuilder.mkTextBuilder
              (TextBuilder.result tb
               ++ layout (separatorText value sc)
                         (lineIndent (TextBuilder.multiLines sc) (TextBuilder.indent tb)
                                     (List.length (TextBuilder.scopes tb)))
                         items)%string
              false
              (match items with [] => sc | _ :: _ => dirtied sc end :: rest)
              (TextBuilder.indent tb)).
Proof.
  intros value sc rest tb items Hsc Hd Hnl Hall Hi.
  destruct tb as [res nl scs ind]. cbn [TextBuilder.scopes TextBuilder.atNewLine
    TextBuilder.result TextBuilder.indent] in *. subst scs nl.
  destruct items as [|a r].
  - simpl. rewrite append_empty_r. reflexivity.
  - simpl in Hall. apply andb_true_iff in Hall. destruct Hall as [Ha Hr].
    cbn [writeItems TextBuilder.separator TextBuilder.scopes]. rewrite Hd.
    rewrite text_clean by assumption.
    rewrite writeItems_dirty; [ | reflexivity | exact Hi | exact Hr].
    cbn [List.length layout]. rewrite join_joinTail.
    f_equal. f_equal. rewrite !append_assoc. reflexivity.
Qed.

(** X9: the items of a scope. Writing one-line items into a scope that
    holds nothing yet, each behind a [separator] call, puts no separator in
    front of the first item and the separator text between consecutive
    items; in a multi-line scope every item, the first one too, starts on a
    line of its own, indented by one unit per open scope, and the separator
    ends the line before. With no item nothing is written and the scope
    stays clean. *)
Theorem separator_lays_out_items :
  forall (value : option string) (sc : TextBuilder.ScopeState)
         (rest : list TextBuilder.ScopeState) (tb : TextBuilder.t) (items : list string),
    TextBuilder.scopes tb = sc :: rest ->
    TextBuilder.dirty sc = false ->
    TextBuilder.atNewLine tb = false ->
    forallb oneLine items = true ->
    Str.indexOfLF (separatorText value sc) = None ->
    writeItems value items tb =
      Some (TextBuilder.mkTextBuilder
              (TextBuilder.result tb
               ++ layout (separatorText value sc)
                         (lineIndent (TextBuilder.multiLines sc) (TextBuilder.indent tb)
                                     (List.length (TextBuilder.scopes tb)))
                         items)%string
              false
              (match items with [] => sc | _ :: _ => dirtied sc end :: rest)
              (TextBuilder.indent tb)).
Proof.
  intros value sc rest tb items Hscopes Hclean Hline Hitems Hsep.
  exact (@writeItems_layout value sc rest tb items Hscopes Hclean Hline Hitems Hsep).
Qed.

(** Witness of X9: two arguments in a single-line argument list that was
    just opened. *)
Lemma separator_lays_out_items_witness :
  option_map TextBuilder.result
    (writeItems None ["a: 1"; "b: 2"]
       (TextBuilder.scopeEnter (TextBuilder.opts TextBuilder.arguments) TextBuilder.new))
  = Some "(a: 1, b: 2".
Proof.
  rewrite (@separator_lays_out_items None
             (TextBuilder.mkScopeState TextBuilder.arguments false (Some ", ") false) []
             (TextBuilder.scopeEnter (TextBuilder.opts TextBuilder.arguments) TextBuilder.new)
             ["a: 1"; "b: 2"] eq_refl eq_refl eq_refl eq_refl eq_refl).
  reflexivity.
Defined.

Lemma dirtied_dirty : forall sc, TextBuilder.dirty sc = true -> dirtied sc = sc.
Proof. intros [ty ml sp d] H; simpl in H; subst; reflexivity. Qed.

(** The builder after a one-line text: the line is open, and the innermost
    scope, if any, holds something. *)
Lemma text_oneLine_shape : forall a tb, oneLine a = true ->
  exists res',
    TextBuilder.text a tb =
      TextBuilder.mkTextBuilder res' false
        (match TextBuilder.scopes tb with
         | [] => []
         | sc :: rest => dirtied sc :: rest
         end)
        (TextBuilder.indent tb).
Proof.
  intros a [res nl scs ind] Ha. destruct (oneLine_inv a Ha) as [Ht _].
  cbn [TextBuilder.scopes TextBuilder.indent].
  destruct scs as [|sc rest].
  - rewrite text_settled by (auto; exact I). eexists. reflexivity.
  - destruct (TextBuilder.dirty sc) eqn:Hd.
    + rewrite text_settled by (auto; exact Hd). rewrite dirtied_dirty by exact Hd.
      eexists. reflexivity.
    + unfold TextBuilder.text. cbn [TextBuilder.scopes]. rewrite Ht, Hd. cbn [negb andb].
      rewrite textLoop_oneLine by exact Ha.
      unfold TextBuilder.append, TextBuilder.flushIndent, TextBuilder.markDirty, dirtied.
      destruct (TextBuilder.multiLines sc) eqn:Hml;
        cbn [TextBuilder.lineBreak TextBuilder.atNewLine TextBuilder.result TextBuilder.scopes
             TextBuilder.indent]; rewrite ?Hml.
      * eexists. reflexivity.
      * destruct nl; eexists; reflexivity.
Qed.

Lemma oneLine_brackets : forall ty,
  oneLine (fst (TextBuilder.SCOPE_BRACKETS ty)) = true /\
  oneLine (snd (TextBuilder.SCOPE_BRACKETS ty)) = true.
Proof. intros []; split; reflexivity. Qed.

(** X10: a scope around its items. [scope] writes the opening bracket,
    lays the items out, and closes with the closing bracket; in a
    multi-line scope the closing bracket stands on a line of its own at the
    indentation of the enclosing scopes, also when the scope is empty.
    Afterwards the scopes are those that were open after the opening
    bracket was written: the scope pushed for the items is popped. *)
Theorem scope_brackets_items :
  forall (ty : TextBuilder.ScopeType) (ml : bool) (tb : TextBuilder.t) (items : list string),
    forallb oneLine items = true ->
    let options := TextBuilder.optsML ty ml in
    let opened := TextBuilder.text (fst (TextBuilder.SCOPE_BRACKETS ty)) tb in
    let sep := match TextBuilder.DEFAULT_SEPARATORS ty with Some s => s | None => "" end in
    exists inside,
      writeItems None items (TextBuilder.scopeEnter options tb) = Some inside /\
      TextBuilder.result (TextBuilder.scopeLeave options inside) =
        (TextBuilder.result opened
         ++ layout sep (lineIndent ml (TextBuilder.indent tb)
                                   (S (List.length (TextBuilder.scopes tb)))) items
         ++ lineIndent ml (TextBuilder.indent tb) (List.length (TextBuilder.scopes tb))
         ++ snd (TextBuilder.SCOPE_BRACKETS ty))%string /\
      TextBuilder.scopes (TextBuilder.scopeLeave options inside) = TextBuilder.scopes opened /\
      TextBuilder.atNewLine (TextBuilder.scopeLeave options inside) = false.
Proof.
  intros ty ml tb items Hall options opened sep.
  destruct (oneLine_brackets ty) as [Hopen Hclose].
  destruct (@text_oneLine_shape _ tb Hopen) as [res' Hop].
  set (outer := match TextBuilder.scopes tb with
                | [] => []
                | sc :: rest => dirtied sc :: rest
                end) in *.
  assert (Hlen : List.length outer = List.length (TextBuilder.scopes tb)).
  { subst outer. destruct (TextBuilder.scopes tb); reflexivity. }
  assert (Hsettled : match outer with [] => True | sc :: _ => TextBuilder.dirty sc = true end).
  { subst outer. destruct (TextBuilder.scopes tb); [exact I | reflexivity]. }
  set (newsc := TextBuilder.mkScopeState ty ml (TextBuilder.DEFAULT_SEPARATORS ty) false).
  assert (Henter : TextBuilder.scopeEnter options tb =
                   TextBuilder.mkTextBuilder res' false (newsc :: outer) (TextBuilder.indent tb)).
  { unfold TextBuilder.scopeEnter, options, TextBuilder.optsML.
    cbn [TextBuilder.so_prefix TextBuilder.so_type TextBuilder.so_multiLines
         TextBuilder.so_separator TextBuilder.textOpt TextBuilder.orElse].
    rewrite Hop. reflexivity. }
  assert (Hsep : separatorText None newsc = sep) by reflexivity.
  assert (Hsepi : Str.indexOfLF (separatorText None newsc) = None).
  { rewrite Hsep. subst sep. destruct ty; reflexivity. }
  eexists. split.
  { rewrite Henter.
    apply (@writeItems_layout None newsc outer
             (TextBuilder.mkTextBuilder res' false (newsc :: outer) (TextBuilder.indent tb))
             items eq_refl eq_refl eq_refl Hall Hsepi). }
  cbn [TextBuilder.result TextBuilder.indent TextBuilder.scopes TextBuilder.multiLines newsc].
  unfold TextBuilder.scopeLeave, options, TextBuilder.optsML.
  cbn [TextBuilder.so_suffix TextBuilder.so_type TextBuilder.so_multiLines TextBuilder.textOpt
       TextBuilder.popScope TextBuilder.result TextBuilder.atNewLine TextBuilder.scopes
       TextBuilder.indent List.tl negb].
  rewrite andb_true_r. rewrite Hsep.
  assert (Hres : TextBuilder.result opened = res').
  { subst opened. rewrite Hop. reflexivity. }
  assert (Hscs : TextBuilder.scopes opened = outer).
  { subst opened. rewrite Hop. reflexivity. }
  rewrite Hres, Hscs.
  cbn [List.length]. rewrite Hlen.
  destruct ml; unfold TextBuilder.popScope, TextBuilder.lineBreak;
    cbn [TextBuilder.result TextBuilder.atNewLine TextBuilder.scopes TextBuilder.indent
         List.tl];
    rewrite text_settled by (auto; exact Hsettled);
    cbn [TextBuilder.result TextBuilder.scopes TextBuilder.atNewLine]; rewrite ?Hlen.
  - split; [|split; reflexivity].
    unfold lineIndent at 2. rewrite !append_assoc. reflexivity.
  - split; [|split; reflexivity].
    unfold lineIndent at 2. rewrite !append_assoc. reflexivity.
Qed.

(** Witness of X10: a single-line array of three items. *)
Lemma scope_brackets_items_witness :
  exists inside,
    writeItems None ["1"; "2"; "3"]
      (TextBuilder.scopeEnter (TextBuilder.optsML TextBuilder.array false) TextBuilder.new)
    = Some inside /\
    TextBuilder.result (TextBuilder.scopeLeave (TextBuilder.optsML TextBuilder.array false) inside)
    = "[1, 2, 3]".
Proof.
  destruct (@scope_brackets_items TextBuilder.array false TextBuilder.new ["1"; "2"; "3"] eq_refl)
    as [inside [H1 [H2 _]]].
  exists inside. split; [exact H1 | exact H2].
Defined.

(** ** The directive fold ([_buildDirectiveMap], [addDirective]) *)

Lemma get_app : forall (V : Type) (m m' : JsMap.t V) k,
  JsMap.get k (m ++ m') =
    match JsMap.get k m with
    | Some v => Some v
    | None => JsMap.get k m'
    end.
Proof.
  induction m as [|[k0 v0] m IH]; intros m' k; simpl.
  - reflexivity.
  - destruct (String.eqb k0 k); [reflexivity | apply IH].
Qed.

Lemma has_app : forall (V : Type) (m m' : JsMap.t V) k,
  JsMap.has k (m ++ m') = JsMap.has k m || JsMap.has k m'.
Proof.
  intros V m m' k. unfold JsMap.has. rewrite get_app.
  destruct (JsMap.get k m); reflexivity.
Qed.

Lemma filter_filter : forall (A : Type) (f g : A -> bool) l,
  List.filter f (List.filter g l) = List.filter (fun x => g x && f x) l.
Proof.
  induction l as [|x l IH]; simpl; [reflexivity|].
  destruct (g x); simpl; [destruct (f x)|]; rewrite IH; reflexivity.
Qed.

Lemma set_absent : forall (V : Type) (m : JsMap.t V) k v,
  JsMap.has k m = false -> JsMap.set k v m = m ++ [(k, v)].
Proof.
  intros V m k v H. apply set_fresh. apply get_None_notin. apply has_false_get. exact H.
Qed.

Lemma shadowedBy_nil_l : forall older, shadowedBy [] older = older.
Proof.
  intros older. unfold shadowedBy. simpl.
  induction older as [|kv r IH]; simpl; [reflexivity | rewrite IH; reflexivity].
Qed.

Lemma shadowedBy_step : forall m0 d a W,
  shadowedBy (if JsMap.has d m0 then m0 else JsMap.set d a m0) W
  = shadowedBy m0 (shadowedBy [(d, a)] W).
Proof.
  intros m0 d a W. unfold shadowedBy.
  cbn [List.app List.filter fst].
  destruct (JsMap.has d m0) eqn:Hd; cbn [negb].
  - f_equal. rewrite filter_filter. apply filter_ext. intros [k v]. cbn [fst].
    unfold JsMap.has at 2. simpl.
    destruct (String.eqb d k) eqn:E.
    + apply String.eqb_eq in E. subst k. rewrite Hd. reflexivity.
    + simpl. reflexivity.
  - rewrite (@set_absent _ m0 d a Hd). rewrite <- app_assoc. f_equal. simpl. f_equal.
    rewrite filter_filter. apply filter_ext. intros [k v]. cbn [fst].
    rewrite has_app. unfold JsMap.has at 2 3. simpl.
    destruct (String.eqb d k); simpl.
    + rewrite orb_true_r. reflexivity.
    + rewrite orb_false_r. reflexivity.
Qed.

Lemma directiveWalk_fuel : forall h, wf_heap h ->
  forall fuel1 fuel2 l m, l < fuel1 -> l < fuel2 ->
    directiveWalk fuel1 h l m = directiveWalk fuel2 h l m.
Proof.
  intros h Hwf. induction fuel1 as [|f1 IH]; intros fuel2 l m H1 H2; [lia|].
  destruct fuel2 as [|f2]; [lia|]. simpl.
  destruct (payloadAt h l) as [p|] eqn:Ep; [|reflexivity].
  destruct (_ctx p) as [| prev] eqn:Ec; [reflexivity|].
  pose proof (@wf_prev_lt h l p prev Hwf Ep Ec). apply IH; lia.
Qed.

Lemma directiveWalk_some : forall h, wf_heap h ->
  forall fuel l m, l < fuel -> l < List.length h -> exists m', directiveWalk fuel h l m = Some m'.
Proof.
  intros h Hwf. induction fuel as [|f IH]; intros l m Hf Hl; [lia|]. simpl.
  destruct (@payloadAt_some h l Hl) as [p Ep]. rewrite Ep.
  destruct (_ctx p) as [|prev] eqn:Ec; [eexists; reflexivity|].
  pose proof (@wf_prev_lt h l p prev Hwf Ep Ec). apply IH; lia.
Qed.

Lemma directiveWalk_acc : forall fuel h l m0,
  directiveWalk fuel h l m0 = option_map (shadowedBy m0) (directiveWalk fuel h l []).
Proof.
  induction fuel as [|f IH]; intros h l m0; [reflexivity|]. simpl.
  destruct (payloadAt h l) as [p|]; [|reflexivity].
  destruct (_directive p) as [d|].
  - change (JsMap.has d (@nil (string * DirectiveArgs))) with false. cbv iota.
    change (JsMap.set d (_directiveArgs p) []) with [(d, _directiveArgs p)].
    destruct (_ctx p) as [|prev].
    + simpl. f_equal. unfold shadowedBy. simpl.
      destruct (JsMap.has d m0) eqn:Hd; simpl.
      * rewrite app_nil_r. reflexivity.
      * apply set_absent. exact Hd.
    + rewrite IH. rewrite (IH h prev [(d, _directiveArgs p)]).
      destruct (directiveWalk f h prev []) as [W|]; [|reflexivity].
      simpl. f_equal. apply shadowedBy_step.
  - destruct (_ctx p) as [|prev].
    + simpl. unfold shadowedBy. simpl. rewrite app_nil_r. reflexivity.
    + apply IH.
Qed.

(** One step of the directive fold: the node's own directive in front of
    what its predecessor yields, without the entry it shadows. *)
Lemma buildDirectiveMap_step : forall h l p prev,
  wf_heap h -> payloadAt h l = Some p -> _ctx p = CtxPrev prev ->
  _buildDirectiveMap h l = option_map (shadowedBy (ownDirective p)) (_buildDirectiveMap h prev).
Proof.
  intros h l p prev Hwf Ep Ec. unfold _buildDirectiveMap at 1. cbn [directiveWalk].
  rewrite Ep, Ec.
  pose proof (@wf_prev_lt h l p prev Hwf Ep Ec) as Hlt.
  assert (Hown : match _directive p with
                 | Some d => if JsMap.has d (@JsMap.empty DirectiveArgs)
                             then JsMap.empty else JsMap.set d (_directiveArgs p) JsMap.empty
                 | None => JsMap.empty
                 end = ownDirective p).
  { unfold ownDirective. destruct (_directive p); reflexivity. }
  rewrite Hown.
  rewrite (@directiveWalk_fuel h Hwf l (S prev) prev) by lia.
  rewrite directiveWalk_acc. reflexivity.
Qed.

Lemma buildDirectiveMap_some : forall h, wf_heap h ->
  forall l, l < List.length h -> exists m, _buildDirectiveMap h l = Some m.
Proof.
  intros h Hwf l Hl. unfold _buildDirectiveMap. apply directiveWalk_some; auto.
Qed.

Lemma nth_error_new : forall (h : Heap) n, nth_error (h ++ [n]) (List.length h) = Some n.
Proof.
  intros h n. rewrite nth_error_app2 by lia. rewrite Nat.sub_diag. reflexivity.
Qed.

Lemma directiveMap_build : forall w l n m,
  nth_error (heap w) l = Some n -> _directiveMap n = None ->
  _buildDirectiveMap (heap w) l = Some m ->
  fst (directiveMap l w) = Ok m.
Proof.
  intros w l n m Hn Hc Hb. unfold directiveMap. rewrite Hn, Hc, Hb. reflexivity.
Qed.

Lemma fieldMap_fresh : forall w l n m,
  nth_error (heap w) l = Some n -> _fieldMap n = None ->
  _buildFieldMap (heap w) l = Some m ->
  fst (fieldMap l w) = Ok m.
Proof.
  intros w l n m Hn Hc Hb. unfold fieldMap. rewrite Hn, Hc, Hb. reflexivity.
Qed.

(** What a node without a field name adds to the two folds: nothing to the
    field map; its directive, if any, in front of the directive map. *)
Lemma fieldless_node : forall h base p,
  wf_heap h -> base < List.length h ->
  _ctx p = CtxPrev base -> _field p = "" ->
  let h' := h ++ [mkSelectionImpl p None None None] in
  wf_heap h' /\
  _buildFieldMap h' (List.length h) = _buildFieldMap h base /\
  _buildDirectiveMap h' (List.length h)
  = option_map (shadowedBy (ownDirective p)) (_buildDirectiveMap h base).
Proof.
  intros h base p Hwf Hb Hc Hf h'.
  assert (Hwf' : wf_heap h').
  { apply wf_alloc; [exact Hwf|]. rewrite Hc. exact Hb. }
  assert (Hp : payloadAt h' (List.length h) = Some p).
  { unfold h'. rewrite payloadAt_new. reflexivity. }
  assert (Hagree : agree (List.length h) h h') by apply agree_app.
  split; [exact Hwf'|]. split.
  - rewrite (@buildFieldMap_unfold h' (List.length h) p Hwf' Hp). rewrite Hc, Hf. simpl.
    apply (@buildFieldMap_agree h h' (List.length h) base Hwf Hagree Hb).
  - rewrite (@buildDirectiveMap_step h' (List.length h) p base Hwf' Hp Hc).
    rewrite (@buildDirectiveMap_agree h h' (List.length h) base Hwf Hagree Hb). reflexivity.
Qed.

Lemma shadowedBy_single : forall d args Mb,
  shadowedBy [(d, args)] Mb
  = (d, args) :: List.filter (fun kv => negb (String.eqb (fst kv) d)) Mb.
Proof.
  intros d args Mb. unfold shadowedBy. simpl. f_equal.
  apply filter_ext. intros [k v]. unfold JsMap.has. simpl.
  rewrite (String.eqb_sym k d). destruct (String.eqb d k); reflexivity.
Qed.

(** X11: the directive map lists the newest directive first. After
    [addDirective(d, args)] on a node, the directive map of the new node is
    the entry [d -> args] followed by the directive map of the node without
    its entry for [d], if it had one: a later directive of the same name
    replaces the earlier one and moves to the front. The field map of the
    new node is that of the node it was built on. *)
Theorem directiveMap_newest_first :
  forall (w : World) (base : loc) (d : string) (args : DirectiveArgs),
    wf_heap (heap w) ->
    base < List.length (heap w) ->
    exists Mb n w',
      _buildDirectiveMap (heap w) base = Some Mb /\
      addDirective base d args w = (Ok n, w') /\
      fst (directiveMap n w')
        = Ok ((d, args) :: List.filter (fun kv => negb (String.eqb (fst kv) d)) Mb) /\
      _buildFieldMap (heap w') n = _buildFieldMap (heap w) base.
Proof.
  intros w base d args Hwf Hb.
  destruct (@buildDirectiveMap_some (heap w) Hwf base Hb) as [Mb HMb].
  set (p := mkPayload (CtxPrev base) false "" None None None (Some d) args).
  destruct (@fieldless_node (heap w) base p Hwf Hb eq_refl eq_refl) as [Hwf' [Hfm Hdm]].
  exists Mb, (List.length (heap w)),
         (withHeap (heap w ++ [mkSelectionImpl p None None None]) w).
  split; [exact HMb|]. split; [reflexivity|]. split.
  - eapply directiveMap_build.
    + cbn [heap withHeap]. apply nth_error_new.
    + reflexivity.
    + cbn [heap withHeap]. rewrite Hdm, HMb. simpl. f_equal.
      apply shadowedBy_single.
  - cbn [heap withHeap]. exact Hfm.
Qed.

(** Witness of X11: a directive on the root of a post selection. *)
Lemma directiveMap_newest_first_witness :
  exists Mb n w',
    _buildDirectiveMap (heap Example.postWorld) 0 = Some Mb /\
    addDirective 0 "live" None Example.postWorld = (Ok n, w') /\
    fst (directiveMap n w')
      = Ok (("live", None) :: List.filter (fun kv => negb (String.eqb (fst kv) "live")) Mb) /\
    _buildFieldMap (heap w') n = _buildFieldMap (heap Example.postWorld) 0.
Proof.
  apply (@directiveMap_newest_first Example.postWorld 0 "live" None).
  - reflexivity.
  - simpl. lia.
Defined.

(** ** [$directive], [$include], [$skip] and [$alias] ([runtime/proxy.ts]) *)

Lemma new_node_directives : forall h base p,
  wf_heap h -> base < List.length h -> _ctx p = CtxPrev base ->
  let h' := h ++ [mkSelectionImpl p None None None] in
  wf_heap h' /\
  _buildDirectiveMap h' (List.length h)
  = option_map (shadowedBy (ownDirective p)) (_buildDirectiveMap h base).
Proof.
  intros h base p Hwf Hb Hc h'.
  assert (Hwf' : wf_heap h').
  { apply wf_alloc; [exact Hwf|]. rewrite Hc. exact Hb. }
  assert (Hp : payloadAt h' (List.length h) = Some p).
  { unfold h'. rewrite payloadAt_new. reflexivity. }
  assert (Hagree : agree (List.length h) h h') by apply agree_app.
  split; [exact Hwf'|].
  rewrite (@buildDirectiveMap_step h' (List.length h) p base Hwf' Hp Hc).
  rewrite (@buildDirectiveMap_agree h h' (List.length h) base Hwf Hagree Hb). reflexivity.
Qed.

Lemma option_map_shadowedBy_nil : forall o : option (JsMap.t DirectiveArgs),
  option_map (shadowedBy []) o = o.
Proof. intros [m|]; simpl; [rewrite shadowedBy_nil_l|]; reflexivity. Qed.

(** X12: [$directive(d, args)] on a node without a last field (the root of
    a selection, or the node a directive was just put on) is a directive of
    the selection: the call returns a proxy of a new node whose directive
    map starts with [d -> args] and whose field map is the one of the node
    it was called on. [$include(c)] and [$skip(c)] are [$directive] with
    the names [include] and [skip] and the arguments [{ if: c }]. *)
Theorem directive_without_last_field :
  forall (w : World) (base : loc) (d : string) (args : DirectiveArgs),
    wf_heap (heap w) ->
    base < List.length (heap w) ->
    lastField (heap w) base = Some "" ->
    exists Mb w',
      _buildDirectiveMap (heap w) base = Some Mb /\
      method_directive base d args w
        = (Ok (ProxyRef (nextProxy w) (List.length (heap w))), w') /\
      fst (directiveMap (List.length (heap w)) w')
        = Ok ((d, args) :: List.filter (fun kv => negb (String.eqb (fst kv) d)) Mb) /\
      _buildFieldMap (heap w') (List.length (heap w)) = _buildFieldMap (heap w) base /\
      (forall c, method_includeSkip "$include" base c
                 = method_directive base "include" (Some [("if", c)])) /\
      (forall c, method_includeSkip "$skip" base c
                 = method_directive base "skip" (Some [("if", c)])).
Proof.
  intros w base d args Hwf Hb Hlast.
  destruct (@buildDirectiveMap_some (heap w) Hwf base Hb) as [Mb HMb].
  set (p := mkPayload (CtxPrev base) false "" None None None (Some d) args).
  destruct (@fieldless_node (heap w) base p Hwf Hb eq_refl eq_refl) as [Hwf' [Hfm Hdm]].
  exists Mb. eexists. split; [exact HMb|]. split.
  { unfold method_directive, bind, getState, liftOpt. rewrite Hlast.
    cbn [ret Str.truthy negb]. unfold addDirective, newSelectionImpl, newProxy.
    cbn [heap withHeap nextProxy]. reflexivity. }
  cbn [heap]. split; [|split; [|split]].
  - eapply directiveMap_build.
    + cbn [heap]. apply nth_error_new.
    + reflexivity.
    + cbn [heap]. fold p. rewrite Hdm, HMb. simpl. f_equal. apply shadowedBy_single.
  - exact Hfm.
  - intros c. reflexivity.
  - intros c. reflexivity.
Qed.

(** Witness of X12: [$directive] on the root of a post selection. *)
Lemma directive_without_last_field_witness :
  exists Mb w',
    _buildDirectiveMap (heap Example.postWorld) 0 = Some Mb /\
    method_directive 0 "include" (Some [("if", JBool true)]) Example.postWorld
      = (Ok (ProxyRef (nextProxy Example.postWorld) (List.length (heap Example.postWorld))), w').
Proof.
  destruct (@directive_without_last_field Example.postWorld 0 "include"
              (Some [("if", JBool true)])) as [Mb [w' [H1 [H2 _]]]].
  - reflexivity.
  - simpl. lia.
  - reflexivity.
  - exists Mb, w'. split; [exact H1 | exact H2].
Defined.

(** X13: [$directive(d, args)] on a node whose last field is the ordinary
    field [x] is a directive of that field: the field is re-added with the
    options [{ directives: { d: args } }] and nothing else, so the entry
    under [x] carries the directive, no alias, no arguments and no child
    selections, whatever the field was selected with. The other keys keep
    their entries and the directive map of the selection is unchanged. *)
Theorem directive_on_last_field :
  forall (w : World) (base : loc) (x d : string) (args : DirectiveArgs),
    wf_heap (heap w) ->
    base < List.length (heap w) ->
    lastField (heap w) base = Some x ->
    plainName x = true ->
    exists Mb r w' m e,
      _buildFieldMap (heap w) base = Some Mb /\
      method_directive base d args w = (Ok r, w') /\
      fst (fieldMap (targetOf r) w') = Ok m /\
      JsMap.get x m = Some e /\
      fs_name e = x /\
      fieldOptionsValue e = Some (mkFieldOptionsValue None [(d, args)]) /\
      fs_args e = None /\
      childSelections e = None /\
      (forall k, k <> x -> JsMap.get k m = JsMap.get k Mb) /\
      _buildDirectiveMap (heap w') (targetOf r) = _buildDirectiveMap (heap w) base.
Proof.
  intros w base x d args Hwf Hb Hlast Hx.
  destruct (plainName_inv x Hx) as (Hne & Hdots & Htn & Htruthy).
  destruct (@schemaType_some (heap w) base Hwf Hb) as [st Hst].
  destruct (@buildFieldMap_some (heap w) Hwf base Hb) as [Mb HMb].
  set (o := mkFieldOptionsValue None [(d, args)]).
  set (ops := [OpRemove x; OpAdd x None None (Some o)]).
  assert (Hplain : forallb plainOp ops = true).
  { simpl. unfold plainOp. simpl. rewrite Hne, Hdots, Htn. reflexivity. }
  set (p1 := opPayload base (OpRemove x)).
  set (p2 := opPayload (List.length (heap w)) (OpAdd x None None (Some o))).
  set (h1 := heap w ++ [mkSelectionImpl p1 None None None]).
  assert (Hrun : method_directive base d args w =
            (Ok (ProxyRef (nextProxy w) (S (List.length (heap w)))),
             mkWorld (h1 ++ [mkSelectionImpl p2 None None None])
                     (S (nextProxy w)) (SCHEMA_TYPE_REGISTRY w)
                     (SCHEMA_TYPE_FACTORY_REGISTRY w) (SCHEMA_TYPE_RESOLVING w) (console w))).
  { unfold method_directive, bind, getState, liftOpt. rewrite Hlast.
    cbn [ret]. rewrite Htruthy. cbn [negb].
    unfold rebindLast, bind. rewrite removeField_run by exact Htn. cbn [heap withHeap].
    unfold addField, newSelectionImpl, newProxy. cbn [heap withHeap nextProxy].
    unfold h1. rewrite length_app. cbn [List.length]. rewrite Nat.add_1_r. reflexivity. }
  assert (Halloc : allocOps base (heap w) ops
                   = (S (List.length (heap w)), h1 ++ [mkSelectionImpl p2 None None None])).
  { simpl. fold p1. fold h1. f_equal. unfold h1. rewrite length_app. simpl. lia. }
  exists Mb. eexists _, _, _, _. split; [exact HMb|]. split; [exact Hrun|].
  cbn [targetOf heap].
  split.
  { pose proof (@fieldMap_of_ops ops w base st Mb
                  (mkWorld (h1 ++ [mkSelectionImpl p2 None None None])
                     (S (nextProxy w)) (SCHEMA_TYPE_REGISTRY w)
                     (SCHEMA_TYPE_FACTORY_REGISTRY w) (SCHEMA_TYPE_RESOLVING w) (console w))
                  Hwf Hb Hst HMb Hplain) as Hfm.
    rewrite Halloc in Hfm. apply Hfm; [discriminate | reflexivity]. }
  split.
  { rewrite get_fold_stepOp. simpl. unfold touches. simpl. rewrite String.eqb_refl. reflexivity. }
  split; [reflexivity|]. split; [reflexivity|]. split; [reflexivity|]. split; [reflexivity|].
  split.
  { intros k Hk. rewrite get_fold_stepOp. simpl. unfold touches. simpl.
    assert (E : String.eqb x k = false) by (apply String.eqb_neq; congruence).
    rewrite E. reflexivity. }
  destruct (@new_node_directives (heap w) base p1 Hwf Hb eq_refl) as [Hwf1 Hd1].
  fold h1 in Hwf1, Hd1.
  assert (Hb1 : List.length (heap w) < List.length h1).
  { unfold h1. rewrite length_app. simpl. lia. }
  destruct (@new_node_directives h1 (List.length (heap w)) p2 Hwf1 Hb1 eq_refl) as [Hwf2 Hd2].
  assert (Hl1 : List.length h1 = S (List.length (heap w))).
  { unfold h1. rewrite length_app. simpl. lia. }
  rewrite Hl1 in Hd2. rewrite Hd2, Hd1.
  change (ownDirective p2) with (@nil (string * DirectiveArgs)).
  change (ownDirective p1) with (@nil (string * DirectiveArgs)).
  rewrite !option_map_shadowedBy_nil. reflexivity.
Qed.

(** Witness of X13: [$directive] after [id] was selected. *)
Lemma directive_on_last_field_witness :
  exists r w', method_directive 1 "live" None postIdWorld = (Ok r, w').
Proof.
  destruct (@directive_on_last_field postIdWorld 1 "id" "live" None)
    as [Mb [r [w' [m [e [_ [H _]]]]]]].
  - reflexivity.
  - simpl. lia.
  - reflexivity.
  - reflexivity.
  - exists r, w'. exact H.
Defined.

(** X14: what [$alias] and the field directives refuse. On a node without
    a last field [$alias] throws and allocates nothing. On a node whose
    last field is [__typename], [$alias], [$directive], [$include] and
    [$skip] all throw the error of [removeField] and allocate nothing: the
    type-name field can be given neither an alias nor a directive. *)
Theorem alias_and_directive_refusals :
  forall (w : World) (base : loc) (last a d : string) (args : DirectiveArgs) (c : JsValue),
    lastField (heap w) base = Some last ->
    (last = "" ->
       method_alias base a w
       = (Throw (Error "$alias requires a preceding field selection"), w)) /\
    (last = "__typename" ->
       method_alias base a w = (Throw (Error "__typename cannot be removed"), w) /\
       method_directive base d args w = (Throw (Error "__typename cannot be removed"), w) /\
       method_includeSkip "$include" base c w
       = (Throw (Error "__typename cannot be removed"), w) /\
       method_includeSkip "$skip" base c w
       = (Throw (Error "__typename cannot be removed"), w)).
Proof.
  intros w base last a d args c Hlast. split.
  - intros ->. unfold method_alias, bind, getState, liftOpt. rewrite Hlast. reflexivity.
  - intros ->.
    assert (Hd : forall d' args',
              method_directive base d' args' w
              = (Throw (Error "__typename cannot be removed"), w)).
    { intros d' args'. unfold method_directive, bind, getState, liftOpt. rewrite Hlast.
      cbn [ret Str.truthy negb]. unfold rebindLast, bind.
      rewrite removeField_typename. reflexivity. }
    split; [|split; [|split]].
    + unfold method_alias, bind, getState, liftOpt. rewrite Hlast.
      cbn [ret Str.truthy negb]. unfold rebindLast, bind.
      rewrite removeField_typename. reflexivity.
    + apply Hd.
    + apply Hd.
    + apply Hd.
Qed.

(** Witness of X14: [$alias] on the root of a post selection. *)
Lemma alias_and_directive_refusals_witness :
  method_alias 0 "x" Example.postWorld
  = (Throw (Error "$alias requires a preceding field selection"), Example.postWorld).
Proof.
  exact (proj1 (@alias_and_directive_refusals Example.postWorld 0 "" "x" "d" None JNull
                  eq_refl) eq_refl).
Defined.

(** ** [$omit] and property access ([runtime/proxy.ts]) *)

Lemma omitLoop_applyOps : forall argArray current w,
  omitLoop current argArray w = applyOps current (List.map OpRemove (stringsOf argArray)) w.
Proof.
  induction argArray as [|v r IH]; intros current w; [reflexivity|].
  destruct v; simpl; try apply IH.
  unfold bind. destruct (removeField current s w) as [[n| |] w']; try reflexivity.
  apply IH.
Qed.

Lemma get_fold_delete : forall (V : Type) names (m : JsMap.t V) k,
  JsMap.get k (fold_left (fun m x => JsMap.delete x m) names m)
  = if omitted names k then None else JsMap.get k m.
Proof.
  induction names as [|x r IH]; intros m k; simpl; [reflexivity|].
  rewrite IH. unfold omitted. simpl.
  destruct (String.eqb k x) eqn:E.
  - apply String.eqb_eq in E. subst x. rewrite get_delete_eq.
    destruct (existsb (String.eqb k) r); reflexivity.
  - simpl. rewrite get_delete_neq; [reflexivity|].
    apply String.eqb_neq in E. congruence.
Qed.

Lemma keys_fold_delete : forall (V : Type) names (m : JsMap.t V),
  JsMap.keys (fold_left (fun m x => JsMap.delete x m) names m)
  = List.filter (fun k => negb (omitted names k)) (JsMap.keys m).
Proof.
  induction names as [|x r IH]; intros m; simpl.
  - unfold omitted. simpl. induction (JsMap.keys m) as [|k ks IHk]; simpl;
      [reflexivity | rewrite <- IHk; reflexivity].
  - rewrite IH, keys_delete, filter_filter. apply filter_ext. intros k.
    unfold omitted. simpl. destruct (String.eqb k x); reflexivity.
Qed.

Lemma fold_stepOp_removes : forall st names m,
  fold_left (stepOp st) (List.map OpRemove names) m
  = fold_left (fun m x => JsMap.delete x m) names m.
Proof.
  induction names as [|x r IH]; intros m; simpl; [reflexivity | apply IH].
Qed.

(** X15: [$omit(...names)] with ordinary field names. Arguments that are
    not strings are ignored. In the field map of the result exactly the
    keys named are gone: the other keys keep their entries and their order.
    A field selected under an alias sits under the alias, so naming the
    field does not remove it. *)
Theorem omit_removes_the_named_keys :
  forall (w : World) (base : loc) (argArray : list JsValue),
    wf_heap (heap w) ->
    base < List.length (heap w) ->
    stringsOf argArray <> [] ->
    forallb plainName (stringsOf argArray) = true ->
    exists Mb r w' m,
      _buildFieldMap (heap w) base = Some Mb /\
      method_omit base argArray w = (Ok r, w') /\
      fst (fieldMap (targetOf r) w') = Ok m /\
      JsMap.keys m
        = List.filter (fun k => negb (omitted (stringsOf argArray) k)) (JsMap.keys Mb) /\
      (forall k, JsMap.get k m
                 = if omitted (stringsOf argArray) k then None else JsMap.get k Mb).
Proof.
  intros w base argArray Hwf Hb Hne Hplain.
  destruct (@schemaType_some (heap w) base Hwf Hb) as [st Hst].
  destruct (@buildFieldMap_some (heap w) Hwf base Hb) as [Mb HMb].
  set (ops := List.map OpRemove (stringsOf argArray)).
  assert (Hops : forallb plainOp ops = true).
  { unfold ops. rewrite forallb_forall in *. intros op Hin.
    apply in_map_iff in Hin. destruct Hin as [x [<- Hx]]. apply Hplain. exact Hx. }
  assert (Hopsne : ops <> []).
  { unfold ops. destruct (stringsOf argArray); [congruence | discriminate]. }
  exists Mb. eexists _, _, _. split; [exact HMb|]. split.
  { unfold method_omit, bind. rewrite omitLoop_applyOps. fold ops.
    rewrite (@applyOps_alloc ops base w Hops). unfold newProxy. cbn [heap withHeap]. reflexivity. }
  cbn [targetOf]. split.
  { apply (@fieldMap_of_ops ops w base st Mb); auto. }
  unfold ops. rewrite fold_stepOp_removes. split.
  - apply keys_fold_delete.
  - intros k. apply get_fold_delete.
Qed.

(** Witness of X15: [$omit("id", 1, "title")] after [id] was selected. *)
Lemma omit_removes_the_named_keys_witness :
  exists r w', method_omit 1 [JString "id"; JNumber 1; JString "title"] postIdWorld = (Ok r, w').
Proof.
  destruct (@omit_removes_the_named_keys postIdWorld 1
              [JString "id"; JNumber 1; JString "title"])
    as [Mb [r [w' [m [_ [H _]]]]]].
  - reflexivity.
  - simpl. lia.
  - discriminate.
  - reflexivity.
  - exists r, w'. exact H.
Defined.

Lemma size_set : forall (V : Type) (m : JsMap.t V) k v,
  JsMap.size (JsMap.set k v m) = if JsMap.has k m then JsMap.size m else S (JsMap.size m).
Proof.
  intros V m k v. unfold JsMap.size.
  rewrite <- (length_map fst (JsMap.set k v m)), <- (length_map fst m).
  fold (JsMap.keys (JsMap.set k v m)). fold (JsMap.keys m). rewrite keys_set.
  destruct (JsMap.has k m); [reflexivity|]. rewrite length_app. simpl. lia.
Qed.

Lemma set_set_same : forall (V : Type) (m : JsMap.t V) k v,
  JsMap.set k v (JsMap.set k v m) = JsMap.set k v m.
Proof.
  induction m as [|[k0 v0] m IH]; intros k v; simpl.
  - rewrite String.eqb_refl. reflexivity.
  - destruct (String.eqb k0 k) eqn:E; simpl.
    + rewrite String.eqb_refl. reflexivity.
    + rewrite E, IH. reflexivity.
Qed.

Lemma has_set_eq : forall (V : Type) (m : JsMap.t V) k v, JsMap.has k (JsMap.set k v m) = true.
Proof. intros. unfold JsMap.has. rewrite get_set_eq. reflexivity. Qed.

Lemma schemaType_new : forall h base p,
  wf_heap h -> base < List.length h -> _ctx p = CtxPrev base ->
  _schemaType (h ++ [mkSelectionImpl p None None None]) (List.length h) = _schemaType h base.
Proof.
  intros h base p Hwf Hb Hc.
  assert (Hwf' : wf_heap (h ++ [mkSelectionImpl p None None None])).
  { apply wf_alloc; [exact Hwf|]. rewrite Hc. exact Hb. }
  rewrite (@schemaType_prev _ (List.length h) p base Hwf' (payloadAt_new h _) Hc).
  apply (@schemaType_agree h _ (List.length h) base Hwf (agree_app h _) Hb).
Qed.

(** X16: selecting a plain scalar field by property access. The field map
    of the result is the field map of the selection with the entry of the
    field set under its name: the field is in the map, the map grew by one
    exactly when the field was not selected before, and selecting the same
    field again gives the same field map. *)
Theorem selecting_a_scalar_sets_its_key :
  forall (w : World) (sel : SelRef) (st : SchemaType) (p : string) (f : SchemaField),
    wf_heap (heap w) ->
    targetOf sel < List.length (heap w) ->
    schemaType (heap w) (targetOf sel) = Some st ->
    JsMap.get p (st_fields st) = Some f ->
    isFunction f = false -> isAssociation f = false -> targetTypeName f = None ->
    plainName p = true ->
    intercepted p = false ->
    exists Mb a w1 m b w2,
      _buildFieldMap (heap w) (targetOf sel) = Some Mb /\
      selectScalar sel p w = (Ok a, w1) /\
      fst (fieldMap (targetOf a) w1) = Ok m /\
      m = JsMap.set p (scalarEntry p f) Mb /\
      JsMap.has p m = true /\
      JsMap.size m = (if JsMap.has p Mb then JsMap.size Mb else S (JsMap.size Mb)) /\
      selectScalar a p w1 = (Ok b, w2) /\
      fst (fieldMap (targetOf b) w2) = Ok m.
Proof.
  intros w sel st p f Hwf Hb Hst Hf Hfun Hassoc Htarget Hp Hint.
  unfold intercepted in Hint.
  apply orb_false_iff in Hint. destruct Hint as [Hint Hon].
  apply orb_false_iff in Hint. destruct Hint as [Hint Hbuiltin].
  apply orb_false_iff in Hint. destruct Hint as [Hsch Hcat].
  destruct (@buildFieldMap_some (heap w) Hwf (targetOf sel) Hb) as [Mb HMb].
  set (op := OpAdd p None None None).
  assert (Hplain : plainOp op = true).
  { destruct (plainName_inv p Hp) as (Hne & Hdots & _ & _).
    unfold plainOp, op. simpl. rewrite Hne, Hdots. reflexivity. }
  set (n1 := mkSelectionImpl (opPayload (targetOf sel) op) None None None).
  set (w1 := mkWorld (heap w ++ [n1]) (S (nextProxy w)) (SCHEMA_TYPE_REGISTRY w)
                     (SCHEMA_TYPE_FACTORY_REGISTRY w) (SCHEMA_TYPE_RESOLVING w) (console w)).
  assert (Hrun1 : selectScalar sel p w = (Ok (ProxyRef (nextProxy w) (List.length (heap w))), w1)).
  { exact (@selectScalar_run w sel st p f Hst Hbuiltin Hsch Hcat Hon Hf Hassoc Htarget Hfun). }
  assert (Hwf1 : wf_heap (heap w1)).
  { apply wf_alloc; [exact Hwf | exact Hb]. }
  assert (Hst1 : schemaType (heap w1) (List.length (heap w)) = Some st).
  { unfold schemaType. cbn [heap w1]. unfold n1.
    rewrite (@schemaType_new (heap w) (targetOf sel) (opPayload (targetOf sel) op)
               Hwf Hb eq_refl). exact Hst. }
  set (n2 := mkSelectionImpl (opPayload (List.length (heap w)) op) None None None).
  set (w2 := mkWorld (heap w1 ++ [n2]) (S (nextProxy w1)) (SCHEMA_TYPE_REGISTRY w1)
                     (SCHEMA_TYPE_FACTORY_REGISTRY w1) (SCHEMA_TYPE_RESOLVING w1) (console w1)).
  assert (Hrun2 : selectScalar (ProxyRef (nextProxy w) (List.length (heap w))) p w1
                  = (Ok (ProxyRef (nextProxy w1) (List.length (heap w1))), w2)).
  { exact (@selectScalar_run w1 (ProxyRef (nextProxy w) (List.length (heap w))) st p f
             Hst1 Hbuiltin Hsch Hcat Hon Hf Hassoc Htarget Hfun). }
  assert (Hentry : entryOf st (opPayload 0 op) = scalarEntry p f).
  { unfold entryOf, scalarEntry. cbn [opPayload op _field _args _fieldOptionsValue _child].
    rewrite Hf. reflexivity. }
  assert (Hplain1 : forallb plainOp [op] = true) by (simpl; rewrite Hplain; reflexivity).
  assert (Hplain2 : forallb plainOp [op; op] = true) by (simpl; rewrite Hplain; reflexivity).
  pose proof (@fieldMap_of_ops [op] w (targetOf sel) st Mb w1 Hwf Hb Hst HMb Hplain1) as Hfm1.
  pose proof (@fieldMap_of_ops [op; op] w (targetOf sel) st Mb w2 Hwf Hb Hst HMb Hplain2) as Hfm2.
  cbn [allocOps fst snd] in Hfm1, Hfm2.
  cbn [fold_left] in Hfm1, Hfm2. unfold stepOp in Hfm1, Hfm2.
  cbn [isAdd op opKey] in Hfm1, Hfm2. rewrite Hentry in Hfm1, Hfm2.
  rewrite set_set_same in Hfm2.
  exists Mb. eexists _, _, _, _, _.
  split; [exact HMb|]. split; [exact Hrun1|]. cbn [targetOf].
  split; [apply Hfm1; [discriminate | reflexivity]|].
  split; [reflexivity|]. split; [apply has_set_eq|]. split; [apply size_set|].
  split; [exact Hrun2|]. cbn [targetOf].
  apply Hfm2; [discriminate | reflexivity].
Qed.

(** Witness of X16: [title] selected after [id]. *)
Lemma selecting_a_scalar_sets_its_key_witness :
  exists a w1, selectScalar (RawRef 1) "title" postIdWorld = (Ok a, w1).
Proof.
  destruct (@selecting_a_scalar_sets_its_key postIdWorld (RawRef 1)
              (mkSchemaType "Post" OBJECT []
                 (fold_left declareField [FdName "id"; FdName "title"] JsMap.empty))
              "title" (buildField "title" SCALAR JsMap.empty None None None None))
    as [Mb [a [w1 [m [b [w2 [_ [H _]]]]]]]]; try reflexivity.
  - simpl. lia.
  - exists a, w1. exact H.
Defined.

(** ** Spreads ([addEmbeddable], [$on], and the spread branch of the fold) *)

Lemma startsWith_dots_nonempty : forall x, Str.startsWith x "..." = true -> String.eqb x "" = false.
Proof. intros [|c x] H; [discriminate | reflexivity]. Qed.

Lemma startsWith_dots_not_typename : forall x,
  Str.startsWith x "..." = true -> String.eqb x "__typename" = false.
Proof.
  intros [|c x] H; [discriminate|].
  unfold Str.startsWith in H. cbn [String.prefix] in H.
  destruct (ascii_dec "." c) as [<-|Hc]; [reflexivity | discriminate].
Qed.

Lemma unionItemTypes_some : forall h l, wf_heap h -> l < List.length h ->
  exists u, _unionItemTypes h l = Some u.
Proof.
  intros h l Hwf Hl. unfold _unionItemTypes.
  destruct (rootCtx (S l) h l) as [r|] eqn:E; [eexists; reflexivity|].
  exfalso. revert E. apply rootCtx_some; auto.
Qed.

(** The node of a spread on top of [base]: its key keeps what was collected
    under it and gets the node's child appended; the other keys are as they
    were. *)
Lemma spread_node : forall h base p M,
  wf_heap h -> base < List.length h ->
  _ctx p = CtxPrev base -> Str.startsWith (_field p) "..." = true ->
  _fieldOptionsValue p = None ->
  _buildFieldMap h base = Some M ->
  exists e,
    _buildFieldMap (h ++ [mkSelectionImpl p None None None]) (List.length h)
    = Some (JsMap.set (_field p) e M) /\
    childSelections e = Some (childrenAt (_field p) M ++ [_child p]) /\
    (fs_name e = _field p \/ exists e0, JsMap.get (_field p) M = Some e0 /\ fs_name e = fs_name e0).
Proof.
  intros h base p M Hwf Hb Hc Hdots Hopt HM.
  set (h' := h ++ [mkSelectionImpl p None None None]).
  assert (Hwf' : wf_heap h').
  { apply wf_alloc; [exact Hwf|]. rewrite Hc. exact Hb. }
  assert (Hp : payloadAt h' (List.length h) = Some p) by apply payloadAt_new.
  assert (Hagree : agree (List.length h) h h') by apply agree_app.
  assert (Hl : List.length h < List.length h').
  { unfold h'. rewrite length_app. simpl. lia. }
  destruct (@schemaType_some h' (List.length h) Hwf' Hl) as [st Hst].
  rewrite (@buildFieldMap_unfold h' (List.length h) p Hwf' Hp).
  rewrite Hc. cbv zeta. rewrite (startsWith_dots_nonempty _ Hdots).
  rewrite (@buildFieldMap_agree h h' (List.length h) base Hwf Hagree Hb), HM.
  unfold foldNode. rewrite Hp, Hst, Hdots.
  assert (Hkey : keyOf p = _field p) by (unfold keyOf; rewrite Hopt; reflexivity).
  rewrite Hkey. unfold childrenAt.
  destruct (JsMap.get (_field p) M) as [e0|] eqn:Hg.
  - destruct (childSelections e0) as [cs|] eqn:Hcs.
    + eexists. split; [reflexivity|]. split; [reflexivity|].
      right. exists e0. split; reflexivity.
    + eexists. split; [reflexivity|]. split; [reflexivity|]. left. reflexivity.
  - eexists. split; [reflexivity|]. split; [reflexivity|]. left. reflexivity.
Qed.

Lemma startsWith_spreadKey : forall n t c u,
  Str.startsWith (spreadKey n t c u) "..." = true.
Proof.
  intros [n|] t c u; unfold spreadKey.
  - reflexivity.
  - destruct (String.eqb (st_name c) (st_name t) || isSome u); reflexivity.
Qed.

(** [addEmbeddable] with a fragment name it accepts, run. *)
Lemma addEmbeddable_run : forall w base child fragmentName thisType childType childUnion,
  validFragmentName fragmentName = true ->
  _schemaType (heap w) base = Some thisType ->
  _schemaType (heap w) (targetOf child) = Some childType ->
  _unionItemTypes (heap w) (targetOf child) = Some childUnion ->
  addEmbeddable base child fragmentName w =
    (Ok (List.length (heap w)),
     withHeap (heap w ++
               [mkSelectionImpl
                  (mkPayload (CtxPrev base) false
                     (spreadKey fragmentName thisType childType childUnion)
                     None (Some child) None None None) None None None]) w).
Proof.
  intros w base child fragmentName thisType childType childUnion Hv Ht Hc Hu.
  unfold addEmbeddable. destruct fragmentName as [n|].
  - unfold validFragmentName in Hv. apply andb_true_iff in Hv. destruct Hv as [H1 H2].
    apply negb_true_iff in H1, H2. rewrite H1, H2. reflexivity.
  - unfold bind, getState, liftOpt. rewrite Hc, Ht, Hu. cbn [ret].
    unfold spreadKey.
    destruct (String.eqb (st_name childType) (st_name thisType) || isSome childUnion);
      reflexivity.
Qed.

(** X17: [addEmbeddable]. The empty fragment name and a fragment name that
    starts with ["on "] are refused with an [Error] and nothing is
    allocated. Otherwise the new node is a spread under the key
    ["... <name>"] for a named fragment, ["..."] for an unnamed one of the
    same type or of a union, and ["... on <Type>"] for an unnamed one of
    another type; in the field map the key keeps the children it had and
    gets the embedded selection appended, a new key goes to the end and
    every other key keeps its entry. *)
Theorem addEmbeddable_collects_children :
  forall (w : World) (base : loc) (child : SelRef) (fragmentName : option string),
    wf_heap (heap w) ->
    base < List.length (heap w) ->
    targetOf child < List.length (heap w) ->
    (validFragmentName fragmentName = false ->
       exists msg, addEmbeddable base child fragmentName w = (Throw (Error msg), w)) /\
    (validFragmentName fragmentName = true ->
       exists thisType childType childUnion Mb n w' m e,
         _schemaType (heap w) base = Some thisType /\
         _schemaType (heap w) (targetOf child) = Some childType /\
         _unionItemTypes (heap w) (targetOf child) = Some childUnion /\
         _buildFieldMap (heap w) base = Some Mb /\
         addEmbeddable base child fragmentName w = (Ok n, w') /\
         fst (fieldMap n w') = Ok m /\
         JsMap.get (spreadKey fragmentName thisType childType childUnion) m = Some e /\
         childSelections e
         = Some (childrenAt (spreadKey fragmentName thisType childType childUnion) Mb
                 ++ [Some child]) /\
         JsMap.keys m
         = (if JsMap.has (spreadKey fragmentName thisType childType childUnion) Mb
            then JsMap.keys Mb
            else JsMap.keys Mb ++ [spreadKey fragmentName thisType childType childUnion]) /\
         (forall k, k <> spreadKey fragmentName thisType childType childUnion ->
            JsMap.get k m = JsMap.get k Mb)).
Proof.
  intros w base child fragmentName Hwf Hb Hchild. split.
  - intros Hv. destruct fragmentName as [n|]; [|discriminate].
    unfold validFragmentName in Hv. unfold addEmbeddable.
    destruct (String.length n =? 0)%nat eqn:E0.
    + eexists. reflexivity.
    + simpl in Hv. apply negb_false_iff in Hv. rewrite Hv. eexists. reflexivity.
  - intros Hv.
    destruct (@schemaType_some (heap w) base Hwf Hb) as [thisType Ht].
    destruct (@schemaType_some (heap w) (targetOf child) Hwf Hchild) as [childType Hc].
    destruct (@unionItemTypes_some (heap w) (targetOf child) Hwf Hchild) as [childUnion Hu].
    destruct (@buildFieldMap_some (heap w) Hwf base Hb) as [Mb HMb].
    set (key := spreadKey fragmentName thisType childType childUnion).
    set (p := mkPayload (CtxPrev base) false key None (Some child) None None None).
    destruct (@spread_node (heap w) base p Mb Hwf Hb eq_refl
                (startsWith_spreadKey _ _ _ _) eq_refl HMb) as [e [Hbuild [Hcs _]]].
    exists thisType, childType, childUnion, Mb. eexists _, _, _, e.
    split; [exact Ht|]. split; [exact Hc|]. split; [exact Hu|]. split; [exact HMb|].
    split; [apply (@addEmbeddable_run w base child fragmentName thisType childType childUnion);
            assumption|].
    split.
    { eapply fieldMap_fresh.
      - cbn [heap withHeap]. apply nth_error_new.
      - reflexivity.
      - cbn [heap withHeap]. exact Hbuild. }
    cbn [_field p] in *.
    split; [apply get_set_eq|]. split; [exact Hcs|]. split; [apply keys_set|].
    intros k Hk. apply get_set_neq. intros E. apply Hk. symmetry. exact E.
Qed.

(** Witness of X17: the post selection [id] spread under the name [F] on
    the root. *)
Lemma addEmbeddable_collects_children_witness :
  exists n w', addEmbeddable 0 (RawRef 1) (Some "F") postIdWorld = (Ok n, w').
Proof.
  destruct (@addEmbeddable_collects_children postIdWorld 0 (RawRef 1) (Some "F"))
    as [_ H].
  - reflexivity.
  - simpl. lia.
  - simpl. lia.
  - destruct (H eq_refl) as [t [c [u [Mb [n [w' [m [e [_ [_ [_ [_ [Hrun _]]]]]]]]]]]]].
    exists n, w'. exact Hrun.
Defined.

Lemma unionItemTypes_agree : forall h h' bound l, wf_heap h -> agree bound h h' -> l < bound ->
  _unionItemTypes h' l = _unionItemTypes h l.
Proof.
  intros h h' bound l Hwf Ha Hl. unfold _unionItemTypes.
  rewrite (@rootCtx_agree h h' bound Hwf Ha (S l) l Hl). reflexivity.
Qed.

Lemma childrenAt_set_other : forall key k e M, k <> key ->
  childrenAt key (JsMap.set k e M) = childrenAt key M.
Proof. intros key k e M H. unfold childrenAt. rewrite get_set_neq by exact H. reflexivity. Qed.

(** X18: [$on]. The embedded selection is appended to the children under
    its spread key. When the type of the selection and the type of the
    embedded one have the same name nothing else changes; when the names
    differ the field [__typename] is selected first, so the field map of
    the result has it, and every key other than these two keeps its
    entry. A fragment spread object is embedded under its own name. *)
Theorem on_embeds_and_discriminates :
  forall (w : World) (target : loc) (arg : OnArg),
    wf_heap (heap w) ->
    target < List.length (heap w) ->
    targetOf (onChild arg) < List.length (heap w) ->
    validFragmentName (onName arg) = true ->
    exists thisType childType childUnion Mb r w' m e,
      schemaType (heap w) target = Some thisType /\
      schemaType (heap w) (targetOf (onChild arg)) = Some childType /\
      _unionItemTypes (heap w) (targetOf (onChild arg)) = Some childUnion /\
      _buildFieldMap (heap w) target = Some Mb /\
      method_on target arg w = (Ok r, w') /\
      fst (fieldMap (targetOf r) w') = Ok m /\
      JsMap.get (spreadKey (onName arg) thisType childType childUnion) m = Some e /\
      childSelections e
      = Some (childrenAt (spreadKey (onName arg) thisType childType childUnion) Mb
              ++ [Some (onChild arg)]) /\
      (String.eqb (st_name thisType) (st_name childType) = true ->
         forall k, k <> spreadKey (onName arg) thisType childType childUnion ->
           JsMap.get k m = JsMap.get k Mb) /\
      (String.eqb (st_name thisType) (st_name childType) = false ->
         (exists te, JsMap.get "__typename" m = Some te /\ fs_name te = "__typename") /\
         forall k, k <> spreadKey (onName arg) thisType childType childUnion ->
                   k <> "__typename" -> JsMap.get k m = JsMap.get k Mb).
Proof.
  intros w target arg Hwf Hb Hchild Hv.
  destruct (@schemaType_some (heap w) target Hwf Hb) as [thisType Ht].
  destruct (@schemaType_some (heap w) (targetOf (onChild arg)) Hwf Hchild) as [childType Hc].
  destruct (@unionItemTypes_some (heap w) (targetOf (onChild arg)) Hwf Hchild)
    as [childUnion Hu].
  destruct (@buildFieldMap_some (heap w) Hwf target Hb) as [Mb HMb].
  set (key := spreadKey (onName arg) thisType childType childUnion).
  assert (Hkey : Str.startsWith key "..." = true) by apply startsWith_spreadKey.
  assert (Hhead : forall w0,
            method_on target arg w0 =
            (w1 <- getState ;;
             thisType <- liftOpt (schemaType (heap w1) target) ;;
             childType <- liftOpt (schemaType (heap w1) (targetOf (onChild arg))) ;;
             parent <-
               (if negb (String.eqb (st_name thisType) (st_name childType))
                then addField target "__typename" None None None
                else ret target) ;;
             l <- addEmbeddable parent (onChild arg) (onName arg) ;;
             newProxy l) w0).
  { intros w0. destruct arg; reflexivity. }
  exists thisType, childType, childUnion, Mb.
  destruct (String.eqb (st_name thisType) (st_name childType)) eqn:E.
  - (* same type name *)
    set (p := mkPayload (CtxPrev target) false key None (Some (onChild arg)) None None None).
    destruct (@spread_node (heap w) target p Mb Hwf Hb eq_refl Hkey eq_refl HMb)
      as [e [Hbuild [Hcs _]]].
    eexists _, _, _, e.
    split; [exact Ht|]. split; [exact Hc|]. split; [exact Hu|]. split; [exact HMb|].
    split.
    { rewrite Hhead. unfold bind, getState, liftOpt. unfold schemaType in Ht, Hc.
      unfold schemaType. rewrite Ht, Hc. cbn [ret]. rewrite E. cbn [negb ret].
      rewrite (@addEmbeddable_run w target (onChild arg) (onName arg)
                 thisType childType childUnion Hv Ht Hc Hu).
      unfold newProxy. cbn [heap withHeap nextProxy]. reflexivity. }
    cbn [targetOf]. split.
    { eapply fieldMap_fresh.
      - cbn [heap]. apply nth_error_new.
      - reflexivity.
      - cbn [heap]. exact Hbuild. }
    cbn [_field p] in *.
    split; [apply get_set_eq|]. split; [exact Hcs|]. split.
    + intros _ k Hk. apply get_set_neq. intros Ek. apply Hk. symmetry. exact Ek.
    + discriminate.
  - (* different type names: [__typename] first *)
    set (op := OpAdd "__typename" None None None).
    set (n1 := mkSelectionImpl (opPayload target op) None None None).
    set (h1 := heap w ++ [n1]).
    assert (Hwf1 : wf_heap h1) by (apply wf_alloc; [exact Hwf | exact Hb]).
    assert (Hagree : agree (List.length (heap w)) (heap w) h1) by apply agree_app.
    assert (Hl1 : List.length (heap w) < List.length h1).
    { unfold h1. rewrite length_app. simpl. lia. }
    assert (Ht1 : _schemaType h1 (List.length (heap w)) = Some thisType).
    { unfold h1, n1. rewrite (@schemaType_new (heap w) target (opPayload target op)
                                Hwf Hb eq_refl). exact Ht. }
    assert (Hc1 : _schemaType h1 (targetOf (onChild arg)) = Some childType).
    { rewrite (@schemaType_agree (heap w) h1 _ _ Hwf Hagree Hchild). exact Hc. }
    assert (Hu1 : _unionItemTypes h1 (targetOf (onChild arg)) = Some childUnion).
    { rewrite (@unionItemTypes_agree (heap w) h1 _ _ Hwf Hagree Hchild). exact Hu. }
    set (te := entryOf thisType (opPayload 0 op)).
    assert (HM1 : _buildFieldMap h1 (List.length (heap w))
                  = Some (JsMap.set "__typename" te Mb)).
    { rewrite (@buildFieldMap_unfold h1 (List.length (heap w)) (opPayload target op)
                 Hwf1 (payloadAt_new (heap w) n1)).
      cbn [opPayload op _ctx _field]. cbv zeta.
      change (String.eqb "__typename" "") with false. cbv iota.
      rewrite (@buildFieldMap_agree (heap w) h1 _ target Hwf Hagree Hb), HMb.
      apply (@foldNode_op (heap w) target op thisType Mb Hwf Hb Ht eq_refl). }
    set (p := mkPayload (CtxPrev (List.length (heap w))) false key None
                        (Some (onChild arg)) None None None).
    destruct (@spread_node h1 (List.length (heap w)) p (JsMap.set "__typename" te Mb)
                Hwf1 Hl1 eq_refl Hkey eq_refl HM1) as [e [Hbuild [Hcs _]]].
    assert (Hne : "__typename" <> key).
    { intros Ek. pose proof (startsWith_dots_not_typename _ Hkey) as Hk.
      rewrite <- Ek in Hk. discriminate. }
    assert (Hlen1 : List.length h1 = S (List.length (heap w))).
    { unfold h1. rewrite length_app. simpl. lia. }
    eexists _, _, _, e.
    split; [exact Ht|]. split; [exact Hc|]. split; [exact Hu|]. split; [exact HMb|].
    split.
    { rewrite Hhead. unfold bind, getState, liftOpt. unfold schemaType in Ht, Hc.
      unfold schemaType. rewrite Ht, Hc. cbn [ret]. rewrite E. cbn [negb].
      unfold addField, newSelectionImpl.
      rewrite (@addEmbeddable_run
                 (withHeap (heap w ++ [mkSelectionImpl
                    (mkPayload (CtxPrev target) false "__typename" None None None None None)
                    None None None]) w)
                 (List.length (heap w)) (onChild arg) (onName arg)
                 thisType childType childUnion Hv Ht1 Hc1 Hu1).
      unfold newProxy. cbn [heap withHeap nextProxy]. reflexivity. }
    cbn [targetOf]. split.
    { eapply fieldMap_fresh.
      - cbn [heap]. fold op. fold n1. fold h1. apply nth_error_new.
      - reflexivity.
      - cbn [heap]. fold op. fold n1. fold h1. exact Hbuild. }
    cbn [_field p] in *.
    split; [apply get_set_eq|]. split.
    { rewrite Hcs. rewrite childrenAt_set_other by exact Hne. reflexivity. }
    split; [discriminate|].
    intros _. split.
    + exists te. split; [|reflexivity].
      rewrite get_set_neq by (intros Ek; apply Hne; symmetry; exact Ek).
      apply get_set_eq.
    + intros k Hk Hk2.
      rewrite get_set_neq by (intros Ek; apply Hk; symmetry; exact Ek).
      apply get_set_neq. intros Ek. apply Hk2. symmetry. exact Ek.
Qed.

(** Witness of X18: the fragment spread [F] of the post selection [id],
    embedded on the root. *)
Lemma on_embeds_and_discriminates_witness :
  exists r w', method_on 0 (OnFragmentSpread "F" (RawRef 1)) postIdWorld = (Ok r, w').
Proof.
  destruct (@on_embeds_and_discriminates postIdWorld 0 (OnFragmentSpread "F" (RawRef 1)))
    as [t [c [u [Mb [r [w' [m [e [_ [_ [_ [_ [Hrun _]]]]]]]]]]]]].
  - reflexivity.
  - simpl. lia.
  - simpl. lia.
  - reflexivity.
  - exists r, w'. exact Hrun.
Defined.

(** X19: a spread cannot be removed. [removeField] and [$omit] with a
    spread key (a name that starts with ["..."]) allocate a negative node,
    but the fold treats every node with such a name as a spread: in the
    field map of the result the key is still there (it is added when it was
    not), its entry keeps the children collected so far and gets an
    [undefined] child appended; the other keys keep their entries. *)
Theorem omitting_a_spread_key_keeps_it :
  forall (w : World) (base : loc) (x : string),
    wf_heap (heap w) ->
    base < List.length (heap w) ->
    Str.startsWith x "..." = true ->
    exists Mb r w' m e,
      _buildFieldMap (heap w) base = Some Mb /\
      method_omit base [JString x] w = (Ok r, w') /\
      removeField base x w = (Ok (targetOf r), withHeap (heap w') w) /\
      option_map _negative (payloadAt (heap w') (targetOf r)) = Some true /\
      fst (fieldMap (targetOf r) w') = Ok m /\
      JsMap.get x m = Some e /\
      childSelections e = Some (childrenAt x Mb ++ [None]) /\
      (JsMap.get x Mb = None -> fs_name e = x) /\
      (forall k, k <> x -> JsMap.get k m = JsMap.get k Mb).
Proof.
  intros w base x Hwf Hb Hdots.
  pose proof (startsWith_dots_not_typename _ Hdots) as Htn.
  destruct (@buildFieldMap_some (heap w) Hwf base Hb) as [Mb HMb].
  set (p := opPayload base (OpRemove x)).
  destruct (@spread_node (heap w) base p Mb Hwf Hb eq_refl Hdots eq_refl HMb)
    as [e [Hbuild [Hcs Hname]]].
  exists Mb. eexists _, _, _, e. split; [exact HMb|]. split.
  { unfold method_omit, bind. cbn [omitLoop]. unfold bind.
    rewrite (@removeField_run base x w Htn). cbn [ret]. unfold newProxy.
    cbn [heap withHeap nextProxy]. reflexivity. }
  cbn [targetOf heap]. split.
  { rewrite (@removeField_run base x w Htn). reflexivity. }
  split.
  { rewrite payloadAt_new. reflexivity. }
  split.
  { eapply fieldMap_fresh.
    - cbn [heap]. apply nth_error_new.
    - reflexivity.
    - cbn [heap]. exact Hbuild. }
  cbn [_field p opPayload] in *.
  split; [apply get_set_eq|]. split; [exact Hcs|]. split.
  - intros Hnone. destruct Hname as [Hn | [e0 [He0 _]]]; [exact Hn | congruence].
  - intros k Hk. apply get_set_neq. intros Ek. apply Hk. symmetry. exact Ek.
Qed.

(** Witness of X19: [$omit("...")] on the root of a post selection. *)
Lemma omitting_a_spread_key_keeps_it_witness :
  exists r w', method_omit 0 [JString "..."] Example.postWorld = (Ok r, w').
Proof.
  destruct (@omitting_a_spread_key_keeps_it Example.postWorld 0 "...")
    as [Mb [r [w' [m [e [_ [Hrun _]]]]]]].
  - reflexivity.
  - simpl. lia.
  - reflexivity.
  - exists r, w'. exact Hrun.
Defined.

(** ** Serialization of a selection with an [undefined] child *)

Lemma bind_notOk_l : forall (S A B : Type) (m : M S A) (k : A -> M S B) s,
  isOk (fst (m s)) = false -> isOk (fst ((x <- m ;; k x) s)) = false.
Proof.
  intros S A B m k s H. unfold bind. destruct (m s) as [[a|e|] s']; [discriminate| |]; reflexivity.
Qed.

Lemma bind_notOk_r : forall (S A B : Type) (m : M S A) (k : A -> M S B) s,
  (forall a s', isOk (fst (k a s')) = false) -> isOk (fst ((x <- m ;; k x) s)) = false.
Proof.
  intros S A B m k s H. unfold bind. destruct (m s) as [[a|e|] s']; [apply H| |]; reflexivity.
Qed.

Lemma forEach_notOk : forall (S A : Type) (body : A -> M S unit) xs x,
  In x xs -> (forall s, isOk (fst (body x s)) = false) ->
  forall s, isOk (fst (forEach xs body s)) = false.
Proof.
  intros S A body xs x. induction xs as [|x0 r IH]; intros Hin Hx s; [destruct Hin|].
  cbn [forEach]. destruct Hin as [->|Hin].
  - apply bind_notOk_l. apply Hx.
  - apply bind_notOk_r. intros _ s'. apply IH; assumption.
Qed.

Lemma acceptSelection_undefined : forall fuel s,
  isOk (fst (acceptSelection fuel None s)) = false.
Proof. intros [|fuel] s; reflexivity. Qed.

Lemma scope_fst : forall o action s,
  fst (scope o action s) = fst (action (onWriter (TextBuilder.scopeEnter o) s)).
Proof.
  intros o action s. unfold scope, bind, modify, finally.
  destruct (action (onWriter (TextBuilder.scopeEnter o) s)) as [[a|e|] s']; reflexivity.
Qed.

Lemma values_In : forall (V : Type) (m : JsMap.t V) k v,
  JsMap.get k m = Some v -> In v (JsMap.values m).
Proof.
  intros V m k v H. apply get_Some_In in H. unfold JsMap.values.
  apply in_map_iff. exists (k, v). split; [reflexivity | exact H].
Qed.

Lemma acceptSelection_undefined_child : forall fuel w0 s l m k e cs,
  wf_heap (heap w0) -> l < List.length (heap w0) -> frameInv w0 (world s) ->
  fst (fieldMap l w0) = Ok m ->
  JsMap.get k m = Some e -> fs_name e = "..." ->
  childSelections e = Some cs -> In None cs ->
  isOk (fst (acceptSelection (S fuel) (Some (RawRef l)) s)) = false.
Proof.
  intros fuel w0 s l m k e cs Hwf Hl Hinv Hm Hk Hname Hcs Hin.
  cbn [acceptSelection targetOf].
  pose proof (@fieldMap_framed_value w0 (world s) l Hwf Hl Hinv) as Hval.
  rewrite Hm in Hval.
  unfold bind at 1. unfold liftW at 1.
  destruct (fieldMap l (world s)) as [o w1] eqn:Hfm. simpl in Hval. subst o.
  apply (@forEach_notOk _ _ _ _ e (values_In _ _ Hk)).
  intros s1. rewrite Hname, Hcs. cbn [String.eqb Ascii.eqb Bool.eqb negb].
  destruct cs as [|c0 cs']; [destruct Hin|].
  apply bind_notOk_r. intros _ s2. apply bind_notOk_l.
  apply (@forEach_notOk _ _ _ _ None Hin). intros s3. apply acceptSelection_undefined.
Qed.

(** X20: a selection with an [undefined] child under an unnamed spread
    cannot be serialized. If the field map of a node holds an entry named
    ["..."] whose children include [undefined], which is what [$omit("...")]
    leaves behind, then serializing the node never yields a result: the
    walk reaches the [undefined] child and reads a property off it, unless
    an earlier step has failed already. *)
Theorem undefined_child_blocks_serialization :
  forall (w : World) (l : loc) (m : JsMap.t FieldSelection) (k : string)
         (e : FieldSelection) (cs : list (option SelRef)),
    wf_heap (heap w) ->
    l < List.length (heap w) ->
    option_map (@_result) (nth_error (heap w) l) = Some None ->
    fst (fieldMap l w) = Ok m ->
    JsMap.get k m = Some e ->
    fs_name e = "..." ->
    childSelections e = Some cs ->
    In None cs ->
    isOk (fst (_serialize l w)) = false /\
    isOk (fst (toString l w)) = false /\
    isOk (fst (toFragmentString l w)) = false.
Proof.
  intros w l m k e cs Hwf Hl Hcell Hm Hk Hname Hcs Hin.
  assert (Hfuel : exists fuel, List.length (heap w) = S fuel).
  { destruct (List.length (heap w)); [lia | eexists; reflexivity]. }
  destruct Hfuel as [fuel Hfuel].
  assert (Hbody : forall s0, world s0 = w ->
            isOk (fst ((dm <- liftW (directiveMap l) ;;
                        acceptDirectives (Some dm) ;;;
                        scope (TextBuilder.optsMLSuffix TextBuilder.block true Str.LF)
                              (acceptSelection (S fuel) (Some (RawRef l))) ;;;
                        drain (S (S fuel)) (S fuel) []) s0)) = false).
  { intros s0 Hs0.
    unfold bind at 1.
    destruct (liftW (directiveMap l) s0) as [[dm|e1|] s1] eqn:H1; try reflexivity.
    assert (Hinv1 : frameInv w (world s1)).
    { pose proof (@framedS_liftW _ (directiveMap l) (framed_directiveMap l) w s0 Hwf) as Hf.
      rewrite H1 in Hf. apply Hf. rewrite Hs0. apply frameInv_refl. }
    unfold bind at 1.
    destruct (acceptDirectives (Some dm) s1) as [[[]|e2|] s2] eqn:H2; try reflexivity.
    assert (Hinv2 : frameInv w (world s2)).
    { pose proof (@framedS_acceptDirectives (Some dm) w s1 Hwf Hinv1) as Hf.
      rewrite H2 in Hf. exact Hf. }
    apply bind_notOk_l. rewrite scope_fst.
    apply (@acceptSelection_undefined_child fuel w _ l m k e cs); try assumption.
    rewrite world_onWriter. exact Hinv2. }
  assert (Hser : isOk (fst (serialize l w)) = false /\
                 (forall r w', serialize l w <> (Ok r, w'))).
  { unfold serialize. rewrite Hfuel.
    specialize (Hbody (newSerState w) eq_refl).
    destruct ((dm <- liftW (directiveMap l) ;;
               acceptDirectives (Some dm) ;;;
               scope (TextBuilder.optsMLSuffix TextBuilder.block true Str.LF)
                     (acceptSelection (S fuel) (Some (RawRef l))) ;;;
               drain (S (S fuel)) (S fuel) []) (newSerState w)) as [[u|e1|] s1];
      [discriminate| |]; (split; [reflexivity | intros r w' H; discriminate]). }
  destruct Hser as [Hser1 Hser2].
  assert (Hnth : exists n, nth_error (heap w) l = Some n /\ _result n = None).
  { destruct (nth_error (heap w) l) as [n|]; [|discriminate].
    exists n. split; [reflexivity|]. simpl in Hcell. congruence. }
  destruct Hnth as [n [Hn Hres]].
  assert (Hs : _serialize l w = serialize l w).
  { unfold _serialize. rewrite Hn, Hres.
    destruct (serialize l w) as [[r|e1|] w'] eqn:E; try reflexivity.
    exfalso. apply (Hser2 r w'). reflexivity. }
  split; [rewrite Hs; exact Hser1|].
  split; [unfold toString; apply bind_notOk_l; rewrite Hs; exact Hser1|].
  unfold toFragmentString; apply bind_notOk_l; rewrite Hs; exact Hser1.
Qed.

(** Witness of X20: the root of a post selection after [$omit("...")]. *)
Lemma undefined_child_blocks_serialization_witness :
  isOk (fst (toString 1 spreadOmittedWorld)) = false.
Proof.
  refine (proj1 (proj2 (@undefined_child_blocks_serialization spreadOmittedWorld 1
            [("...", mkFieldSelection "..." None None None false (Some [None]))] "..."
            (mkFieldSelection "..." None None None false (Some [None])) [None]
            _ _ _ _ _ _ _ _))).
  - reflexivity.
  - simpl. lia.
  - reflexivity.
  - reflexivity.
  - reflexivity.
  - reflexivity.
  - reflexivity.
  - left. reflexivity.
Defined.

(** ** The memo cells ([fieldMap], [directiveMap], [_serialize]) *)

Lemma fieldMap_read : forall w l n,
  wf_heap (heap w) -> nth_error (heap w) l = Some n ->
  exists fm w1 n1,
    fieldMap l w = (Ok fm, w1) /\
    nth_error (heap w1) l = Some n1 /\ _fieldMap n1 = Some fm /\
    payload n1 = payload n /\ _directiveMap n1 = _directiveMap n /\ _result n1 = _result n /\
    List.length (heap w1) = List.length (heap w) /\
    fieldMap l w1 = (Ok fm, w1).
Proof.
  intros w l n Hwf Hn.
  assert (Hl : l < List.length (heap w)) by (apply nth_error_Some; congruence).
  destruct (_fieldMap n) as [m|] eqn:Hc.
  - assert (Hrun : fieldMap l w = (Ok m, w)).
    { unfold fieldMap. rewrite Hn, Hc. reflexivity. }
    exists m, w, n. repeat split; auto.
  - destruct (@buildFieldMap_some (heap w) Hwf l Hl) as [m Hm].
    set (n1 := mkSelectionImpl (payload n) (Some m) (_directiveMap n) (_result n)).
    assert (Hcell : setFieldMapCell l m (heap w) = replaceNth l n1 (heap w)).
    { unfold setFieldMapCell. rewrite Hn. reflexivity. }
    assert (Hn1 : nth_error (replaceNth l n1 (heap w)) l = Some n1)
      by (apply nth_error_replaceNth_eq; exact Hl).
    assert (Hlen : List.length (replaceNth l n1 (heap w)) = List.length (heap w)).
    { clear. generalize (heap w) as h. induction l as [|l IH]; intros [|y r]; simpl; auto. }
    exists m, (withHeap (replaceNth l n1 (heap w)) w), n1.
    split.
    { unfold fieldMap. rewrite Hn, Hc, Hm, Hcell. reflexivity. }
    cbn [heap withHeap]. repeat split; auto.
    unfold fieldMap. cbn [heap withHeap]. rewrite Hn1. reflexivity.
Qed.

Lemma directiveMap_read : forall w l n dm,
  nth_error (heap w) l = Some n ->
  _buildDirectiveMap (heap w) l = Some dm \/ _directiveMap n <> None ->
  exists dm' w1 n1,
    directiveMap l w = (Ok dm', w1) /\
    nth_error (heap w1) l = Some n1 /\ _directiveMap n1 = Some dm' /\
    payload n1 = payload n /\ _fieldMap n1 = _fieldMap n /\ _result n1 = _result n /\
    List.length (heap w1) = List.length (heap w) /\
    directiveMap l w1 = (Ok dm', w1).
Proof.
  intros w l n dm Hn Hd.
  assert (Hl : l < List.length (heap w)) by (apply nth_error_Some; congruence).
  destruct (_directiveMap n) as [m|] eqn:Hc.
  - assert (Hrun : directiveMap l w = (Ok m, w)).
    { unfold directiveMap. rewrite Hn, Hc. reflexivity. }
    exists m, w, n. repeat split; auto.
  - destruct Hd as [Hm | Hd]; [|congruence].
    set (n1 := mkSelectionImpl (payload n) (_fieldMap n) (Some dm) (_result n)).
    assert (Hcell : setDirectiveMapCell l dm (heap w) = replaceNth l n1 (heap w)).
    { unfold setDirectiveMapCell. rewrite Hn. reflexivity. }
    assert (Hn1 : nth_error (replaceNth l n1 (heap w)) l = Some n1)
      by (apply nth_error_replaceNth_eq; exact Hl).
    assert (Hlen : List.length (replaceNth l n1 (heap w)) = List.length (heap w)).
    { clear. generalize (heap w) as h. induction l as [|l IH]; intros [|y r]; simpl; auto. }
    exists dm, (withHeap (replaceNth l n1 (heap w)) w), n1.
    split.
    { unfold directiveMap. rewrite Hn, Hc, Hm, Hcell. reflexivity. }
    cbn [heap withHeap]. repeat split; auto.
    unfold directiveMap. cbn [heap withHeap]. rewrite Hn1. reflexivity.
Qed.

Lemma map_getters_read_once :
  forall (w : World) (l : loc),
    wf_heap (heap w) ->
    l < List.length (heap w) ->
    exists fm w1 dm w2,
      fieldMap l w = (Ok fm, w1) /\
      fieldMap l w1 = (Ok fm, w1) /\
      directiveMap l w1 = (Ok dm, w2) /\
      directiveMap l w2 = (Ok dm, w2) /\
      fieldMap l w2 = (Ok fm, w2) /\
      payloadAt (heap w2) l = payloadAt (heap w) l /\
      List.length (heap w2) = List.length (heap w).
Proof.
  intros w l Hwf Hl.
  destruct (nth_error (heap w) l) as [n|] eqn:Hn;
    [|apply nth_error_None in Hn; lia].
  destruct (@fieldMap_read w l n Hwf Hn)
    as [fm [w1 [n1 [Hrun1 [Hn1 [Hc1 [Hp1 [Hd1 [_ [Hlen1 Hagain1]]]]]]]]]].
  assert (Hinv : frameInv w w1).
  { pose proof (@framed_fieldMap l w w Hwf (frameInv_refl w)) as Hf.
    rewrite Hrun1 in Hf. exact Hf. }
  destruct (@buildDirectiveMap_some (heap w) Hwf l Hl) as [dm0 Hdm0].
  assert (Hdm1 : _buildDirectiveMap (heap w1) l = Some dm0).
  { rewrite (@buildDirectiveMap_agree (heap w) (heap w1) (List.length (heap w)) l Hwf
               (frameInv_agree Hinv) Hl). exact Hdm0. }
  destruct (@directiveMap_read w1 l n1 dm0 Hn1 (or_introl Hdm1))
    as [dm [w2 [n2 [Hrun2 [Hn2 [Hc2 [Hp2 [Hf2 [_ [Hlen2 Hagain2]]]]]]]]]].
  exists fm, w1, dm, w2.
  split; [exact Hrun1|]. split; [exact Hagain1|]. split; [exact Hrun2|].
  split; [exact Hagain2|]. split.
  { unfold fieldMap. rewrite Hn2, Hf2, Hc1. reflexivity. }
  split.
  { unfold payloadAt. rewrite Hn2, Hn. simpl. rewrite Hp2, Hp1. reflexivity. }
  lia.
Qed.

Lemma serialize_read_once :
  forall (w w1 : World) (l : loc) (r : SerializedResult),
    wf_heap (heap w) ->
    _serialize l w = (Ok r, w1) ->
    _serialize l w1 = (Ok r, w1) /\
    toString l w = (Ok (sr_text r), w1) /\
    toString l w1 = (Ok (sr_text r), w1) /\
    toFragmentString l w1 = (Ok (sr_fragmentText r), w1) /\
    variableTypeMapOf l w1 = (Ok (sr_variableTypeMap r), w1).
Proof.
  intros w w1 l r Hwf H.
  assert (Hagain : _serialize l w1 = (Ok r, w1)).
  { unfold _serialize in H.
    destruct (nth_error (heap w) l) as [n|] eqn:Hn; [|discriminate].
    destruct (_result n) as [r0|] eqn:Hr.
    - inversion H; subst r0 w1. unfold _serialize. rewrite Hn, Hr. reflexivity.
    - destruct (serialize l w) as [[r'|e|] w'] eqn:Hs; try discriminate.
      inversion H; subst r' w1. clear H.
      assert (Hinv : frameInv w w').
      { pose proof (@framed_serialize l w w Hwf (frameInv_refl w)) as Hf.
        rewrite Hs in Hf. exact Hf. }
      destruct (Hinv l n Hn) as [n' [Hn' _]].
      assert (Hl : l < List.length (heap w')) by (apply nth_error_Some; congruence).
      unfold _serialize. cbn [heap withHeap]. unfold setResultCell. rewrite Hn'.
      rewrite nth_error_replaceNth_eq by exact Hl. reflexivity. }
  split; [exact Hagain|].
  split; [unfold toString, bind; rewrite H; reflexivity|].
  split; [unfold toString, bind; rewrite Hagain; reflexivity|].
  split; [unfold toFragmentString, bind; rewrite Hagain; reflexivity|].
  unfold variableTypeMapOf, bind; rewrite Hagain; reflexivity.
Qed.

(** X21: the memo cells. The getters [fieldMap] and [directiveMap] of
    every node of a well-formed heap return a map, and they compute it at
    most once: a second read returns the same map and changes nothing, and
    reading one of the two maps does not disturb the other; the reads
    allocate no node and leave the payload of the node as it is. A
    serialization that succeeded is cached on the node as well:
    [toString], [toFragmentString] and the variable map all come from the
    one result, and every later call returns that result again without
    changing anything. *)
Theorem memo_cells_compute_once :
  forall (w : World) (l : loc),
    wf_heap (heap w) ->
    l < List.length (heap w) ->
    (exists fm w1 dm w2,
       fieldMap l w = (Ok fm, w1) /\
       fieldMap l w1 = (Ok fm, w1) /\
       directiveMap l w1 = (Ok dm, w2) /\
       directiveMap l w2 = (Ok dm, w2) /\
       fieldMap l w2 = (Ok fm, w2) /\
       payloadAt (heap w2) l = payloadAt (heap w) l /\
       List.length (heap w2) = List.length (heap w)) /\
    (forall r w1,
       _serialize l w = (Ok r, w1) ->
       _serialize l w1 = (Ok r, w1) /\
       toString l w = (Ok (sr_text r), w1) /\
       toString l w1 = (Ok (sr_text r), w1) /\
       toFragmentString l w1 = (Ok (sr_fragmentText r), w1) /\
       variableTypeMapOf l w1 = (Ok (sr_variableTypeMap r), w1)).
Proof.
  intros w l Hwf Hl. split.
  - apply map_getters_read_once; assumption.
  - intros r w1 H. apply (@serialize_read_once w w1 l r Hwf H).
Qed.

(** Witness of X21: the post selection [id], its field map read twice and
    its text produced twice. *)
Lemma memo_cells_compute_once_witness :
  (exists fm w1, fieldMap 1 postIdWorld = (Ok fm, w1) /\ fieldMap 1 w1 = (Ok fm, w1)) /\
  (exists r w1, _serialize 1 postIdWorld = (Ok r, w1) /\ _serialize 1 w1 = (Ok r, w1)).
Proof.
  assert (Hwf : wf_heap (heap postIdWorld)) by reflexivity.
  assert (Hl : 1 < List.length (heap postIdWorld)) by (simpl; lia).
  destruct (@memo_cells_compute_once postIdWorld 1 Hwf Hl)
    as [[fm [w1 [dm [w2 [H1 [H2 _]]]]]] Hser].
  split.
  - exists fm, w1. split; [exact H1 | exact H2].
  - destruct (_serialize 1 postIdWorld) as [[r|e|] w3] eqn:E.
    + exists r, w3. split; [reflexivity|]. exact (proj1 (Hser r w3 eq_refl)).
    + vm_compute in E. discriminate.
    + vm_compute in E. discriminate.
Defined.

(** ** Deferred-variable references in arguments ([acceptArgs]) *)



(** X23: a deferred-variable reference bound to a declared argument of a
    field. The reference is refused with an [Error], and no variable is
    recorded, when it carries a protocol type of its own that differs from
    the declared type of the argument, and when the variable is already
    recorded with a different, non-empty type. Otherwise the variable is
    recorded with the declared type of the argument and only text is
    written. *)
Theorem argument_reference_type_conflicts :
  forall (tm : JsMap.t string) (meta : option EnumInputMetadata)
         (argName typeName refName : string) (refType : option string) (s : SerState),
    JsMap.get argName tm = Some typeName ->
    0 < depth s ->
    (forall rt, refType = Some rt -> Str.truthy rt = true -> rt <> typeName ->
       exists s',
         acceptArg (Some tm) meta (argName, JParameterRef refName refType) s
         = (Throw (Error ("Argument '" ++ refName ++ "' type conflict: '" ++ typeName
                          ++ "' vs ParameterRef '" ++ rt ++ "'")), s') /\
         variableTypeMap s' = variableTypeMap s /\ world s' = world s) /\
    ((forall rt, refType = Some rt -> Str.truthy rt = true -> rt = typeName) ->
     (forall existing,
        JsMap.get refName (variableTypeMap s) = Some existing ->
        Str.truthy existing = true -> existing <> typeName ->
        exists s',
          acceptArg (Some tm) meta (argName, JParameterRef refName refType) s
          = (Throw (Error ("Argument '" ++ refName ++ "' type conflict: '" ++ existing
                           ++ "' vs '" ++ typeName ++ "'")), s') /\
          variableTypeMap s' = variableTypeMap s /\ world s' = world s) /\
     ((forall existing,
         JsMap.get refName (variableTypeMap s) = Some existing ->
         Str.truthy existing = true -> existing = typeName) ->
      exists s',
        acceptArg (Some tm) meta (argName, JParameterRef refName refType) s = (Ok tt, s') /\
        variableTypeMap s' = JsMap.set refName typeName (variableTypeMap s) /\
        world s' = world s /\ depth s' = depth s)).
Proof.
  intros tm meta argName typeName refName refType s Hget Hd.
  destruct (@separator_ok None s Hd) as (s1 & Hsep & W1).
  assert (Hv1 : variableTypeMap s1 = variableTypeMap s) by apply (writes_variableTypeMap W1).
  assert (Hw1 : world s1 = world s) by apply (writes_world W1).
  split.
  - intros rt -> Hrt Hne.
    exists s1. split; [|split; assumption].
    unfold acceptArg. cbn [fst snd]. rewrite Hget. unfold bind. rewrite Hsep.
    cbn [instanceOfParameterRef liftE ret]. rewrite Hrt.
    assert (E : String.eqb rt typeName = false) by (apply String.eqb_neq; exact Hne).
    rewrite E. reflexivity.
  - intros Hown.
    assert (Hpass : match refType with
                    | Some rt =>
                        if Str.truthy rt && negb (String.eqb rt typeName)
                        then @throw SerState unit
                               (Error ("Argument '" ++ refName ++ "' type conflict: '"
                                       ++ typeName ++ "' vs ParameterRef '" ++ rt ++ "'"))
                        else ret tt
                    | None => ret tt
                    end s1 = (Ok tt, s1)).
    { destruct refType as [rt|]; [|reflexivity].
      destruct (Str.truthy rt) eqn:Hrt; [|reflexivity].
      rewrite (Hown rt eq_refl Hrt), String.eqb_refl. reflexivity. }
    split.
    + intros existing Hex Htr Hne.
      exists s1. split; [|split; assumption].
      unfold acceptArg. cbn [fst snd]. rewrite Hget. unfold bind. rewrite Hsep.
      cbn [instanceOfParameterRef liftE ret]. rewrite Hpass.
      cbn [getState]. rewrite Hv1, Hex, Htr.
      assert (E : String.eqb existing typeName = false) by (apply String.eqb_neq; exact Hne).
      rewrite E. reflexivity.
    + intros Hcons.
      assert (Hex : match JsMap.get refName (variableTypeMap s1) with
                    | Some existing =>
                        if Str.truthy existing && negb (String.eqb existing typeName)
                        then @throw SerState unit
                               (Error ("Argument '" ++ refName ++ "' type conflict: '"
                                       ++ existing ++ "' vs '" ++ typeName ++ "'"))
                        else ret tt
                    | None => ret tt
                    end s1 = (Ok tt, s1)).
      { rewrite Hv1. destruct (JsMap.get refName (variableTypeMap s)) as [existing|] eqn:Ee;
          [|reflexivity].
        destruct (Str.truthy existing) eqn:Htr; [|reflexivity].
        rewrite (Hcons existing eq_refl Htr), String.eqb_refl. reflexivity. }
      eexists. split.
      { unfold acceptArg. cbn [fst snd]. rewrite Hget. unfold bind. rewrite Hsep.
        cbn [instanceOfParameterRef liftE ret]. rewrite Hpass.
        cbn [getState]. rewrite Hex. cbn [modify]. rewrite t_run. reflexivity. }
      pose proof (t_writes (argName ++ ": $" ++ refName) (setVariableType refName typeName s1))
        as W2.
      split; [|split].
      * rewrite (writes_variableTypeMap W2). simpl. rewrite Hv1. reflexivity.
      * rewrite (writes_world W2). simpl. exact Hw1.
      * rewrite (writes_depth W2), depth_setVariableType. apply (writes_depth W1).
Qed.

(** Witness of X23: the argument [id: ID!] bound to a reference that says
    [Int]. *)
Lemma argument_reference_type_conflicts_witness :
  exists s',
    acceptArg (Some [("id", "ID!")]) None ("id", JParameterRef "id" (Some "Int"))
      (onWriter (TextBuilder.scopeEnter (TextBuilder.opts TextBuilder.arguments))
                (newSerState emptyWorld))
    = (Throw (Error ("Argument '" ++ "id" ++ "' type conflict: '" ++ "ID!"
                     ++ "' vs ParameterRef '" ++ "Int" ++ "'")), s').
Proof.
  destruct (proj1 (@argument_reference_type_conflicts [("id", "ID!")] None "id" "ID!" "id"
                     (Some "Int")
                     (onWriter (TextBuilder.scopeEnter (TextBuilder.opts TextBuilder.arguments))
                               (newSerState emptyWorld))
                     eq_refl (Nat.lt_0_succ 0))
                  "Int" eq_refl eq_refl) as [s' [H _]].
  - discriminate.
  - exists s'. exact H.
Defined.

(** X24: a deferred-variable reference in the arguments of a directive. A
    reference without a protocol type of its own is refused with an
    [Error] and records nothing. A reference with one is recorded under
    that type without looking at the variable map: a variable already
    recorded with another type is rebound and no conflict is raised. *)
Theorem directive_argument_references :
  forall (meta : option EnumInputMetadata) (argName refName : string)
         (refType : option string) (s : SerState),
    0 < depth s ->
    (optTruthy refType = false ->
       exists s',
         acceptArg None meta (argName, JParameterRef refName refType) s
         = (Throw (Error ("Directive argument '" ++ refName ++ "' requires graphqlTypeName")),
            s') /\
         variableTypeMap s' = variableTypeMap s /\ world s' = world s) /\
    (forall rt, refType = Some rt -> Str.truthy rt = true ->
       exists s',
         acceptArg None meta (argName, JParameterRef refName refType) s = (Ok tt, s') /\
         variableTypeMap s' = JsMap.set refName rt (variableTypeMap s) /\
         world s' = world s /\ depth s' = depth s).
Proof.
  intros meta argName refName refType s Hd.
  destruct (@separator_ok None s Hd) as (s1 & Hsep & W1).
  assert (Hv1 : variableTypeMap s1 = variableTypeMap s) by apply (writes_variableTypeMap W1).
  assert (Hw1 : world s1 = world s) by apply (writes_world W1).
  split.
  - intros Hrt. exists s1. split; [|split; assumption].
    unfold acceptArg. cbn [fst snd]. unfold bind. rewrite Hsep.
    cbn [instanceOfParameterRef liftE ret].
    destruct refType as [rt|]; [|reflexivity].
    simpl in Hrt. rewrite Hrt. reflexivity.
  - intros rt -> Hrt. eexists. split.
    { unfold acceptArg. cbn [fst snd]. unfold bind. rewrite Hsep.
      cbn [instanceOfParameterRef liftE ret]. rewrite Hrt. unfold bind.
      cbn [modify]. rewrite t_run. reflexivity. }
    pose proof (t_writes (argName ++ ": $" ++ refName) (setVariableType refName rt s1)) as W2.
    split; [|split].
    + rewrite (writes_variableTypeMap W2). simpl. rewrite Hv1. reflexivity.
    + rewrite (writes_world W2). simpl. exact Hw1.
    + rewrite (writes_depth W2), depth_setVariableType. apply (writes_depth W1).
Qed.

(** Witness of X24: [@include(if: $flag)] with a reference that carries no
    type. *)
Lemma directive_argument_references_witness :
  exists s',
    acceptArg None None ("if", JParameterRef "flag" None)
      (onWriter (TextBuilder.scopeEnter (TextBuilder.opts TextBuilder.arguments))
                (newSerState emptyWorld))
    = (Throw (Error ("Directive argument '" ++ "flag" ++ "' requires graphqlTypeName")), s').
Proof.
  destruct (proj1 (@directive_argument_references None "if" "flag" None
                     (onWriter (TextBuilder.scopeEnter (TextBuilder.opts TextBuilder.arguments))
                               (newSerState emptyWorld))
                     (Nat.lt_0_succ 0)) eq_refl) as [s' [H _]].
  exists s'. exact H.
Defined.

(** ** Literals ([acceptLiteral]) *)


(** ** The lookup helpers ([findField], [findFieldsByName], [findFieldByName]) *)

(** A field map that was read is read again as it is. *)
Lemma fieldMap_twice : forall w l fm w1,
  fieldMap l w = (Ok fm, w1) -> fieldMap l w1 = (Ok fm, w1).
Proof.
  intros w l fm w1 H. unfold fieldMap in H.
  destruct (nth_error (heap w) l) as [n|] eqn:Hn; [|discriminate].
  assert (Hl : l < List.length (heap w)) by (apply nth_error_Some; congruence).
  destruct (_fieldMap n) as [m|] eqn:Hc.
  - inversion H; subst m w1. unfold fieldMap. rewrite Hn, Hc. reflexivity.
  - destruct (_buildFieldMap (heap w) l) as [m|] eqn:Hb; [|discriminate].
    inversion H; subst m w1. unfold fieldMap. cbn [heap withHeap].
    unfold setFieldMapCell. rewrite Hn.
    rewrite nth_error_replaceNth_eq by exact Hl. reflexivity.
Qed.

Lemma firstSome_none : forall (S A B : Type) (xs : list A) (f : A -> M S (option B)) s,
  (forall x s', In x xs -> f x s' = (Ok None, s')) ->
  firstSome xs f s = (Ok None, s).
Proof.
  intros S A B xs f. induction xs as [|x r IH]; intros s H; [reflexivity|].
  cbn [firstSome]. unfold bind. rewrite (H x s (or_introl eq_refl)).
  apply IH. intros y s' Hy. apply H. right. exact Hy.
Qed.

Lemma spreadFree_In : forall fm f, spreadFree fm = true -> In f (JsMap.values fm) ->
  Str.startsWith (fs_name f) "..." = false.
Proof.
  intros fm f H Hin. unfold spreadFree in H. rewrite forallb_forall in H.
  apply negb_true_iff. apply H. exact Hin.
Qed.

Lemma findField_own_key :
  forall (w w1 : World) (l : loc) (fuel : nat) (fieldKey : string)
         (fm : JsMap.t FieldSelection),
    fieldMap l w = (Ok fm, w1) ->
    (forall e, JsMap.get fieldKey fm = Some e ->
       findField (S fuel) (Some (RawRef l)) fieldKey w = (Ok (Some e), w1)) /\
    (JsMap.get fieldKey fm = None -> spreadFree fm = true ->
       findField (S fuel) (Some (RawRef l)) fieldKey w = (Ok None, w1)) /\
    (exists msg, findField (S fuel) None fieldKey w = (Throw (TypeError msg), w)).
Proof.
  intros w w1 l fuel fieldKey fm Hfm. split; [|split].
  - intros e He. cbn [findField memberOf targetOf]. unfold bind. cbn [ret].
    rewrite Hfm, He. reflexivity.
  - intros Hnone Hfree. cbn [findField memberOf targetOf]. unfold bind. cbn [ret].
    rewrite Hfm, Hnone. rewrite (@fieldMap_twice _ _ _ _ Hfm).
    apply firstSome_none. intros f s' Hin.
    rewrite (@spreadFree_In _ _ Hfree Hin). reflexivity.
  - eexists. reflexivity.
Qed.

Lemma foldM_filter : forall (S : Type) (xs : list FieldSelection) name
    (body : list FieldSelection -> FieldSelection -> M S (list FieldSelection)) out s,
  (forall out f s', In f xs ->
     body out f s' = (Ok (if String.eqb (fs_name f) name then out ++ [f] else out), s')) ->
  foldM body xs out s
  = (Ok (out ++ List.filter (fun f => String.eqb (fs_name f) name) xs), s).
Proof.
  intros S xs name body. induction xs as [|x r IH]; intros out s H.
  - simpl. rewrite app_nil_r. reflexivity.
  - cbn [foldM]. unfold bind. rewrite (H out x s (or_introl eq_refl)).
    rewrite IH by (intros o f s' Hf; apply H; right; exact Hf).
    simpl. destruct (String.eqb (fs_name x) name).
    + rewrite <- app_assoc. reflexivity.
    + reflexivity.
Qed.

Lemma findFieldsByName_spread_free :
  forall (w w1 : World) (l : loc) (fuel : nat) (fieldName : string)
         (fm : JsMap.t FieldSelection),
    wf_heap (heap w) ->
    fieldMap l w = (Ok fm, w1) ->
    spreadFree fm = true ->
    let found := List.filter (fun f => String.eqb (fs_name f) fieldName) (JsMap.values fm) in
    findFieldsByName (S fuel) (RawRef l) fieldName w = (Ok found, w1) /\
    (List.length found <= 1 ->
       findFieldByName (S fuel) (RawRef l) fieldName w = (Ok (List.hd_error found), w1)) /\
    (1 < List.length found ->
       exists st,
         _schemaType (heap w) l = Some st /\
         findFieldByName (S fuel) (RawRef l) fieldName w
         = (Throw (Error ("Too many fields named " ++ Str.DQUOTE ++ fieldName ++ Str.DQUOTE
                          ++ " in selection of type " ++ Str.DQUOTE ++ st_name st
                          ++ Str.DQUOTE)), w1)).
Proof.
  intros w w1 l fuel fieldName fm Hwf Hfm Hfree found.
  assert (Hfind : findFieldsByName (S fuel) (RawRef l) fieldName w = (Ok found, w1)).
  { unfold findFieldsByName. cbn [memberOf _collectFieldsByName targetOf]. unfold bind.
    cbn [ret]. rewrite Hfm.
    rewrite (@foldM_filter World (JsMap.values fm) fieldName).
    - reflexivity.
    - intros out f s' Hin. rewrite (@spreadFree_In _ _ Hfree Hin).
      destruct (String.eqb (fs_name f) fieldName); reflexivity. }
  split; [exact Hfind|]. split.
  - intros Hle. unfold findFieldByName. cbn [memberOf]. unfold bind at 1 2. cbn [ret].
    rewrite Hfind.
    assert (E : (1 <? List.length found)%nat = false) by (apply Nat.ltb_ge; exact Hle).
    rewrite E. reflexivity.
  - intros Hlt.
    assert (Hl : l < List.length (heap w)).
    { unfold fieldMap in Hfm. destruct (nth_error (heap w) l) eqn:Hn; [|discriminate].
      apply nth_error_Some. congruence. }
    destruct (@schemaType_some (heap w) l Hwf Hl) as [st Hst].
    assert (Hinv : frameInv w w1).
    { pose proof (@framed_fieldMap l w w Hwf (frameInv_refl w)) as Hf.
      rewrite Hfm in Hf. exact Hf. }
    assert (Hst1 : _schemaType (heap w1) l = Some st).
    { rewrite (@schemaType_agree (heap w) (heap w1) (List.length (heap w)) l Hwf
                 (frameInv_agree Hinv) Hl). exact Hst. }
    exists st. split; [exact Hst|].
    unfold findFieldByName. cbn [memberOf]. unfold bind at 1 2. cbn [ret].
    rewrite Hfind.
    assert (E : (1 <? List.length found)%nat = true) by (apply Nat.ltb_lt; exact Hlt).
    rewrite E. unfold bind, getState, liftOpt. cbn [ret targetOf memberOf].
    rewrite Hst1. reflexivity.
Qed.

(** X26: the lookup helpers on the field map of the node itself.
    [findField] looks the key up in the field map of the node first: a key
    that is there is answered with its entry, whatever the spreads of the
    selection hold; a field with an alias is found under the alias, since
    that is its key. In a selection without spreads, a key that is not
    there is answered with [undefined]; [findFieldsByName] answers with the
    entries whose field has the name asked for, in the order of the map and
    whatever alias they sit under; [findFieldByName] answers with the only
    such entry, with [undefined] when there is none, and throws an [Error]
    when there are two or more, as when a field is selected once plainly
    and once under an alias. Called on [undefined], [findField] throws a
    [TypeError]. *)
Theorem lookup_helpers_on_own_fields :
  forall (w w1 : World) (l : loc) (fuel : nat) (name : string)
         (fm : JsMap.t FieldSelection),
    wf_heap (heap w) ->
    fieldMap l w = (Ok fm, w1) ->
    (forall e, JsMap.get name fm = Some e ->
       findField (S fuel) (Some (RawRef l)) name w = (Ok (Some e), w1)) /\
    (exists msg, findField (S fuel) None name w = (Throw (TypeError msg), w)) /\
    (spreadFree fm = true ->
       (JsMap.get name fm = None ->
          findField (S fuel) (Some (RawRef l)) name w = (Ok None, w1)) /\
       let found := List.filter (fun f => String.eqb (fs_name f) name) (JsMap.values fm) in
       findFieldsByName (S fuel) (RawRef l) name w = (Ok found, w1) /\
       (List.length found <= 1 ->
          findFieldByName (S fuel) (RawRef l) name w = (Ok (List.hd_error found), w1)) /\
       (1 < List.length found ->
          exists st,
            _schemaType (heap w) l = Some st /\
            findFieldByName (S fuel) (RawRef l) name w
            = (Throw (Error ("Too many fields named " ++ Str.DQUOTE ++ name ++ Str.DQUOTE
                             ++ " in selection of type " ++ Str.DQUOTE ++ st_name st
                             ++ Str.DQUOTE)), w1))).
Proof.
  intros w w1 l fuel name fm Hwf Hfm.
  destruct (@findField_own_key w w1 l fuel name fm Hfm) as [Hhit [Hmiss Hundef]].
  split; [exact Hhit|]. split; [exact Hundef|].
  intros Hfree. split; [intros Hnone; apply Hmiss; assumption|].
  apply (@findFieldsByName_spread_free w w1 l fuel name fm Hwf Hfm Hfree).
Qed.

(** Witness of X26: [id] selected plainly and under the alias [x]. *)
Lemma lookup_helpers_on_own_fields_witness :
  exists msg w1,
    findFieldByName 1 (RawRef 2) "id" postIdTwiceWorld = (Throw (Error msg), w1).
Proof.
  destruct (fieldMap 2 postIdTwiceWorld) as [[fm|e|] w1] eqn:E.
  - pose proof E as E'. vm_compute in E'. inversion E' as [[Hfm Hw1]]. clear E'.
    assert (Hfree : spreadFree fm = true) by (rewrite <- Hfm; reflexivity).
    assert (Hlt : 1 < List.length
                        (List.filter (fun f => String.eqb (fs_name f) "id") (JsMap.values fm)))
      by (rewrite <- Hfm; simpl; lia).
    destruct (proj2 (proj2 (proj2 (proj2 (proj2
                (@lookup_helpers_on_own_fields postIdTwiceWorld w1 2 0 "id" fm eq_refl E))
                Hfree))) Hlt) as [st [_ H]].
    eexists _, w1. exact H.
  - vm_compute in E. discriminate.
  - vm_compute in E. discriminate.
Defined.




(** ** The metadata builder ([runtime/enum-metadata.ts]) *)

Lemma resolve_enum : forall f b ty result,
  JsMap.get ty b = Some None -> flatResult b result ->
  exists result',
    EnumInputMetadataBuilder.resolve (S f) b ty result = (Ok (enumMeta ty), result') /\
    flatResult b result' /\
    (forall n, JsMap.get n result'
               = if String.eqb ty n then Some (enumMeta ty) else JsMap.get n result).
Proof.
  intros f b ty result Hb Hres. cbn [EnumInputMetadataBuilder.resolve]. unfold bind, getState.
  destruct (JsMap.get ty result) as [existing|] eqn:He.
  - destruct (Hres ty existing He) as [raw [Hraw ->]].
    assert (raw = None) by congruence. subst raw.
    exists result. split; [reflexivity|]. split; [exact Hres|].
    intros n. destruct (String.eqb ty n) eqn:E; [|reflexivity].
    apply String.eqb_eq in E. subst n. exact He.
  - rewrite Hb. cbn [ret modify].
    exists (JsMap.set ty (enumMeta ty) result). split; [reflexivity|]. split.
    + intros n v Hn. destruct (String.eqb ty n) eqn:E.
      * apply String.eqb_eq in E. subst n. rewrite get_set_eq in Hn.
        inversion Hn; subst v. exists None. split; [exact Hb | reflexivity].
      * apply String.eqb_neq in E. rewrite get_set_neq in Hn by exact E.
        apply Hres. exact Hn.
    + intros n. destruct (String.eqb ty n) eqn:E.
      * apply String.eqb_eq in E. subst n. apply get_set_eq.
      * apply String.eqb_neq in E. apply get_set_neq. exact E.
Qed.

Lemma foldM_enum_fields : forall f b rfs acc result,
  (forall rf, In rf rfs -> JsMap.get (rf_typeName rf) b = Some None) ->
  flatResult b result ->
  exists result',
    foldM (fun fields rf =>
             mt <- EnumInputMetadataBuilder.resolve (S f) b (rf_typeName rf) ;;
             ret (JsMap.set (rf_name rf) mt fields)) rfs acc result
    = (Ok (fold_left (fun fields rf =>
                        JsMap.set (rf_name rf) (enumMeta (rf_typeName rf)) fields) rfs acc),
       result') /\
    flatResult b result' /\
    (forall n v, JsMap.get n result = Some v -> JsMap.get n result' = Some v) /\
    (forall n, JsMap.get n b <> Some None -> JsMap.get n result' = JsMap.get n result).
Proof.
  intros f b rfs. induction rfs as [|rf r IH]; intros acc result Hall Hres.
  - exists result. split; [reflexivity|]. split; [exact Hres|]. split; auto.
  - destruct (@resolve_enum f b (rf_typeName rf) result (Hall rf (or_introl eq_refl)) Hres)
      as [result1 [Hrun1 [Hres1 Hget1]]].
    destruct (IH (JsMap.set (rf_name rf) (enumMeta (rf_typeName rf)) acc) result1
                 (fun rf' H => Hall rf' (or_intror H)) Hres1)
      as [result' [Hrun [Hres' [Hmono Hother]]]].
    exists result'. split.
    { cbn [foldM fold_left]. unfold bind at 1 2. rewrite Hrun1. cbn [ret]. exact Hrun. }
    split; [exact Hres'|]. split.
    + intros n v Hn. apply Hmono. rewrite Hget1.
      destruct (String.eqb (rf_typeName rf) n) eqn:E; [|exact Hn].
      apply String.eqb_eq in E. subst n.
      destruct (Hres _ _ Hn) as [raw [Hraw ->]].
      rewrite (Hall rf (or_introl eq_refl)) in Hraw. inversion Hraw; subst raw. reflexivity.
    + intros n Hn. rewrite (Hother n Hn), Hget1.
      destruct (String.eqb (rf_typeName rf) n) eqn:E; [|reflexivity].
      apply String.eqb_eq in E. subst n. exfalso. apply Hn.
      apply (Hall rf (or_introl eq_refl)).
Qed.

Lemma resolve_flat : forall f b name raw result,
  JsMap.get name b = Some raw -> flatRaw b raw -> flatResult b result ->
  exists result',
    EnumInputMetadataBuilder.resolve (S (S f)) b name result = (Ok (flatMeta name raw), result') /\
    flatResult b result' /\
    JsMap.get name result' = Some (flatMeta name raw) /\
    (forall n v, JsMap.get n result = Some v -> JsMap.get n result' = Some v).
Proof.
  intros f b name raw result Hb Hflat Hres.
  destruct (JsMap.get name result) as [existing|] eqn:He.
  - destruct (Hres name existing He) as [raw' [Hraw' ->]].
    assert (raw' = raw) by congruence. subst raw'.
    exists result. split.
    { cbn [EnumInputMetadataBuilder.resolve]. unfold bind, getState. rewrite He. reflexivity. }
    split; [exact Hres|]. split; [exact He|]. auto.
  - destruct raw as [rfs|].
    + destruct (@foldM_enum_fields f b rfs JsMap.empty result Hflat Hres)
        as [result1 [Hrun1 [Hres1 [Hmono1 Hother1]]]].
      assert (Hname1 : JsMap.get name result1 = None).
      { rewrite Hother1; [exact He|]. rewrite Hb. discriminate. }
      exists (JsMap.set name (flatMeta name (Some rfs)) result1). split.
      { change (EnumInputMetadataBuilder.resolve (S (S f)) b name result) with
          ((result0 <- getState ;;
            match JsMap.get name result0 with
            | Some existing => ret existing
            | None =>
                match JsMap.get name b with
                | None => throw (Error ("Unknown enum/input type: '" ++ name ++ "'"))
                | Some rawFields =>
                    fields <-
                      match rawFields with
                      | Some rfs =>
                          fs <- foldM (fun fields rf =>
                                         mt <- EnumInputMetadataBuilder.resolve (S f) b (rf_typeName rf) ;;
                                         ret (JsMap.set (rf_name rf) mt fields))
                                      rfs JsMap.empty ;;
                          ret (Some fs)
                      | None => ret None
                      end ;;
                    modify (JsMap.set name
                              (mkEnumInputMetaType
                                 (match rawFields with None => ENUM | Some _ => INPUT end)
                                 name fields)) ;;;
                    ret (mkEnumInputMetaType
                           (match rawFields with None => ENUM | Some _ => INPUT end)
                           name fields)
                end
            end) result).
        unfold bind at 1. unfold getState at 1. rewrite He, Hb.
        unfold bind at 1 2. rewrite Hrun1. cbn [ret]. unfold bind, modify. reflexivity. }
      split.
      { intros n v Hn. destruct (String.eqb name n) eqn:E.
        - apply String.eqb_eq in E. subst n. rewrite get_set_eq in Hn.
          inversion Hn; subst v. exists (Some rfs). split; [exact Hb | reflexivity].
        - apply String.eqb_neq in E. rewrite get_set_neq in Hn by exact E.
          apply Hres1. exact Hn. }
      split; [apply get_set_eq|].
      intros n v Hn. destruct (String.eqb name n) eqn:E.
      * apply String.eqb_eq in E. subst n. congruence.
      * apply String.eqb_neq in E. rewrite get_set_neq by exact E. apply Hmono1. exact Hn.
    + destruct (@resolve_enum (S f) b name result Hb Hres) as [result' [Hrun [Hres' Hget]]].
      exists result'. split; [exact Hrun|]. split; [exact Hres'|]. split.
      * rewrite Hget, String.eqb_refl. reflexivity.
      * intros n v Hn. rewrite Hget. destruct (String.eqb name n) eqn:E; [|exact Hn].
        apply String.eqb_eq in E. subst n. congruence.
Qed.

Lemma forEach_resolve : forall f b names result,
  (forall n, In n names -> exists raw, JsMap.get n b = Some raw /\ flatRaw b raw) ->
  flatResult b result ->
  exists result',
    forEach names (fun name => EnumInputMetadataBuilder.resolve (S (S f)) b name ;;; ret tt) result = (Ok tt, result') /\
    flatResult b result' /\
    (forall n, In n names -> JsMap.get n result' <> None) /\
    (forall n v, JsMap.get n result = Some v -> JsMap.get n result' = Some v).
Proof.
  intros f b names. induction names as [|x r IH]; intros result Hall Hres.
  - exists result. split; [reflexivity|]. split; [exact Hres|]. split; [intros n []|auto].
  - destruct (Hall x (or_introl eq_refl)) as [raw [Hb Hflat]].
    destruct (@resolve_flat f b x raw result Hb Hflat Hres)
      as [result1 [Hrun1 [Hres1 [Hx1 Hmono1]]]].
    destruct (IH result1 (fun n H => Hall n (or_intror H)) Hres1)
      as [result' [Hrun [Hres' [Hin Hmono]]]].
    exists result'. split.
    { cbn [forEach]. unfold bind at 1 2. rewrite Hrun1. cbn [ret]. exact Hrun. }
    split; [exact Hres'|]. split.
    + intros n [<-|Hn].
      * rewrite (Hmono _ _ Hx1). discriminate.
      * apply Hin. exact Hn.
    + intros n v Hn. apply Hmono, Hmono1. exact Hn.
Qed.

Lemma get_key_some : forall (V : Type) (m : JsMap.t V) k,
  In k (JsMap.keys m) -> exists v, JsMap.get k m = Some v.
Proof.
  intros V m k H. destruct (JsMap.get k m) as [v|] eqn:E; [eexists; reflexivity|].
  exfalso. apply (@get_None_notin _ m k E). exact H.
Qed.

Lemma flatBuilder_flatRaw : forall b n raw,
  flatBuilder b = true -> JsMap.get n b = Some raw -> flatRaw b raw.
Proof.
  intros b n raw Hflat Hget. apply get_Some_In in Hget.
  unfold flatBuilder in Hflat. rewrite forallb_forall in Hflat.
  specialize (Hflat (n, raw) Hget). cbn [snd] in Hflat.
  destruct raw as [rfs|]; [|exact I].
  intros rf Hrf. rewrite forallb_forall in Hflat. specialize (Hflat rf Hrf).
  destruct (JsMap.get (rf_typeName rf) b) as [[l|]|]; try discriminate. reflexivity.
Qed.

Lemma buildWith_flat : forall b f,
  flatBuilder b = true ->
  exists result,
    EnumInputMetadataBuilder.buildWith (S (S f)) b = Ok result /\
    (forall name, JsMap.get name result = option_map (flatMeta name) (JsMap.get name b)).
Proof.
  intros b f Hflat.
  destruct (@forEach_resolve f b (JsMap.keys b) JsMap.empty) as [result [Hrun [Hres [Hin _]]]].
  - intros n Hn. destruct (@get_key_some _ b n Hn) as [raw Hraw].
    exists raw. split; [exact Hraw|]. apply (@flatBuilder_flatRaw b n raw Hflat Hraw).
  - intros n v Hn. discriminate.
  - exists result. split.
    + unfold EnumInputMetadataBuilder.buildWith. rewrite Hrun. reflexivity.
    + intros name. destruct (JsMap.get name b) as [raw|] eqn:Hb; cbn [option_map].
      * assert (Hk : In name (JsMap.keys b)).
        { apply get_Some_In in Hb. unfold JsMap.keys. apply in_map_iff.
          exists (name, raw). split; [reflexivity | exact Hb]. }
        destruct (JsMap.get name result) as [v|] eqn:Hr; [|exfalso; exact (Hin name Hk Hr)].
        destruct (Hres name v Hr) as [raw' [Hraw' ->]]. congruence.
      * destruct (JsMap.get name result) as [v|] eqn:Hr; [|reflexivity].
        destruct (Hres name v Hr) as [raw' [Hraw' _]]. congruence.
Qed.

(** X28: [build] on a builder in which every field of every input type is
    of a registered enum type. The build returns, with any bound of two or
    more on the nesting and with the bound [build] itself uses, and the
    result holds, for every registered name and no other, the metadata of
    that type: kind ENUM without fields for a type registered without a
    field list, kind INPUT with one entry per raw field, each the metadata
    of the enum of its type, for a type registered with one. *)
Theorem build_resolves_flat_builders :
  forall (b : EnumInputMetadataBuilder.t),
    flatBuilder b = true ->
    (forall fuel, exists result,
       EnumInputMetadataBuilder.buildWith (S (S fuel)) b = Ok result /\
       (forall name, JsMap.get name result = option_map (flatMeta name) (JsMap.get name b))) /\
    (exists result,
       EnumInputMetadataBuilder.build b = Ok result /\
       (forall name, JsMap.get name result = option_map (flatMeta name) (JsMap.get name b))).
Proof.
  intros b Hflat. split.
  - intros fuel. apply buildWith_flat. exact Hflat.
  - unfold EnumInputMetadataBuilder.build. destruct b as [|entry r].
    + exists JsMap.empty. split; reflexivity.
    + cbn [JsMap.size List.length]. apply buildWith_flat. exact Hflat.
Qed.

(** Witness of X28: an enum and an input type with a field of that enum,
    registered input type first. *)
Lemma build_resolves_flat_builders_witness :
  exists result,
    EnumInputMetadataBuilder.build
      (EnumInputMetadataBuilder.add "Status" None
         (EnumInputMetadataBuilder.add "CreateInput" (Some [mkRawField "status" "Status"])
            EnumInputMetadataBuilder.new)) = Ok result /\
    JsMap.keys result = ["Status"; "CreateInput"].
Proof.
  destruct (proj2 (@build_resolves_flat_builders
                     (EnumInputMetadataBuilder.add "Status" None
                        (EnumInputMetadataBuilder.add "CreateInput"
                           (Some [mkRawField "status" "Status"])
                           EnumInputMetadataBuilder.new)) eq_refl)) as [result [H _]].
  exists result. split; [exact H|].
  vm_compute in H. inversion H. reflexivity.
Defined.

(** X29: an input type whose first field is of the type itself. [resolve]
    records a type only after its fields are resolved, so resolving such a
    type asks for the type again before anything is recorded: whatever
    bound is put on the nesting, [resolve] does not return and records
    nothing, and [build] does not return when the type is the first one
    registered. In JavaScript the recursion ends when the call stack is
    exhausted. *)
Theorem resolve_of_a_self_reference_never_returns :
  forall (fuel : nat) (b : EnumInputMetadataBuilder.t) (name : string)
         (rf : RawField) (rest : list RawField) (result : JsMap.t EnumInputMetaType),
    JsMap.get name b = Some (Some (rf :: rest)) ->
    rf_typeName rf = name ->
    JsMap.get name result = None ->
    EnumInputMetadataBuilder.resolve fuel b name result = (Diverge, result) /\
    (List.hd_error (JsMap.keys b) = Some name ->
       EnumInputMetadataBuilder.buildWith fuel b = Diverge).
Proof.
  intros fuel b name rf rest result Hb Hself Hres.
  assert (Hresolve : forall f, EnumInputMetadataBuilder.resolve f b name result = (Diverge, result)).
  { induction f as [|f IH]; [reflexivity|].
    cbn [EnumInputMetadataBuilder.resolve]. unfold bind at 1. unfold getState at 1. rewrite Hres, Hb.
    cbn [foldM]. rewrite Hself. unfold bind. rewrite IH. reflexivity. }
  split; [apply Hresolve|].
  intros Hhd. unfold EnumInputMetadataBuilder.buildWith.
  destruct (JsMap.keys b) as [|k ks] eqn:Hk; [discriminate|].
  inversion Hhd; subst k. cbn [forEach]. unfold bind at 1 2.
  assert (Hempty : EnumInputMetadataBuilder.resolve fuel b name JsMap.empty = (Diverge, JsMap.empty)).
  { clear Hresolve Hres. induction fuel as [|f IH]; [reflexivity|].
    cbn [EnumInputMetadataBuilder.resolve]. unfold bind at 1. unfold getState at 1.
    change (JsMap.get name (@JsMap.empty EnumInputMetaType)) with (@None EnumInputMetaType).
    cbv iota. rewrite Hb. cbn [foldM]. rewrite Hself. unfold bind. rewrite IH. reflexivity. }
  rewrite Hempty. reflexivity.
Qed.

(** Witness of X29: a filter input whose first field is a filter. *)
Lemma resolve_of_a_self_reference_never_returns_witness :
  EnumInputMetadataBuilder.buildWith 100
    (EnumInputMetadataBuilder.add "Filter" (Some [mkRawField "not" "Filter"])
       EnumInputMetadataBuilder.new) = Diverge.
Proof.
  exact (proj2 (@resolve_of_a_self_reference_never_returns 100
                  (EnumInputMetadataBuilder.add "Filter" (Some [mkRawField "not" "Filter"])
                     EnumInputMetadataBuilder.new)
                  "Filter" (mkRawField "not" "Filter") [] JsMap.empty
                  eq_refl eq_refl eq_refl) eq_refl).
Defined.

(** ** Field calls ([runtime/proxy.ts]) *)

(** X30: the call of a scalar field with arguments, [sel.field(...)].
    An argument bundle that is passed is stored as it is. Without one, the
    required arguments are turned into deferred-variable references only
    when the field is declared among the own fields of the schema type of
    the selection: for a field the type inherits, the own table has no
    entry, nothing is synthesized and the node carries no arguments,
    whatever the merged table declares for the field. The call never
    fails on a node of the heap. *)
Theorem method_call_parameterizes_own_fields_only :
  forall (w : World) (target : loc) (field : string) (st : SchemaType),
    schemaType (heap w) target = Some st ->
    (forall a,
       exists w',
         method_field target field [MArgBundle a] w
         = (Ok (ProxyRef (nextProxy w) (List.length (heap w))), w') /\
         payloadAt (heap w') (List.length (heap w))
         = Some (mkPayload (CtxPrev target) false field (Some a) None None None None)) /\
    (forall f, JsMap.get field (st_ownFields st) = Some f ->
       exists w',
         method_field target field [] w
         = (Ok (ProxyRef (nextProxy w) (List.length (heap w))), w') /\
         payloadAt (heap w') (List.length (heap w))
         = Some (mkPayload (CtxPrev target) false field
                           (autoParameterize (argGraphQLTypeMap f)) None None None None)) /\
    (JsMap.get field (st_ownFields st) = None ->
       exists w',
         method_field target field [] w
         = (Ok (ProxyRef (nextProxy w) (List.length (heap w))), w') /\
         payloadAt (heap w') (List.length (heap w))
         = Some (mkPayload (CtxPrev target) false field None None None None None)).
Proof.
  intros w target field st Hst.
  split; [|split].
  - intros a. eexists. split.
    + unfold method_field, bind, getState, liftOpt. cbn [scanMethodArgs liftE ret].
      rewrite Hst. cbn [ret ma_args ma_child ma_options].
      unfold addField, newSelectionImpl, newProxy. cbn [heap withHeap nextProxy]. reflexivity.
    + cbn [heap]. apply payloadAt_new.
  - intros f Hf. eexists. split.
    + unfold method_field, bind, getState, liftOpt. cbn [scanMethodArgs liftE ret].
      rewrite Hst. cbn [ret ma_args ma_child ma_options]. rewrite Hf.
      unfold addField, newSelectionImpl, newProxy. cbn [heap withHeap nextProxy]. reflexivity.
    + cbn [heap]. apply payloadAt_new.
  - intros Hf. eexists. split.
    + unfold method_field, bind, getState, liftOpt. cbn [scanMethodArgs liftE ret].
      rewrite Hst. cbn [ret ma_args ma_child ma_options]. rewrite Hf.
      unfold addField, newSelectionImpl, newProxy. cbn [heap withHeap nextProxy]. reflexivity.
    + cbn [heap]. apply payloadAt_new.
Qed.

(** Witness of X30: [area], which [Circle] inherits from [Shape] with the
    required argument [unit], called without arguments on a selection of
    [Circle]. *)
Lemma method_call_parameterizes_own_fields_only_witness :
  option_map argGraphQLTypeMap
    (JsMap.get "area"
       (st_fields (mkSchemaType "Circle" OBJECT [Shape]
                     (fold_left declareField [FdName "radius"] JsMap.empty))))
  = Some [("unit", "Unit!")] /\
  exists w',
    method_field 0 "area" [] circleWorld = (Ok (ProxyRef 1 1), w') /\
    payloadAt (heap w') 1
    = Some (mkPayload (CtxPrev 0) false "area" None None None None None).
Proof.
  split; [reflexivity|].
  exact (proj2 (proj2 (@method_call_parameterizes_own_fields_only circleWorld 0 "area"
                         (mkSchemaType "Circle" OBJECT [Shape]
                            (fold_left declareField [FdName "radius"] JsMap.empty))
                         eq_refl)) eq_refl).
Defined.



